(** * Order lifecycle orchestration: a shallow embedding

    The development follows [src/order/order.service.ts] (the orchestrator),
    [src/order/event-publisher.service.ts] (the dual-broker publisher),
    [order-processing.processor.ts] (the fulfilment worker) and the queue
    registration of [order.module.ts]; of the callers it takes the page
    arithmetic of [src/order/order.controller.ts] and the status update of
    [src/order/order-grpc.controller.ts].

    Conventions of the embedding:
    - an [async] method is a computation in the monad [M]: it threads the
      state of the collaborators (orders table, Redis cache, clock, log of
      collaborator calls) and either returns a value or throws; what a
      method did before it threw stays done;
    - the numbers of a creation request, and of the entity [createOrder]
      builds from it, are JavaScript numbers: binary64 floating-point values
      ([float]), multiplied and added as JavaScript does. The rows of the
      table, and the orders loaded from it, hold the [decimal(10,2)]
      amounts, counted in hundredths; what the table makes of a number
      written into such a column is an answer of the environment;
    - the outcome of every call to an external collaborator that the code
      can observe is read from an environment [Env], so each theorem
      quantifies over every way these calls may succeed or fail: the saves,
      the awaited emits to RabbitMQ, the queue add, the deletes on the
      cache, the query for an id that is not the text of a uuid, the
      inventory and the payment. The emit to Kafka is not awaited, and its
      outcome is never observed. A query with a negative [OFFSET] or [LIMIT]
      is refused by the table. Other reads of the table, and reads and
      writes of the cache, are taken not to fail;
    - the cache is the Redis store of [app.module.ts]: it holds copies, so
      a later assignment to a loaded order does not change the cached one,
      and an entry is gone once its time to live has passed; its [keys]
      takes a glob pattern;
    - logging and the simulated delays of the worker have no effect and are
      left out. *)

From Stdlib Require Import ZArith Lia Floats Ascii.
From stdpp Require Import gmap strings list fin_maps infinite pretty sorting.

Set Warnings "-inexact-float".

Local Open Scope Z_scope.

(** ** Entities ([src/order/entities/order.entity.ts]) *)

Inductive OrderStatus : Type :=
| PENDING
| CONFIRMED
| PROCESSING
| SHIPPED
| DELIVERED
| CANCELLED.

#[global] Instance OrderStatus_eq_dec : EqDecision OrderStatus.
Proof. solve_decision. Defined.

(** The string value of each enum member, as it appears in messages. *)
Definition status_value (s : OrderStatus) : string :=
  match s with
  | PENDING => "pending"
  | CONFIRMED => "confirmed"
  | PROCESSING => "processing"
  | SHIPPED => "shipped"
  | DELIVERED => "delivered"
  | CANCELLED => "cancelled"
  end.

Record ShippingAddress : Type := mkAddress {
  street : string;
  city : string;
  state : string;
  zipCode : string;
  country : string;
}.

(** [OrderItemDto]: one line of a creation request. [quantity] and
    [unitPrice] are JavaScript numbers. *)
Module OrderItemDto.
Record t : Type := mk {
  productId : string;
  productName : string;
  quantity : float;
  unitPrice : float;
}.
End OrderItemDto.

(** [OrderItem] as a row of the table and as loaded from it: [quantity] is
    an [int] column, [unitPrice] and [totalPrice] are [decimal(10,2)]
    columns, counted in hundredths. The generated id, the back-reference to
    the order and the creation date of an item play no part below and are
    left out. *)
Module OrderItem.
Record t : Type := mk {
  productId : string;
  productName : string;
  quantity : Z;
  unitPrice : Z;
  totalPrice : Z;
}.
End OrderItem.

(** [Order] as a row of the table and as loaded from it: [totalAmount] is
    a [decimal(10,2)] column, counted in hundredths; [cancelledAt] and
    [cancelReason] are nullable columns; the free-form [metadata] column is
    never read or written by the service and is left out. *)
Module Order.
Record t : Type := mk {
  id : string;
  userId : string;
  totalAmount : Z;
  status : OrderStatus;
  shippingAddress : ShippingAddress;
  items : list OrderItem.t;
  createdAt : Z;
  updatedAt : Z;
  cancelledAt : option Z;
  cancelReason : option string;
}.

Definition set_status (s : OrderStatus) (o : t) : t :=
  mk (id o) (userId o) (totalAmount o) s (shippingAddress o) (items o)
     (createdAt o) (updatedAt o) (cancelledAt o) (cancelReason o).

Definition set_cancelled (at_ : Z) (reason : string) (o : t) : t :=
  mk (id o) (userId o) (totalAmount o) (status o) (shippingAddress o) (items o)
     (createdAt o) (updatedAt o) (Some at_) (Some reason).

Definition set_updatedAt (at_ : Z) (o : t) : t :=
  mk (id o) (userId o) (totalAmount o) (status o) (shippingAddress o) (items o)
     (createdAt o) at_ (cancelledAt o) (cancelReason o).
End Order.

(** ** Request objects ([src/order/dto/create-order.dto.ts]) *)

Module CreateOrderDto.
Record t : Type := mk {
  userId : string;
  items : list OrderItemDto.t;
  shippingAddress : ShippingAddress;
}.
End CreateOrderDto.

Module UpdateOrderStatusDto.
Record t : Type := mk {
  status : OrderStatus;
  cancelReason : option string;
}.
End UpdateOrderStatusDto.

(** An item of the entity [createOrder] builds: the line of the request
    with its [totalPrice], all three numbers as JavaScript computed them. *)
Module NewOrderItem.
Record t : Type := mk {
  productId : string;
  productName : string;
  quantity : float;
  unitPrice : float;
  totalPrice : float;
}.
End NewOrderItem.

(** What [orderRepository.create] returns: an entity that has no id and no
    dates yet. *)
Module OrderDraft.
Record t : Type := mk {
  userId : string;
  totalAmount : float;
  status : OrderStatus;
  shippingAddress : ShippingAddress;
  items : list NewOrderItem.t;
}.
End OrderDraft.

(** The entity after its first [save]: the table has generated the id and
    the two dates; the amounts are still the JavaScript numbers of the
    draft, whatever the [decimal(10,2)] columns made of them. *)
Module NewOrder.
Record t : Type := mk {
  id : string;
  userId : string;
  totalAmount : float;
  status : OrderStatus;
  shippingAddress : ShippingAddress;
  items : list NewOrderItem.t;
  createdAt : Z;
  updatedAt : Z;
}.
End NewOrder.

(** ** Messages sent to the brokers and to the job queue *)

Inductive EventData : Type :=
| OrderCreatedData (orderId userId : string) (totalAmount : float)
    (status : OrderStatus) (itemCount : nat)
| OrderStatusChangedData (orderId userId : string) (newStatus : OrderStatus)
    (totalAmount : Z)
| OrderCancelledData (orderId userId : string) (cancelReason : option string)
    (totalAmount : Z).

Inductive Message : Type :=
| Envelope (eventType : string) (timestamp : Z) (data : EventData)
| StatusUpdate (orderId userId : string) (status : OrderStatus).

Record JobData : Type := mkJob {
  job_orderId : string;
  job_userId : string;
}.

(** ** Exceptions *)

(** [NotFoundException] and [BadRequestException] are thrown by the service,
    [JsError] is a plain [new Error(message)] of the worker; a rejection of a
    collaborator is tagged with the collaborator it came from: the table
    ([StoreError], the [QueryFailedError] of the repository), a broker, the
    job queue, the cache. *)
Inductive Exception : Type :=
| NotFoundException (message : string)
| BadRequestException (message : string)
| JsError (message : string)
| StoreError (message : string)
| BrokerError (message : string)
| QueueError (message : string)
| CacheError (message : string).

Definition message (e : Exception) : string :=
  match e with
  | NotFoundException m | BadRequestException m | JsError m
  | StoreError m | BrokerError m | QueueError m | CacheError m => m
  end.

(** The spec's [NotFound] and [InvalidTransition], with the messages the
    service builds. *)
Definition NotFound (id : string) : Exception :=
  NotFoundException ("Order with ID " +:+ id +:+ " not found").

Definition InvalidTransition (currentStatus newStatus : OrderStatus) : Exception :=
  BadRequestException
    ("Invalid status transition from " +:+ status_value currentStatus
       +:+ " to " +:+ status_value newStatus).

(** ** Collaborator calls, state and environment *)

Inductive Call : Type :=
| RepoSave (id : string)
| RepoFindOne (id : string)
| RepoFindAndCount (userId : string)
| CacheGet (key : string)
| CacheSet (key : string) (ttl : Z)
| CacheDel (key : string)
| CacheKeys (pattern : string)
| KafkaEmit (topic : string) (msg : Message)
| RabbitEmit (pattern : string) (msg : Message)
| QueueAdd (name : string) (data : JobData)
| JobProgress (percent : Z)
| InventoryCheck (orderId : string)
| InventoryReserve (orderId : string)
| PaymentInitiate (orderId : string).

Record Listing : Type := mkListing {
  orders : list Order.t;
  total : nat;
}.

(** The cache is one Redis store whose [get<T>] is an unchecked cast. The
    service only ever uses two key families, [order:<id>] for single orders
    and [user-orders:<userId>:<page>:<limit>] for listings, which never
    overlap (see [order_key_not_listing_key]); each family is a map from the
    full key to the cached copy and the instant at which it expires. *)
Record State : Type := mkState {
  store : gmap string Order.t;
  cache_orders : gmap string (Order.t * Z);
  cache_listings : gmap string (Listing * Z);
  now : Z;
  trace : list Call;
}.

Definition initial_state : State := mkState ∅ ∅ ∅ 0 [].

(** Outcomes of the collaborators: [Some m] means the call rejects (or
    throws) with message [m].
    - [insert_outcome] and [save_outcome]: the first and the later saves of
      an entity; [to_decimal] and [to_int] are what the table makes of a
      JavaScript number written into a [decimal(10,2)] column (in
      hundredths) and into an [int] column;
    - [id_rejected]: the primary key is a [uuid] column, and a query for an
      id that is not the text of a uuid is refused by the database; this can
      only happen to an id that no row has;
    - [kafka_emit_outcome]: what becomes of an event handed to Kafka; the
      publisher never learns it (see [kafka_emit]);
    - [keys_supported] says whether the cache store exposes [keys], and
      [glob_match pattern key] is the answer of Redis for a pattern in which
      the user id brought glob characters of its own;
    - the inventory, reservation and payment steps are simulated in the
      source (always available, never failing); here they are answers of the
      environment, of which the source is the instance [simulated_steps]. *)
Record Env : Type := mkEnv {
  insert_outcome : NewOrder.t -> option string;
  save_outcome : Order.t -> option string;
  to_decimal : float -> Z;
  to_int : float -> Z;
  id_rejected : string -> option string;
  kafka_emit_outcome : string -> Message -> option string;
  rabbit_emit_outcome : string -> Message -> option string;
  queue_add_outcome : string -> JobData -> option string;
  keys_supported : bool;
  glob_match : string -> string -> bool;
  cache_del_outcome : string -> option string;
  inventory_available : string -> bool;
  reserve_outcome : string -> option string;
  payment_outcome : string -> option string;
}.

Definition simulated_steps (env : Env) : Prop :=
  (forall id, inventory_available env id = true) /\
  (forall id, reserve_outcome env id = None) /\
  (forall id, payment_outcome env id = None).

(** The row the table keeps of a saved entity. *)
Definition item_row (env : Env) (item : NewOrderItem.t) : OrderItem.t :=
  OrderItem.mk (NewOrderItem.productId item) (NewOrderItem.productName item)
    (to_int env (NewOrderItem.quantity item))
    (to_decimal env (NewOrderItem.unitPrice item))
    (to_decimal env (NewOrderItem.totalPrice item)).

Definition row_of (env : Env) (o : NewOrder.t) : Order.t :=
  Order.mk (NewOrder.id o) (NewOrder.userId o)
    (to_decimal env (NewOrder.totalAmount o)) (NewOrder.status o)
    (NewOrder.shippingAddress o) (map (item_row env) (NewOrder.items o))
    (NewOrder.createdAt o) (NewOrder.updatedAt o) None None.

(** ** The monad of service methods *)

Inductive Result (A : Type) : Type :=
| Ok (a : A)
| Err (e : Exception).
Arguments Ok {A} a.
Arguments Err {A} e.

Definition M (A : Type) : Type := State -> Result A * State.

Definition ret {A} (a : A) : M A := fun st => (Ok a, st).

Definition throw {A} (e : Exception) : M A := fun st => (Err e, st).

Definition bind {A B} (m : M A) (k : A -> M B) : M B :=
  fun st =>
    match m st with
    | (Ok a, st') => k a st'
    | (Err e, st') => (Err e, st')
    end.

(** [try { m } catch (error) { h error }] *)
Definition try_catch {A} (m : M A) (h : Exception -> M A) : M A :=
  fun st =>
    match m st with
    | (Ok a, st') => (Ok a, st')
    | (Err e, st') => h e st'
    end.

Notation "x <- c1 ;; c2" := (bind c1 (fun x => c2))
  (at level 100, c1 at next level, right associativity).
Notation "c1 ;; c2" := (bind c1 (fun _ => c2))
  (at level 100, right associativity).

Definition get_state : M State := fun st => (Ok st, st).

(** Every call to a collaborator is appended to the log, whether or not it
    succeeds. *)
Definition log_calls (l : list Call) (st : State) : State :=
  mkState (store st) (cache_orders st) (cache_listings st) (now st) (trace st ++ l).

Definition log (c : Call) : M unit := fun st => (Ok tt, log_calls [c] st).

(** [await Promise.all(l.map(f))]: every call is started, so each leaves
    its effect whether or not an earlier one rejected; the [await] throws
    the rejection of the first that rejected. *)
Fixpoint promise_all {A} (f : A -> M unit) (l : list A) : M unit :=
  match l with
  | [] => ret tt
  | x :: l' =>
      fun st =>
        match f x st with
        | (Ok _, st') => promise_all f l' st'
        | (Err e, st') => (Err e, (promise_all f l' st').2)
        end
  end.

Definition modify (f : State -> State) : M unit := fun st => (Ok tt, f st).

(** [new Date()] *)
Definition clock : M Z := fun st => (Ok (now st), st).

Definition set_store (s : gmap string Order.t) (st : State) : State :=
  mkState s (cache_orders st) (cache_listings st) (now st) (trace st).

Definition set_cache_orders (c : gmap string (Order.t * Z)) (st : State) : State :=
  mkState (store st) c (cache_listings st) (now st) (trace st).

Definition set_cache_listings (c : gmap string (Listing * Z)) (st : State) : State :=
  mkState (store st) (cache_orders st) c (now st) (trace st).

Definition set_now (t : Z) (st : State) : State :=
  mkState (store st) (cache_orders st) (cache_listings st) t (trace st).

(** ** The cache collaborator *)

(** An entry is visible until the clock reaches its expiry. *)
Definition live {A} (t : Z) (e : A * Z) : option A :=
  if decide (t < e.2) then Some e.1 else None.

Definition live_keys {A} (t : Z) (c : gmap string (A * Z)) : list string :=
  (filter (fun kv => t < kv.2.2) (map_to_list c)).*1.

Definition cache_get_order (key : string) : M (option Order.t) :=
  log (CacheGet key) ;;
  st <- get_state ;;
  ret (cache_orders st !! key ≫= live (now st)).

Definition cache_get_listing (key : string) : M (option Listing) :=
  log (CacheGet key) ;;
  st <- get_state ;;
  ret (cache_listings st !! key ≫= live (now st)).

Definition cache_set_order (key : string) (o : Order.t) (ttl : Z) : M unit :=
  log (CacheSet key ttl) ;;
  modify (fun st => set_cache_orders (<[key := (o, now st + ttl)]> (cache_orders st)) st).

Definition cache_set_listing (key : string) (r : Listing) (ttl : Z) : M unit :=
  log (CacheSet key ttl) ;;
  modify (fun st => set_cache_listings (<[key := (r, now st + ttl)]> (cache_listings st)) st).

(** [cacheManager.del(key)]: the call can reject, and then the entry
    stays. *)
Definition cache_del (env : Env) (key : string) : M unit :=
  log (CacheDel key) ;;
  match cache_del_outcome env key with
  | Some m => throw (CacheError m)
  | None =>
      modify (fun st =>
        set_cache_listings (delete key (cache_listings st))
          (set_cache_orders (delete key (cache_orders st)) st))
  end.

(** The characters that Redis reads as part of a glob pattern. *)
Definition glob_chars : list Ascii.ascii := ["*"; "?"; "["; "\"]%char.

Fixpoint glob_free (s : string) : bool :=
  match s with
  | EmptyString => true
  | String c rest => negb (bool_decide (c ∈ glob_chars)) && glob_free rest
  end.

(** Whether the pattern [prefix*] selects [key]: a prefix with no glob
    character selects the keys that start with it; for any other prefix the
    answer is that of Redis. *)
Definition key_matches (env : Env) (prefix key : string) : bool :=
  if glob_free prefix
  then String.prefix prefix key
  else glob_match env (prefix +:+ "*") key.

(** [store.keys(prefix + "*")], over the keys of both families. *)
Definition cache_keys (env : Env) (prefix : string) : M (list string) :=
  log (CacheKeys (prefix +:+ "*")) ;;
  st <- get_state ;;
  ret (filter (fun k => key_matches env prefix k = true)
         (live_keys (now st) (cache_orders st)
            ++ live_keys (now st) (cache_listings st))).

(** ** The orders table *)

(** [createdAt: 'DESC'] *)
Definition newer_first (a b : Order.t) : Prop :=
  Order.createdAt b <= Order.createdAt a.

#[global] Instance newer_first_dec a b : Decision (newer_first a b).
Proof. unfold newer_first. apply _. Defined.

Definition orders_of_user (userId : string) (s : gmap string Order.t) : list Order.t :=
  merge_sort newer_first
    (filter (fun o => Order.userId o = userId) (map_to_list s).*2).

Section Service.

Variable env : Env.

(** [orderRepository.save] of an entity that has no id yet: the table
    generates an unused id and the two dates and keeps the row [row_of]; the
    entity handed back is the one passed in, with the id and the dates
    filled in. *)
Definition repository_insert (d : OrderDraft.t) : M NewOrder.t :=
  st <- get_state ;;
  let o := NewOrder.mk (fresh (dom (store st))) (OrderDraft.userId d)
             (OrderDraft.totalAmount d) (OrderDraft.status d)
             (OrderDraft.shippingAddress d) (OrderDraft.items d)
             (now st) (now st) in
  log (RepoSave (NewOrder.id o)) ;;
  match insert_outcome env o with
  | Some m => throw (StoreError m)
  | None =>
      modify (fun st => set_store (<[NewOrder.id o := row_of env o]> (store st)) st) ;;
      ret o
  end.

(** [orderRepository.save] of a loaded entity: the row is overwritten and
    [updatedAt] refreshed. *)
Definition repository_save (o : Order.t) : M Order.t :=
  log (RepoSave (Order.id o)) ;;
  match save_outcome env o with
  | Some m => throw (StoreError m)
  | None =>
      t <- clock ;;
      let o' := Order.set_updatedAt t o in
      modify (fun st => set_store (<[Order.id o := o']> (store st)) st) ;;
      ret o'
  end.

(** [orderRepository.findOne({ where: { id }, relations: ['items'] })]: the
    row of [id] if there is one; if there is none, the query is refused when
    [id] is not the text of a uuid, and answers [null] otherwise. *)
Definition repository_findOne (id : string) : M (option Order.t) :=
  log (RepoFindOne id) ;;
  st <- get_state ;;
  match store st !! id with
  | Some o => ret (Some o)
  | None =>
      match id_rejected env id with
      | Some m => throw (StoreError m)
      | None => ret None
      end
  end.

(** [orderRepository.findAndCount] with [skip] and [take]: the database
    refuses a negative [OFFSET] or [LIMIT]; the repository leaves out a
    [take] of 0, so that no limit applies. *)
Definition repository_findAndCount (userId : string) (skip take_ : Z) : M Listing :=
  log (RepoFindAndCount userId) ;;
  st <- get_state ;;
  if decide (skip < 0) then throw (StoreError "OFFSET must not be negative") else
  if decide (take_ < 0) then throw (StoreError "LIMIT must not be negative") else
  let all := orders_of_user userId (store st) in
  let rest := drop (Z.to_nat skip) all in
  ret (mkListing (if decide (take_ = 0) then rest else take (Z.to_nat take_) rest)
         (length all)).

(** ** The brokers and the job queue *)

(** [this.kafkaClient.emit(topic, event)] as a statement of its own: the
    Observable it returns is dropped, neither awaited nor subscribed to, so
    the call returns at once and whatever becomes of the event
    ([kafka_emit_outcome]) never reaches the publisher. *)
Definition kafka_emit (topic : string) (msg : Message) : M unit :=
  log (KafkaEmit topic msg).

(** [await this.rabbitMqClient.emit(pattern, event).toPromise()]: a
    failure of the emit rejects the awaited promise. *)
Definition rabbit_emit (pattern : string) (msg : Message) : M unit :=
  log (RabbitEmit pattern msg) ;;
  match rabbit_emit_outcome env pattern msg with
  | Some m => throw (BrokerError m)
  | None => ret tt
  end.

Definition queue_add (name : string) (data : JobData) : M unit :=
  log (QueueAdd name data) ;;
  match queue_add_outcome env name data with
  | Some m => throw (QueueError m)
  | None => ret tt
  end.

(** ** Event publisher ([src/order/event-publisher.service.ts]) *)

Definition publishOrderCreated (order : NewOrder.t) : M unit :=
  try_catch
    (t <- clock ;;
     let event :=
       Envelope "ORDER_CREATED" t
         (OrderCreatedData (NewOrder.id order) (NewOrder.userId order)
            (NewOrder.totalAmount order) (NewOrder.status order)
            (length (NewOrder.items order))) in
     kafka_emit "order.created" event ;;
     rabbit_emit "order_created" event)
    (fun error => throw error).

Definition publishOrderStatusChanged (order : Order.t) : M unit :=
  try_catch
    (t <- clock ;;
     let event :=
       Envelope "ORDER_STATUS_CHANGED" t
         (OrderStatusChangedData (Order.id order) (Order.userId order)
            (Order.status order) (Order.totalAmount order)) in
     kafka_emit "order.status.changed" event ;;
     if decide (Order.status order = SHIPPED \/ Order.status order = DELIVERED)
     then rabbit_emit "order_notification"
            (StatusUpdate (Order.id order) (Order.userId order) (Order.status order))
     else ret tt)
    (fun error => throw error).

Definition publishOrderCancelled (order : Order.t) : M unit :=
  try_catch
    (t <- clock ;;
     let event :=
       Envelope "ORDER_CANCELLED" t
         (OrderCancelledData (Order.id order) (Order.userId order)
            (Order.cancelReason order) (Order.totalAmount order)) in
     kafka_emit "order.cancelled" event ;;
     rabbit_emit "order_cancelled" event)
    (fun error => ret tt).

(** ** Order service ([src/order/order.service.ts]) *)

Definition order_key (id : string) : string := "order:" +:+ id.

Definition listing_prefix (userId : string) : string :=
  "user-orders:" +:+ userId +:+ ":".

Definition listing_key (userId : string) (page limit : Z) : string :=
  listing_prefix userId +:+ pretty page +:+ ":" +:+ pretty limit.

Definition invalidateUserOrdersCache (userId : string) : M unit :=
  keys <- (if keys_supported env then cache_keys env (listing_prefix userId) else ret []) ;;
  match keys with
  | [] => ret tt
  | _ => promise_all (cache_del env) keys
  end.

(** [items.reduce((sum, item) => sum + item.unitPrice * item.quantity, 0)],
    in the binary64 arithmetic of JavaScript. *)
Definition order_total (items : list OrderItemDto.t) : float :=
  fold_left
    (fun sum item =>
       (sum + OrderItemDto.unitPrice item * OrderItemDto.quantity item)%float)
    items 0%float.

Definition to_item (item : OrderItemDto.t) : NewOrderItem.t :=
  NewOrderItem.mk (OrderItemDto.productId item) (OrderItemDto.productName item)
    (OrderItemDto.quantity item) (OrderItemDto.unitPrice item)
    (OrderItemDto.unitPrice item * OrderItemDto.quantity item)%float.

Definition createOrder (createOrderDto : CreateOrderDto.t) : M NewOrder.t :=
  let totalAmount := order_total (CreateOrderDto.items createOrderDto) in
  let order :=
    OrderDraft.mk (CreateOrderDto.userId createOrderDto) totalAmount PENDING
      (CreateOrderDto.shippingAddress createOrderDto)
      (map to_item (CreateOrderDto.items createOrderDto)) in
  savedOrder <- repository_insert order ;;
  publishOrderCreated savedOrder ;;
  queue_add "process-order"
    (mkJob (NewOrder.id savedOrder) (NewOrder.userId savedOrder)) ;;
  invalidateUserOrdersCache (NewOrder.userId savedOrder) ;;
  ret savedOrder.

Definition findOne (id : string) : M Order.t :=
  let cacheKey := order_key id in
  cached <- cache_get_order cacheKey ;;
  match cached with
  | Some o => ret o
  | None =>
      order <- repository_findOne id ;;
      match order with
      | None => throw (NotFound id)
      | Some o => cache_set_order cacheKey o 300 ;; ret o
      end
  end.

Definition findByUser (userId : string) (page limit : Z) : M Listing :=
  let cacheKey := listing_key userId page limit in
  cached <- cache_get_listing cacheKey ;;
  match cached with
  | Some r => ret r
  | None =>
      result <- repository_findAndCount userId ((page - 1) * limit) limit ;;
      cache_set_listing cacheKey result 300 ;;
      ret result
  end.

Definition validTransitions (s : OrderStatus) : list OrderStatus :=
  match s with
  | PENDING => [CONFIRMED; CANCELLED]
  | CONFIRMED => [PROCESSING; CANCELLED]
  | PROCESSING => [SHIPPED; CANCELLED]
  | SHIPPED => [DELIVERED]
  | DELIVERED => []
  | CANCELLED => []
  end.

Definition validateStatusTransition (currentStatus newStatus : OrderStatus) : M unit :=
  if decide (newStatus ∈ validTransitions currentStatus)
  then ret tt
  else throw (InvalidTransition currentStatus newStatus).

(** The assignments of [updateStatus] between validation and save. *)
Definition apply_update (t : Z) (updateDto : UpdateOrderStatusDto.t) (order : Order.t)
  : Order.t :=
  let order := Order.set_status (UpdateOrderStatusDto.status updateDto) order in
  if decide (UpdateOrderStatusDto.status updateDto = CANCELLED)
  then Order.set_cancelled t
         (default "" (UpdateOrderStatusDto.cancelReason updateDto)) order
  else order.

Definition updateStatus (id : string) (updateDto : UpdateOrderStatusDto.t) : M Order.t :=
  order <- findOne id ;;
  validateStatusTransition (Order.status order) (UpdateOrderStatusDto.status updateDto) ;;
  t <- clock ;;
  let order := apply_update t updateDto order in
  updatedOrder <- repository_save order ;;
  publishOrderStatusChanged updatedOrder ;;
  cache_del env (order_key id) ;;
  invalidateUserOrdersCache (Order.userId order) ;;
  ret updatedOrder.

Definition cancelOrder (id : string) (reason : string) : M Order.t :=
  updateStatus id (UpdateOrderStatusDto.mk CANCELLED (Some reason)).

(** ** Fulfilment worker ([order-processing.processor.ts]) *)

Record JobResult : Type := mkJobResult {
  success : bool;
  result_orderId : string;
  result_message : string;
}.

Definition progress (percent : Z) : M unit := log (JobProgress percent).

Definition validateOrder (orderId : string) : M unit :=
  order <- findOne orderId ;;
  match Order.items order with
  | [] => throw (JsError "Order has no items")
  | _ => ret tt
  end.

Definition checkInventory (orderId : string) : M bool :=
  log (InventoryCheck orderId) ;;
  ret (inventory_available env orderId).

Definition reserveInventory (orderId : string) : M unit :=
  log (InventoryReserve orderId) ;;
  match reserve_outcome env orderId with
  | Some m => throw (JsError m)
  | None => ret tt
  end.

Definition initiatePayment (orderId : string) : M unit :=
  log (PaymentInitiate orderId) ;;
  match payment_outcome env orderId with
  | Some m => throw (JsError m)
  | None => ret tt
  end.

(** The [try] block of [handleOrderProcessing]. *)
Definition pipeline (orderId : string) : M JobResult :=
  progress 20 ;;
  validateOrder orderId ;;
  progress 40 ;;
  inventoryAvailable <- checkInventory orderId ;;
  if negb inventoryAvailable then throw (JsError "Insufficient inventory") else
  progress 60 ;;
  reserveInventory orderId ;;
  progress 80 ;;
  initiatePayment orderId ;;
  progress 100 ;;
  updateStatus orderId (UpdateOrderStatusDto.mk CONFIRMED None) ;;
  ret (mkJobResult true orderId "Order processed successfully").

(** The [catch] block of [handleOrderProcessing]. *)
Definition on_failure (orderId : string) (error : Exception) : M JobResult :=
  updateStatus orderId (UpdateOrderStatusDto.mk CANCELLED (Some (message error))) ;;
  throw error.

Definition handleOrderProcessing (job : JobData) : M JobResult :=
  let orderId := job_orderId job in
  try_catch (pipeline orderId) (on_failure orderId).

End Service.

(** ** Order statistics ([getOrderStats] of [src/order/order.service.ts]) *)

(** One row of [getRawMany]: a status with the count and the summed
    [totalAmount] of the orders in it. The driver hands both numbers over as
    decimal strings; here they are the numbers. *)
Record StatsRow : Type := mkStatsRow {
  stats_status : OrderStatus;
  stats_count : nat;
  stats_totalAmount : Z;
}.

(** [if (userId)]: JavaScript takes a missing and an empty string for
    false. *)
Definition truthy (s : option string) : bool :=
  match s with
  | Some (String _ _) => true
  | _ => false
  end.

Definition all_statuses : list OrderStatus :=
  [PENDING; CONFIRMED; PROCESSING; SHIPPED; DELIVERED; CANCELLED].

Definition sum_totalAmount (rows : list Order.t) : Z :=
  foldr (fun o sum => Order.totalAmount o + sum) 0 rows.

(** [SELECT status, COUNT, SUM(totalAmount) ... GROUP BY status]: one row
    for each status that some selected order has. The query fixes no order
    of the rows; here they come in the order of the enum. *)
Definition status_row (rows : list Order.t) (s : OrderStatus) : option StatsRow :=
  match filter (fun o => Order.status o = s) rows with
  | [] => None
  | g => Some (mkStatsRow s (length g) (sum_totalAmount g))
  end.

Definition group_by_status (rows : list Order.t) : list StatsRow :=
  omap (status_row rows) all_statuses.

(** The query reads the table directly: no cache is involved, and the
    read is not entered in the log of calls. *)
Definition getOrderStats (userId : option string) : M (list StatsRow) :=
  st <- get_state ;;
  let queryBuilder := (map_to_list (store st)).*2 in
  let queryBuilder :=
    if truthy userId
    then filter (fun o => Some (Order.userId o) = userId) queryBuilder
    else queryBuilder in
  ret (group_by_status queryBuilder).

(** ** The other jobs of the worker ([order-processing.processor.ts]) *)




(** ** REST controller ([src/order/order.controller.ts]) *)

(** A JavaScript number that is an integer, or what a division by zero
    gives. *)
Inductive JsNumber : Type :=
| JsFinite (z : Z)
| JsInfinity
| JsNaN.

(** [Math.ceil(total / limit)] for a count [total] and an integer
    [limit]. *)
Definition ceil_div (total : nat) (limit : Z) : JsNumber :=
  if decide (limit = 0)
  then (if decide (total = 0%nat) then JsNaN else JsInfinity)
  else JsFinite (- ((- Z.of_nat total) / limit)).

Record Pagination : Type := mkPagination {
  pagination_page : Z;
  pagination_limit : Z;
  pagination_total : nat;
  pagination_totalPages : JsNumber;
}.

Record UserOrdersResponse : Type := mkUserOrdersResponse {
  response_success : bool;
  response_data : list Order.t;
  response_pagination : Pagination;
}.

Module OrderController.

(** [page] and [limit] are optional query parameters, 1 and 10 when
    missing. *)
Definition getUserOrders (userId : string) (page limit : option Z)
  : M UserOrdersResponse :=
  let page := default 1 page in
  let limit := default 10 limit in
  result <- findByUser userId page limit ;;
  ret (mkUserOrdersResponse true (orders result)
         (mkPagination page limit (total result) (ceil_div (total result) limit))).

End OrderController.

(** ** gRPC controller ([src/order/order-grpc.controller.ts]) *)

Record UpdateOrderStatusReply : Type := mkUpdateOrderStatusReply {
  reply_success : bool;
  reply_orderId : string;
  reply_status : OrderStatus;
}.

Module OrderGrpcController.

(** The request carries an id and a status, and no reason; the status is
    taken to be one of the enum. *)
Definition updateOrderStatus (env : Env) (id : string) (status : OrderStatus)
  : M UpdateOrderStatusReply :=
  order <- updateStatus env id (UpdateOrderStatusDto.mk status None) ;;
  ret (mkUpdateOrderStatusReply true (Order.id order) (Order.status order)).

End OrderGrpcController.

(** * Specification-level notions *)

(** ** The transition table of the specification *)

(** The transition table of the specification (section 4.1), one
    constructor per edge. *)
Inductive allowedNext : OrderStatus -> OrderStatus -> Prop :=
| pending_confirmed : allowedNext PENDING CONFIRMED
| pending_cancelled : allowedNext PENDING CANCELLED
| confirmed_processing : allowedNext CONFIRMED PROCESSING
| confirmed_cancelled : allowedNext CONFIRMED CANCELLED
| processing_shipped : allowedNext PROCESSING SHIPPED
| processing_cancelled : allowedNext PROCESSING CANCELLED
| shipped_delivered : allowedNext SHIPPED DELIVERED.

#[global] Instance allowedNext_dec cur new : Decision (allowedNext cur new).
Proof.
  destruct cur, new; first [left; constructor | right; inversion 1].
Defined.

(** ** Views of a state and of a run *)

(** What a [get] on the single-order key of [id] answers. *)
Definition cached_order (st : State) (id : string) : option Order.t :=
  cache_orders st !! order_key id ≫= live (now st).

(** The cache holds no live copy of the order, or a copy equal to the row. *)
Definition cache_agrees (st : State) (id : string) : Prop :=
  cached_order st id = None \/ cached_order st id = store st !! id.

(** A computation fails in [st] without returning. *)
Definition rejects {A} (m : M A) (st : State) : Prop :=
  exists e st', m st = (Err e, st').

(** The calls a computation added to the log. *)
Definition calls_of {A} (m : M A) (st : State) : list Call :=
  drop (length (trace st)) (trace (m st).2).

(** [keeps proj m]: running [m] never changes the component [proj] of the
    state, whether [m] returns or throws. *)
Definition keeps {A X} (proj : State -> X) (m : M A) : Prop :=
  forall st, proj (m st).2 = proj st.

(** ** The messages of the publisher *)

(** The envelopes the publisher builds at instant [t]. *)
Definition created_event (t : Z) (order : NewOrder.t) : Message :=
  Envelope "ORDER_CREATED" t
    (OrderCreatedData (NewOrder.id order) (NewOrder.userId order)
       (NewOrder.totalAmount order) (NewOrder.status order)
       (length (NewOrder.items order))).

Definition status_changed_event (t : Z) (order : Order.t) : Message :=
  Envelope "ORDER_STATUS_CHANGED" t
    (OrderStatusChangedData (Order.id order) (Order.userId order)
       (Order.status order) (Order.totalAmount order)).

Definition cancelled_event (t : Z) (order : Order.t) : Message :=
  Envelope "ORDER_CANCELLED" t
    (OrderCancelledData (Order.id order) (Order.userId order)
       (Order.cancelReason order) (Order.totalAmount order)).

Definition status_notification (order : Order.t) : Message :=
  StatusUpdate (Order.id order) (Order.userId order) (Order.status order).

(** ** [createOrder], step by step *)

(** The entity [createOrder] hands to the repository. *)
Definition draft_of (createOrderDto : CreateOrderDto.t) : OrderDraft.t :=
  OrderDraft.mk (CreateOrderDto.userId createOrderDto)
    (order_total (CreateOrderDto.items createOrderDto)) PENDING
    (CreateOrderDto.shippingAddress createOrderDto)
    (map to_item (CreateOrderDto.items createOrderDto)).

(** The entity the first save makes of it in state [st]. *)
Definition inserted_entity (st : State) (d : OrderDraft.t) : NewOrder.t :=
  NewOrder.mk (fresh (dom (store st))) (OrderDraft.userId d)
    (OrderDraft.totalAmount d) (OrderDraft.status d)
    (OrderDraft.shippingAddress d) (OrderDraft.items d)
    (now st) (now st).

Definition new_order (st : State) (createOrderDto : CreateOrderDto.t) : NewOrder.t :=
  inserted_entity st (draft_of createOrderDto).

(** The state right after the insert went through. *)
Definition after_insert (env : Env) (st : State) (o : NewOrder.t) : State :=
  set_store (<[NewOrder.id o := row_of env o]> (store st))
    (log_calls [RepoSave (NewOrder.id o)] st).

(** What [createOrder] does once the row is saved. *)
Definition after_save (env : Env) (savedOrder : NewOrder.t) : M NewOrder.t :=
  publishOrderCreated env savedOrder ;;
  queue_add env "process-order"
    (mkJob (NewOrder.id savedOrder) (NewOrder.userId savedOrder)) ;;
  invalidateUserOrdersCache env (NewOrder.userId savedOrder) ;;
  ret savedOrder.

(** The keys [store.keys] answers for a prefix, and the calls
    [invalidateUserOrdersCache] makes. *)
Definition matching_keys (env : Env) (st : State) (prefix : string) : list string :=
  filter (fun k => key_matches env prefix k = true)
    (live_keys (now st) (cache_orders st) ++ live_keys (now st) (cache_listings st)).

Definition invalidation_calls (env : Env) (st : State) (userId : string) : list Call :=
  if keys_supported env
  then CacheKeys (listing_prefix userId +:+ "*")
         :: map CacheDel (matching_keys env st (listing_prefix userId))
  else [].

(** Every delete that [invalidateUserOrdersCache] makes in [st] goes
    through. *)
Definition invalidation_passes (env : Env) (st : State) (userId : string) : Prop :=
  forall key,
    CacheDel key ∈ invalidation_calls env st userId -> cache_del_outcome env key = None.

Definition is_invalidation (c : Call) : bool :=
  match c with CacheKeys _ | CacheDel _ => true | _ => false end.

Definition is_publication (c : Call) : bool :=
  match c with KafkaEmit _ _ | RabbitEmit _ _ => true | _ => false end.

Definition is_enqueue (c : Call) : bool :=
  match c with QueueAdd _ _ => true | _ => false end.

(** Every call of the first kind stands before every call of the second. *)
Definition all_before (p q : Call -> bool) (l : list Call) : Prop :=
  forall i j a b,
    l !! i = Some a -> l !! j = Some b -> p a = true -> q b = true -> (i < j)%nat.

(** The number a finite double stands for: [mantissa * 2 ^ exponent]. *)
Record Dyadic : Type := mkDyadic {
  mantissa : Z;
  exponent : Z;
}.

Definition value_of (x : float) : option Dyadic :=
  match Prim2SF x with
  | S754_zero _ => Some (mkDyadic 0 0)
  | S754_finite s m e => Some (mkDyadic (if s then Z.neg m else Z.pos m) e)
  | _ => None
  end.

(** Exact arithmetic on such numbers. *)
Definition dyadic_mul (a b : Dyadic) : Dyadic :=
  mkDyadic (mantissa a * mantissa b) (exponent a + exponent b).

Definition dyadic_add (a b : Dyadic) : Dyadic :=
  let e := Z.min (exponent a) (exponent b) in
  mkDyadic (mantissa a * 2 ^ (exponent a - e) + mantissa b * 2 ^ (exponent b - e)) e.

Definition dyadic_eqb (a b : Dyadic) : bool :=
  let e := Z.min (exponent a) (exponent b) in
  mantissa a * 2 ^ (exponent a - e) =? mantissa b * 2 ^ (exponent b - e).

(** The spec's sum of [unitPrice * quantity] over the items, as a sum of
    numbers: no step of it rounds. It is undefined when a line holds an
    infinity or a NaN. *)
Fixpoint sum_of_lines (items : list OrderItemDto.t) : option Dyadic :=
  match items with
  | [] => Some (mkDyadic 0 0)
  | item :: rest =>
      unitPrice ← value_of (OrderItemDto.unitPrice item) ;
      quantity ← value_of (OrderItemDto.quantity item) ;
      sum ← sum_of_lines rest ;
      Some (dyadic_add (dyadic_mul unitPrice quantity) sum)
  end.

(** A double stands for the number [d]. *)
Definition stands_for (x : float) (d : option Dyadic) : bool :=
  match value_of x, d with
  | Some a, Some b => dyadic_eqb a b
  | _, _ => false
  end.

(** The sum a double accumulator makes of a list of doubles, from [x] on
    and from left to right. *)
Definition float_sum_from (x : float) (l : list float) : float :=
  fold_left (fun sum y => (sum + y)%float) l x.

(** An error that comes from a collaborator, not from a check of the
    service. *)
Definition collaborator_error (e : Exception) : Prop :=
  exists m,
    e = StoreError m \/ e = BrokerError m \/ e = QueueError m \/ e = CacheError m.

(** ** [updateStatus] and the worker, step by step *)

(** [updateStatus] from the clock reading on, for a loaded and validated
    [order]: stamp, save, publish, invalidate. *)
Definition commit_update (env : Env) (id : string)
    (updateDto : UpdateOrderStatusDto.t) (order : Order.t) : M Order.t :=
  t <- clock ;;
  let order := apply_update t updateDto order in
  updatedOrder <- repository_save env order ;;
  publishOrderStatusChanged env updatedOrder ;;
  cache_del env (order_key id) ;;
  invalidateUserOrdersCache env (Order.userId order) ;;
  ret updatedOrder.

(** The row [updateStatus] writes for a loaded [order] at instant [t]. *)
Definition updated_row (t : Z) (updateDto : UpdateOrderStatusDto.t) (order : Order.t)
  : Order.t :=
  Order.set_updatedAt t (apply_update t updateDto order).

(** The state right after [updateStatus] saved [row]. *)
Definition after_update (st : State) (row : Order.t) : State :=
  set_store (<[Order.id row := row]> (store st))
    (log_calls [RepoSave (Order.id row)] st).

(** What [updateStatus] does once the row is saved. *)
Definition after_update_save (env : Env) (id : string) (updatedOrder : Order.t)
  : M Order.t :=
  publishOrderStatusChanged env updatedOrder ;;
  cache_del env (order_key id) ;;
  invalidateUserOrdersCache env (Order.userId updatedOrder) ;;
  ret updatedOrder.

(** The requests the worker sends to [updateStatus]. *)
Definition confirm_dto : UpdateOrderStatusDto.t :=
  UpdateOrderStatusDto.mk CONFIRMED None.

Definition cancel_dto (error : Exception) : UpdateOrderStatusDto.t :=
  UpdateOrderStatusDto.mk CANCELLED (Some (message error)).

(** The errors the [try] block of the worker can end with. *)
Definition pipeline_error (e : Exception) : Prop :=
  (exists m, e = NotFoundException m)
  \/ (exists m, e = JsError m)
  \/ (exists c, e = InvalidTransition c CONFIRMED)
  \/ (exists m, e = StoreError m)
  \/ (exists m, e = BrokerError m)
  \/ (exists m, e = CacheError m).

(** ** The queue registration ([order.module.ts]) *)

Inductive BackoffType : Type := Fixed | Exponential.

Record Backoff : Type := mkBackoff {
  backoff_type : BackoffType;
  backoff_delay : Z;
}.

Record JobOptions : Type := mkJobOptions {
  attempts : nat;
  backoff : Backoff;
  removeOnComplete : bool;
  removeOnFail : bool;
}.

(** [defaultJobOptions] of the [order-processing] queue; the delay is in
    milliseconds. *)
Definition defaultJobOptions : JobOptions :=
  mkJobOptions 3 (mkBackoff Exponential 2000) true false.

(** How one job ended: the last result of the handler, the number of runs,
    and whether the queue still holds the job's record. *)
Record JobRun : Type := mkJobRun {
  last_result : Result JobResult;
  attempts_made : nat;
  record_kept : bool;
}.

(** Modelled from the spec: the retry policy of the job queue, a
    collaborator that is a library and not part of the repository. The
    handler is run again after each failure until it returns or [attempts]
    runs have failed; the record of a completed job is dropped when
    [removeOnComplete] is set, that of a failed job when [removeOnFail] is.
    [envs n] gives the collaborators' answers during run [n]; the waiting
    time between runs is not modelled. *)
Fixpoint run_attempts (opts : JobOptions) (envs : nat -> Env) (remaining made : nat)
    (job : JobData) (st : State) : JobRun * State :=
  match remaining with
  | O => (mkJobRun (Err (JsError "no attempt left")) made (negb (removeOnFail opts)), st)
  | S remaining' =>
      match handleOrderProcessing (envs made) job st with
      | (Ok r, st') => (mkJobRun (Ok r) (S made) (negb (removeOnComplete opts)), st')
      | (Err e, st') =>
          match remaining' with
          | O => (mkJobRun (Err e) (S made) (negb (removeOnFail opts)), st')
          | S _ => run_attempts opts envs remaining' (S made) job st'
          end
      end
  end.

Definition run_job (opts : JobOptions) (envs : nat -> Env) (job : JobData)
    (st : State) : JobRun * State :=
  run_attempts opts envs (attempts opts) O job st.

(** ** Histories of the system *)

(** One request to the service, one run of the worker, or time passing. *)
Inductive Op : Type :=
| OpCreateOrder (createOrderDto : CreateOrderDto.t)
| OpFindOne (id : string)
| OpFindByUser (userId : string) (page limit : Z)
| OpUpdateStatus (id : string) (updateDto : UpdateOrderStatusDto.t)
| OpCancelOrder (id : string) (reason : string)
| OpProcessOrder (job : JobData)
| OpTick (seconds : N).

(** The state an operation leaves behind, whether it returned or threw. *)
Definition run_op (env : Env) (op : Op) (st : State) : State :=
  match op with
  | OpCreateOrder createOrderDto => (createOrder env createOrderDto st).2
  | OpFindOne id => (findOne env id st).2
  | OpFindByUser userId page limit => (findByUser userId page limit st).2
  | OpUpdateStatus id updateDto => (updateStatus env id updateDto st).2
  | OpCancelOrder id reason => (cancelOrder env id reason st).2
  | OpProcessOrder job => (handleOrderProcessing env job st).2
  | OpTick seconds => set_now (now st + Z.of_N seconds) st
  end.

(** The states the system can be in: any operations, in any order, under
    any behaviour of the collaborators. *)
Inductive reachable : State -> Prop :=
| reachable_initial : reachable initial_state
| reachable_step env op st : reachable st -> reachable (run_op env op st).

(** [cancelledAt] and [cancelReason] are set exactly on a cancelled order. *)
Definition cancel_fields_wf (o : Order.t) : Prop :=
  (is_Some (Order.cancelledAt o) <-> Order.status o = CANCELLED)
  /\ (is_Some (Order.cancelReason o) <-> Order.status o = CANCELLED).

(** Every live cached copy of an order equals the stored row of that
    order. *)
Definition coherent (st : State) : Prop :=
  forall key c e,
    cache_orders st !! key = Some (c, e) -> now st < e ->
    store st !! Order.id c = Some c.

(** How the cancellation fields of one order may differ between two
    instants: not at all, or by the order having become cancelled. *)
Definition cancel_fields_step (before after : Order.t) : Prop :=
  (Order.cancelledAt after = Order.cancelledAt before
   /\ Order.cancelReason after = Order.cancelReason before)
  \/ (Order.status before <> CANCELLED /\ Order.status after = CANCELLED).

(** A state all of whose orders, stored or cached and live, satisfy [G];
    rows sit under their own id, and the ids of [D] are in the table. *)
Definition good_state (G : Order.t -> Prop) (D : gset string) (st : State) : Prop :=
  (forall key o, store st !! key = Some o -> Order.id o = key /\ G o)
  /\ (forall key c e, cache_orders st !! key = Some (c, e) -> now st < e -> G c)
  /\ D ⊆ dom (store st).

(** [m] keeps the state good, and what it returns satisfies [Q]. *)
Definition inv_triple {A} (G : Order.t -> Prop) (D : gset string)
    (m : M A) (Q : A -> Prop) : Prop :=
  forall st,
    good_state G D st ->
    good_state G D (m st).2
    /\ now (m st).2 = now st
    /\ forall a, (m st).1 = Ok a -> Q a.

(** An order is tracked against the row [o0] that stood under [k]: it is
    well formed and, if it is the order [k], its cancellation fields are
    those of [o0] or it became cancelled since. *)
Definition tracked (k : string) (o0 : Order.t) (o : Order.t) : Prop :=
  cancel_fields_wf o /\ (Order.id o = k -> cancel_fields_step o0 o).

(** ** Histories in which what follows a save goes through *)


(** What [updateStatus] awaits between its save and the end of its
    invalidation goes through: no emit to RabbitMQ and no delete on the
    cache fails. Kafka may do as it likes. *)
Definition steady (env : Env) : Prop :=
  (forall pattern msg, rabbit_emit_outcome env pattern msg = None)
  /\ (forall key, cache_del_outcome env key = None).

(** [m] leaves table and clock alone and adds no single-order entry to the
    cache. *)
Definition shrinks {A} (m : M A) : Prop :=
  forall st,
    store (m st).2 = store st /\ now (m st).2 = now st
    /\ cache_orders (m st).2 ⊆ cache_orders st.



(** ** What holds of every reachable state *)

(** Rows sit under their own id; a cached copy sits under the key of its
    own id, that id is in the table, and the entry expires at most 300
    seconds from now. *)
Definition sound (st : State) : Prop :=
  (forall key o, store st !! key = Some o -> Order.id o = key)
  /\ (forall key c e,
       cache_orders st !! key = Some (c, e) ->
       key = order_key (Order.id c)
       /\ is_Some (store st !! Order.id c)
       /\ e <= now st + 300).

(** [m] keeps [I], and what it returns satisfies [Q]. *)
Definition hoare {A} (I : State -> Prop) (m : M A) (Q : A -> Prop) : Prop :=
  forall st, I st -> I (m st).2 /\ forall a, (m st).1 = Ok a -> Q a.

(** [m] only appends to the log, and every call it appends satisfies [P]. *)
Definition emits {A} (P : Call -> Prop) (m : M A) : Prop :=
  forall st, exists l, trace (m st).2 = trace st ++ l /\ Forall P l.

(** ** The calls of [updateStatus] *)

(** The calls of the [findOne] that [updateStatus] starts with. *)
Definition load_calls (st : State) (id : string) : list Call :=
  match cached_order st id with
  | Some _ => [CacheGet (order_key id)]
  | None => [CacheGet (order_key id); RepoFindOne id; CacheSet (order_key id) 300]
  end.

(** The RabbitMQ notification of [publishOrderStatusChanged]. *)
Definition notification_calls (order : Order.t) : list Call :=
  if decide (Order.status order = SHIPPED \/ Order.status order = DELIVERED)
  then [RabbitEmit "order_notification" (status_notification order)]
  else [].

(** The topics, patterns and job names the service and the worker use. *)
Definition known_destination (c : Call) : Prop :=
  match c with
  | KafkaEmit topic _ => topic = "order.created" \/ topic = "order.status.changed"
  | RabbitEmit pattern _ => pattern = "order_created" \/ pattern = "order_notification"
  | QueueAdd name _ => name = "process-order"
  | _ => True
  end.

(** The calls of the order service: to the table, the cache, the brokers
    and the queue, not those of the worker's own steps. *)
Definition service_call (c : Call) : Prop :=
  match c with
  | JobProgress _ | InventoryCheck _ | InventoryReserve _ | PaymentInitiate _ => False
  | _ => known_destination c
  end.

(** ** Histories and lifecycles *)

(** A sequence of operations, each under its own behaviour of the
    collaborators. *)
Fixpoint run_ops (steps : list (Env * Op)) (st : State) : State :=
  match steps with
  | [] => st
  | (env, op) :: rest => run_ops rest (run_op env op st)
  end.

(** The order [k] is stored as [o0], and every live cached copy of it is
    [o0]. *)
Definition settled (k : string) (o0 : Order.t) (st : State) : Prop :=
  sound st
  /\ store st !! k = Some o0
  /\ forall c e, cache_orders st !! order_key k = Some (c, e) -> now st < e -> c = o0.

(** A chain of statuses in which each is an entry of the transition table
    for the one before. *)
Fixpoint lifecycle (l : list OrderStatus) : Prop :=
  match l with
  | a :: rest =>
      match rest with
      | b :: _ => b ∈ validTransitions a /\ lifecycle rest
      | [] => True
      end
  | [] => True
  end.

(** The longest chain of transitions that starts from a status. *)
Definition steps_left (s : OrderStatus) : nat :=
  match s with
  | PENDING => 4
  | CONFIRMED => 3
  | PROCESSING => 2
  | SHIPPED => 1
  | DELIVERED | CANCELLED => 0
  end.

(** ** Statistics *)

(** The orders [getOrderStats] ranges over: those of one user, or all of
    them when no user id, or an empty one, is given. *)
Definition stats_scope (userId : option string) (s : gmap string Order.t)
  : list Order.t :=
  match userId with
  | Some (String a u) =>
      filter (fun o => Order.userId o = String a u) (map_to_list s).*2
  | _ => (map_to_list s).*2
  end.

Definition orders_in (s : OrderStatus) (rows : list Order.t) : list Order.t :=
  filter (fun o => Order.status o = s) rows.

(** ** Progress marks of a job *)

Definition progress_marks (l : list Call) : list Z :=
  omap (fun c => match c with JobProgress p => Some p | _ => None end) l.


(** ** Sample environments and runs, used to instantiate the theorems *)

(** The text of a uuid in its usual form: 36 characters, hyphens at
    positions 8, 13, 18 and 23, hexadecimal digits elsewhere. *)
Definition hex_digit (c : Ascii.ascii) : bool :=
  let n := Ascii.nat_of_ascii c in
  ((48 <=? n)%nat && (n <=? 57)%nat)
  || ((97 <=? n)%nat && (n <=? 102)%nat)
  || ((65 <=? n)%nat && (n <=? 70)%nat).

Fixpoint uuid_chars (pos : nat) (s : string) : bool :=
  match s with
  | EmptyString => (pos =? 36)%nat
  | String c rest =>
      (if bool_decide (pos ∈ [8; 13; 18; 23]%nat)
       then bool_decide (c = "-"%char)
       else hex_digit c)
      && uuid_chars (S pos) rest
  end.

Definition uuid_shaped (s : string) : bool := uuid_chars 0 s.

(** The integer nearest to a double (0 for an infinity or a NaN). *)
Definition nearest_integer (x : float) : Z :=
  match Prim2SF x with
  | S754_finite s m e =>
      let n := if decide (0 <= e)
               then Z.pos m * 2 ^ e
               else (Z.pos m + 2 ^ (- e - 1)) / 2 ^ (- e) in
      if s then - n else n
  | _ => 0
  end.

(** A sample environment: each of the table's writes, Kafka, RabbitMQ, the
    job queue and the cache's deletes answers as given; the table rounds an
    amount to the nearest hundredth and refuses an id that has not the form
    of a uuid; the inventory is available or not, as given. The sample user
    ids hold no glob character, so Redis is never asked about one. *)
Definition sample_env (table kafka rabbit queue cache_delete : option string)
    (in_stock : bool) : Env :=
  {| insert_outcome := fun _ => table;
     save_outcome := fun _ => table;
     to_decimal := fun x => nearest_integer (x * 100)%float;
     to_int := nearest_integer;
     id_rejected := fun id =>
       if uuid_shaped id then None
       else Some ("invalid input syntax for type uuid: " +:+ id);
     kafka_emit_outcome := fun _ _ => kafka;
     rabbit_emit_outcome := fun _ _ => rabbit;
     queue_add_outcome := fun _ _ => queue;
     keys_supported := true;
     glob_match := fun _ _ => false;
     cache_del_outcome := fun _ => cache_delete;
     inventory_available := fun _ => in_stock;
     reserve_outcome := fun _ => None;
     payment_outcome := fun _ => None |}.

(** An environment in which no collaborator fails. *)
Definition reliable : Env := sample_env None None None None None true.

(** Environments with one collaborator down. *)
Definition store_down : Env :=
  sample_env (Some "connection refused") None None None None true.

Definition kafka_down : Env :=
  sample_env None (Some "kafka unavailable") None None None true.

Definition rabbit_down : Env :=
  sample_env None None (Some "channel closed") None None true.

Definition queue_down : Env :=
  sample_env None None None (Some "redis unavailable") None true.

Definition cache_down : Env :=
  sample_env None None None None (Some "connection lost") true.

Definition out_of_stock : Env := sample_env None None None None None false.

Definition sample_address : ShippingAddress :=
  mkAddress "123 Main St" "New York" "NY" "10001" "USA".

Definition sample_dto : CreateOrderDto.t :=
  CreateOrderDto.mk "user-123"
    [OrderItemDto.mk "prod-1" "Laptop" 1 999.99;
     OrderItemDto.mk "prod-2" "Mouse" 2 25.5] sample_address.

(** Three units at 0.1 each, and the same three lines in two orders. *)
Definition tenths_dto : CreateOrderDto.t :=
  CreateOrderDto.mk "user-123" [OrderItemDto.mk "prod-3" "Sticker" 3 0.1]
    sample_address.

Definition ascending_dto : CreateOrderDto.t :=
  CreateOrderDto.mk "user-123"
    [OrderItemDto.mk "prod-3" "Sticker" 1 0.1;
     OrderItemDto.mk "prod-4" "Pencil" 1 0.2;
     OrderItemDto.mk "prod-5" "Eraser" 1 0.3] sample_address.

Definition descending_dto : CreateOrderDto.t :=
  CreateOrderDto.mk "user-123"
    [OrderItemDto.mk "prod-5" "Eraser" 1 0.3;
     OrderItemDto.mk "prod-4" "Pencil" 1 0.2;
     OrderItemDto.mk "prod-3" "Sticker" 1 0.1] sample_address.

(** An id of the form of a uuid, and one that has not that form. *)
Definition unknown_id : string := "6f9619ff-8b86-4d01-b42d-00cf4fc964ff".

Definition malformed_id : string := "invalid-id".

(** The entity a first [createOrder] of the sample request builds, and the
    row the table keeps of it. *)
Definition sample_created : NewOrder.t := new_order initial_state sample_dto.

Definition sample_row : Order.t := row_of reliable sample_created.

(** A creation request with no items. *)
Definition empty_dto : CreateOrderDto.t :=
  CreateOrderDto.mk "user-123" [] sample_address.

(** The sample order after a first run of its job found the inventory
    short: the order is cancelled. *)
Definition sample_job : JobData := mkJob "0" "user-123".

(** The state after one order was created with every collaborator up; the
    table generated the id ["0"] for it. *)
Definition st_created : State := (createOrder reliable sample_dto initial_state).2.

(** The sample state after the user listed their orders once, so that one
    listing is cached. *)
Definition st_listed : State := (findByUser "user-123" 1 10 st_created).2.

Definition st_first_attempt : State :=
  (handleOrderProcessing out_of_stock sample_job st_created).2.

(** The sample order taken by hand to [DELIVERED] while its job waits. *)
Definition st_delivered : State :=
  let to s st := (updateStatus reliable "0" (UpdateOrderStatusDto.mk s None) st).2 in
  to DELIVERED (to SHIPPED (to PROCESSING (to CONFIRMED st_created))).

(** The sample order moved on to [PROCESSING]; then shipped while RabbitMQ
    was down, so that [updateStatus] threw after its save and the cache
    kept the copy made before it. *)
Definition st_processing : State :=
  run_op reliable (OpUpdateStatus "0" (UpdateOrderStatusDto.mk PROCESSING None))
    (run_op reliable (OpUpdateStatus "0" (UpdateOrderStatusDto.mk CONFIRMED None))
       st_created).

Definition st_shipped_unannounced : State :=
  run_op rabbit_down (OpUpdateStatus "0" (UpdateOrderStatusDto.mk SHIPPED None))
    st_processing.

(** A failed delete leaves a stale copy behind: the sample order is
    cancelled while the cache refuses deletes, ten seconds pass, and it is
    cancelled again. *)
Definition st_cancel_uncleared : State :=
  run_op cache_down (OpCancelOrder "0" "first") st_created.

Definition st_cancelled_twice : State :=
  run_op reliable (OpCancelOrder "0" "second")
    (run_op reliable (OpTick 10) st_cancel_uncleared).

(** ** Proof tactics *)

Ltac run :=
  unfold bind, ret, throw, try_catch, log, modify, get_state, clock in *;
  unfold log_calls, set_store, set_cache_orders, set_cache_listings, set_now in *;
  simpl in *.

(** Two states built from the same pieces, up to the bracketing of the log. *)
Ltac same_state :=
  unfold log_calls, set_store, set_cache_orders, set_cache_listings, set_now;
  simpl; rewrite <- ?app_assoc; simpl; reflexivity.

(** * Properties *)

Lemma calls_of_log_calls {A} (m : M A) st l :
  trace (m st).2 = trace st ++ l -> calls_of m st = l.
Proof. unfold calls_of. intros ->. by rewrite drop_app_length. Qed.

(** ** The transition table *)

Lemma validTransitions_allowedNext cur new :
  new ∈ validTransitions cur <-> allowedNext cur new.
Proof.
  split.
  - destruct cur; simpl; intros H; set_unfold; intuition subst; constructor.
  - destruct 1; simpl; set_solver.
Qed.

Lemma no_self_transition s : ~ allowedNext s s.
Proof. inversion 1. Qed.

Lemma terminal_statuses s new :
  s = DELIVERED \/ s = CANCELLED -> ~ allowedNext s new.
Proof. intros [-> | ->]; inversion 1. Qed.

(** ** [findOne] *)

Lemma findOne_hit {env} id st o :
  cached_order st id = Some o ->
  findOne env id st = (Ok o, log_calls [CacheGet (order_key id)] st).
Proof.
  unfold cached_order, findOne, cache_get_order. intros H. run. rewrite H. same_state.
Qed.

Lemma findOne_miss_absent {env} id st :
  cached_order st id = None -> store st !! id = None ->
  id_rejected env id = None ->
  findOne env id st
  = (Err (NotFound id), log_calls [CacheGet (order_key id); RepoFindOne id] st).
Proof.
  unfold cached_order, findOne, cache_get_order, repository_findOne.
  intros H1 H2 H3. run. rewrite H1. cbn. rewrite H2, H3. same_state.
Qed.

Lemma findOne_miss_rejected {env} id st m :
  cached_order st id = None -> store st !! id = None ->
  id_rejected env id = Some m ->
  findOne env id st
  = (Err (StoreError m), log_calls [CacheGet (order_key id); RepoFindOne id] st).
Proof.
  unfold cached_order, findOne, cache_get_order, repository_findOne.
  intros H1 H2 H3. run. rewrite H1. cbn. rewrite H2, H3. same_state.
Qed.

(** On a miss for an id that no row has, [findOne] fails, and leaves the
    state as it was but for the log. *)
Lemma findOne_miss_fails {env} id st :
  cached_order st id = None -> store st !! id = None ->
  exists e,
    findOne env id st
    = (Err e, log_calls [CacheGet (order_key id); RepoFindOne id] st)
    /\ (e = NotFound id \/ exists m, e = StoreError m).
Proof.
  intros H1 H2. destruct (id_rejected env id) as [m|] eqn:H3.
  - exists (StoreError m). split; [by apply findOne_miss_rejected|eauto].
  - exists (NotFound id). split; [by apply findOne_miss_absent|eauto].
Qed.

Lemma findOne_miss_found {env} id st o :
  cached_order st id = None -> store st !! id = Some o ->
  findOne env id st
  = (Ok o,
     set_cache_orders (<[order_key id := (o, now st + 300)]> (cache_orders st))
       (log_calls [CacheGet (order_key id); RepoFindOne id; CacheSet (order_key id) 300] st)).
Proof.
  unfold cached_order, findOne, cache_get_order, repository_findOne, cache_set_order.
  intros H1 H2. run. rewrite H1. cbn. rewrite H2. same_state.
Qed.

(** No single-order key matches the pattern of a user's listings, so the
    two key families of the cache never overlap. *)
Lemma order_key_not_listing_key id userId :
  String.prefix (listing_prefix userId) (order_key id) = false.
Proof. reflexivity. Qed.

Lemma findOne_store {env} id st : store (findOne env id st).2 = store st.
Proof.
  destruct (cached_order st id) as [o|] eqn:Hc.
  - by rewrite (findOne_hit _ _ _ Hc).
  - destruct (store st !! id) as [o|] eqn:Hs.
    + by rewrite (findOne_miss_found _ _ _ Hc Hs).
    + by destruct (findOne_miss_fails (env:=env) _ _ Hc Hs) as (e & -> & _).
Qed.

(** With no live copy, or a copy equal to the row, [findOne] answers the
    stored order. *)
Lemma findOne_stored {env} id st o :
  store st !! id = Some o -> cache_agrees st id ->
  exists st1, findOne env id st = (Ok o, st1).
Proof.
  intros Hs [Hc | Hc].
  - rewrite (findOne_miss_found _ _ _ Hc Hs). eauto.
  - rewrite Hs in Hc. rewrite (findOne_hit _ _ _ Hc). eauto.
Qed.

(** ** Frame lemmas: what a computation leaves alone *)

Create HintDb keeps discriminated.

Lemma keeps_ret {A X} (proj : State -> X) (a : A) : keeps proj (ret a).
Proof. by intros st. Qed.

Lemma keeps_throw {A X} (proj : State -> X) e : keeps proj (@throw A e).
Proof. by intros st. Qed.

Lemma keeps_bind {A B X} (proj : State -> X) (m : M A) (k : A -> M B) :
  keeps proj m -> (forall a, keeps proj (k a)) -> keeps proj (bind m k).
Proof.
  intros Hm Hk st. unfold bind. specialize (Hm st).
  destruct (m st) as [[a|e] st1]; simpl in *; [|done].
  by rewrite (Hk a st1).
Qed.

Lemma keeps_try_catch {A X} (proj : State -> X) (m : M A) h :
  keeps proj m -> (forall e, keeps proj (h e)) -> keeps proj (try_catch m h).
Proof.
  intros Hm Hh st. unfold try_catch. specialize (Hm st).
  destruct (m st) as [[a|e] st1]; simpl in *; [done|].
  by rewrite (Hh e st1).
Qed.

Lemma keeps_promise_all {A X} (proj : State -> X) (f : A -> M unit) l :
  (forall a, keeps proj (f a)) -> keeps proj (promise_all f l).
Proof.
  intros Hf. induction l as [|a l IH]; simpl.
  - apply keeps_ret.
  - intros st. pose proof (Hf a st) as Ha.
    destruct (f a st) as [[[]|e] st1]; simpl in *; by rewrite IH.
Qed.

Lemma keeps_get_state {X} (proj : State -> X) : keeps proj get_state.
Proof. by intros st. Qed.

Lemma keeps_clock {X} (proj : State -> X) : keeps proj clock.
Proof. by intros st. Qed.

Lemma keeps_store_log c : keeps store (log c).
Proof. by intros st. Qed.

#[global] Hint Resolve keeps_ret keeps_throw keeps_get_state keeps_clock
  keeps_store_log : keeps.
#[global] Hint Extern 2 (keeps _ (bind _ _)) =>
  apply keeps_bind; [|intros ?] : keeps.
#[global] Hint Extern 2 (keeps _ (try_catch _ _)) =>
  apply keeps_try_catch; [|intros ?] : keeps.
#[global] Hint Extern 2 (keeps _ (promise_all _ _)) =>
  apply keeps_promise_all; intros ? : keeps.
#[global] Hint Extern 3 (keeps _ (match ?x with _ => _ end)) =>
  destruct x : keeps.
#[global] Hint Extern 1 (keeps _ (modify _)) => (by intros ?) : keeps.

Lemma keeps_store_cache_get_order k : keeps store (cache_get_order k).
Proof. unfold cache_get_order. auto with keeps. Qed.

Lemma keeps_store_cache_set_order k o ttl : keeps store (cache_set_order k o ttl).
Proof. unfold cache_set_order. auto with keeps. Qed.

Lemma keeps_store_cache_del env k : keeps store (cache_del env k).
Proof. unfold cache_del. auto with keeps. Qed.

Lemma keeps_store_cache_keys env p : keeps store (cache_keys env p).
Proof. unfold cache_keys. auto with keeps. Qed.

#[global] Hint Resolve keeps_store_cache_get_order keeps_store_cache_set_order
  keeps_store_cache_del keeps_store_cache_keys : keeps.

Lemma keeps_store_kafka_emit t m : keeps store (kafka_emit t m).
Proof. unfold kafka_emit. auto with keeps. Qed.

Lemma keeps_store_rabbit_emit env t m : keeps store (rabbit_emit env t m).
Proof. unfold rabbit_emit. auto with keeps. Qed.

Lemma keeps_store_queue_add env n d : keeps store (queue_add env n d).
Proof. unfold queue_add. auto with keeps. Qed.

#[global] Hint Resolve keeps_store_kafka_emit keeps_store_rabbit_emit
  keeps_store_queue_add : keeps.

Lemma keeps_store_publishOrderCreated env o : keeps store (publishOrderCreated env o).
Proof. unfold publishOrderCreated. auto 10 with keeps. Qed.

Lemma keeps_store_publishOrderStatusChanged env o :
  keeps store (publishOrderStatusChanged env o).
Proof. unfold publishOrderStatusChanged. auto 10 with keeps. Qed.

Lemma keeps_store_invalidateUserOrdersCache env u :
  keeps store (invalidateUserOrdersCache env u).
Proof. unfold invalidateUserOrdersCache. auto 10 with keeps. Qed.

#[global] Hint Resolve keeps_store_publishOrderCreated
  keeps_store_publishOrderStatusChanged
  keeps_store_invalidateUserOrdersCache : keeps.

(** ** [updateStatus] *)

Lemma updateStatus_after_findOne env id updateDto st current st1 :
  findOne env id st = (Ok current, st1) ->
  updateStatus env id updateDto st
  = (validateStatusTransition (Order.status current)
       (UpdateOrderStatusDto.status updateDto) ;;
     commit_update env id updateDto current) st1.
Proof. intros H. unfold updateStatus, bind at 1. by rewrite H. Qed.

Lemma updateStatus_findOne_fails env id updateDto st e st1 :
  findOne env id st = (Err e, st1) ->
  updateStatus env id updateDto st = (Err e, st1).
Proof. intros H. unfold updateStatus, bind at 1. by rewrite H. Qed.

Lemma updateStatus_invalid env id updateDto st current st1 :
  findOne env id st = (Ok current, st1) ->
  ~ allowedNext (Order.status current) (UpdateOrderStatusDto.status updateDto) ->
  updateStatus env id updateDto st
  = (Err (InvalidTransition (Order.status current)
            (UpdateOrderStatusDto.status updateDto)), st1).
Proof.
  intros H Hn. rewrite (updateStatus_after_findOne _ _ _ _ _ _ H).
  unfold validateStatusTransition, bind.
  destruct (decide _) as [Hin|Hin]; [|done].
  by apply validTransitions_allowedNext in Hin.
Qed.

Lemma updateStatus_valid env id updateDto st current st1 :
  findOne env id st = (Ok current, st1) ->
  allowedNext (Order.status current) (UpdateOrderStatusDto.status updateDto) ->
  updateStatus env id updateDto st = commit_update env id updateDto current st1.
Proof.
  intros H Hn. rewrite (updateStatus_after_findOne _ _ _ _ _ _ H).
  unfold validateStatusTransition, bind.
  destruct (decide _) as [Hin|Hin]; [done|].
  by apply validTransitions_allowedNext in Hn.
Qed.

(** The shipped sample order, whose cached copy still says [PROCESSING],
    is cancelled by [updateStatus] although [SHIPPED] has no edge to
    [CANCELLED]. *)
Lemma updateStatus_trusts_stale_copy :
  reachable st_shipped_unannounced
  /\ (exists o,
      store st_shipped_unannounced !! "0" = Some o /\ Order.status o = SHIPPED)
  /\ ~ allowedNext SHIPPED CANCELLED
  /\ exists updated st',
      updateStatus reliable "0" (UpdateOrderStatusDto.mk CANCELLED (Some "too late"))
        st_shipped_unannounced
      = (Ok updated, st')
      /\ Order.status updated = CANCELLED
      /\ store st' !! "0" = Some updated.
Proof.
  split; [|split; [|split]].
  - do 3 apply reachable_step.
    apply (reachable_step reliable (OpCreateOrder sample_dto)), reachable_initial.
  - eexists. split; [by vm_compute|]. done.
  - inversion 1.
  - destruct (updateStatus reliable "0"
                (UpdateOrderStatusDto.mk CANCELLED (Some "too late"))
                st_shipped_unannounced) as [[updated|e] st'] eqn:H;
      [|by vm_compute in H].
    exists updated, st'. split; [done|].
    vm_compute in H. injection H as <- <-. split; [done|]. by vm_compute.
Qed.

(** C1, amended. [updateStatus] checks the request against the order it
    loads through [findOne]: the stored row, provided the cache holds no live
    copy of the order or a copy equal to the row. For that order and any
    requested status, the update succeeds only along an edge of the
    transition table, so never to the same status; a request off the table
    fails with [InvalidTransition] and leaves the orders table as it was. *)
Theorem updateStatus_guards_transitions env st id updateDto current st1 :
  findOne env id st = (Ok current, st1) ->
  (forall stored,
      store st !! id = Some stored -> cache_agrees st id -> current = stored)
  /\ (forall updated st',
      updateStatus env id updateDto st = (Ok updated, st') ->
      allowedNext (Order.status current) (UpdateOrderStatusDto.status updateDto)
      /\ UpdateOrderStatusDto.status updateDto <> Order.status current)
  /\ (~ allowedNext (Order.status current) (UpdateOrderStatusDto.status updateDto) ->
      exists st',
        updateStatus env id updateDto st
        = (Err (InvalidTransition (Order.status current)
                  (UpdateOrderStatusDto.status updateDto)), st')
        /\ store st' = store st).
Proof.
  intros Hload. split; [|split].
  - intros stored Hs Hagree.
    destruct (findOne_stored (env:=env) _ _ _ Hs Hagree) as [st2 Hload'].
    rewrite Hload in Hload'. by injection Hload' as ->.
  - intros updated st' Hok.
    assert (Hedge : allowedNext (Order.status current)
                      (UpdateOrderStatusDto.status updateDto)).
    { destruct (decide (allowedNext (Order.status current)
                          (UpdateOrderStatusDto.status updateDto))) as [|Hoff];
        [done|].
      by rewrite (updateStatus_invalid env _ _ _ _ _ Hload Hoff) in Hok. }
    split; [done|].
    intros Heq. rewrite Heq in Hedge. by apply no_self_transition in Hedge.
  - intros Hoff. exists st1. split.
    + by apply updateStatus_invalid.
    + pose proof (findOne_store (env:=env) id st) as Hs. by rewrite Hload in Hs.
Qed.

Lemma updateStatus_guards_transitions_witness :
  exists st',
    updateStatus reliable "0" (UpdateOrderStatusDto.mk DELIVERED None) st_created
    = (Err (InvalidTransition PENDING DELIVERED), st')
    /\ store st' = store st_created.
Proof.
  destruct (findOne reliable "0" st_created) as [[current|e] st1] eqn:Hload;
    [|by vm_compute in Hload].
  assert (Hst : Order.status current = PENDING).
  { vm_compute in Hload. by injection Hload as <- _. }
  destruct (updateStatus_guards_transitions reliable st_created "0"
              (UpdateOrderStatusDto.mk DELIVERED None) current st1 Hload)
    as (_ & _ & Hoff).
  rewrite Hst in Hoff. apply Hoff. inversion 1.
Defined.

(** ** [findOne] as a cache-aside read *)


(** C8, at the failing input. No copy of ["invalid-id"] is cached and no
    row has that id, yet [findOne] does not fail with [NotFound]: the query
    on the uuid column is refused, and the error of the table is what the
    caller gets. The tests of the repository ask for [NotFound] (a 404) at
    this very id. *)
Lemma findOne_malformed_id_is_refused :
  reachable st_created
  /\ cached_order st_created malformed_id = None
  /\ store st_created !! malformed_id = None
  /\ exists m st',
      findOne reliable malformed_id st_created = (Err (StoreError m), st')
      /\ StoreError m <> NotFound malformed_id.
Proof.
  split; [|split; [|split]].
  - apply (reachable_step reliable (OpCreateOrder sample_dto)), reachable_initial.
  - by vm_compute.
  - by vm_compute.
  - destruct (id_rejected reliable malformed_id) as [m|] eqn:Hm;
      [|by vm_compute in Hm].
    exists m. eexists. split; [|done].
    by apply findOne_miss_rejected; [vm_compute|vm_compute|].
Qed.



(** ** Sequencing *)

Lemma bind_ok_inv {A B} (m : M A) (k : A -> M B) st b st' :
  bind m k st = (Ok b, st') ->
  exists a st1, m st = (Ok a, st1) /\ k a st1 = (Ok b, st').
Proof.
  unfold bind. destruct (m st) as [[a|e] st1]; [eauto|done].
Qed.

Lemma bind_err_inv {A B} (m : M A) (k : A -> M B) st e st' :
  bind m k st = (Err e, st') ->
  m st = (Err e, st') \/ exists a st1, m st = (Ok a, st1) /\ k a st1 = (Err e, st').
Proof.
  unfold bind. destruct (m st) as [[a|e1] st1]; [eauto|].
  intros [= -> ->]. by left.
Qed.

Lemma bind_ok {A B} (m : M A) (k : A -> M B) st a st1 :
  m st = (Ok a, st1) -> bind m k st = k a st1.
Proof. unfold bind. by intros ->. Qed.

(** ** The event publisher *)

Lemma publishOrderCreated_run env order st :
  publishOrderCreated env order st =
  match rabbit_emit_outcome env "order_created" (created_event (now st) order) with
  | Some m =>
      (Err (BrokerError m),
       log_calls [KafkaEmit "order.created" (created_event (now st) order);
                  RabbitEmit "order_created" (created_event (now st) order)] st)
  | None =>
      (Ok tt,
       log_calls [KafkaEmit "order.created" (created_event (now st) order);
                  RabbitEmit "order_created" (created_event (now st) order)] st)
  end.
Proof.
  unfold publishOrderCreated, kafka_emit, rabbit_emit, created_event. run.
  destruct (rabbit_emit_outcome _ _ _); cbn; same_state.
Qed.

Lemma publishOrderStatusChanged_run env order st :
  publishOrderStatusChanged env order st =
  if decide (Order.status order = SHIPPED \/ Order.status order = DELIVERED)
  then
    match rabbit_emit_outcome env "order_notification"
            (status_notification order) with
    | Some m =>
        (Err (BrokerError m),
         log_calls [KafkaEmit "order.status.changed"
                      (status_changed_event (now st) order);
                    RabbitEmit "order_notification"
                      (status_notification order)] st)
    | None =>
        (Ok tt,
         log_calls [KafkaEmit "order.status.changed"
                      (status_changed_event (now st) order);
                    RabbitEmit "order_notification"
                      (status_notification order)] st)
    end
  else
    (Ok tt,
     log_calls [KafkaEmit "order.status.changed"
                  (status_changed_event (now st) order)] st).
Proof.
  unfold publishOrderStatusChanged, kafka_emit, rabbit_emit,
    status_changed_event, status_notification. run.
  destruct (decide _); cbn; [|same_state].
  destruct (rabbit_emit_outcome _ _ _); cbn; same_state.
Qed.

Lemma publishOrderCancelled_run env order st :
  publishOrderCancelled env order st =
  (Ok tt,
   log_calls [KafkaEmit "order.cancelled" (cancelled_event (now st) order);
              RabbitEmit "order_cancelled" (cancelled_event (now st) order)] st).
Proof.
  unfold publishOrderCancelled, kafka_emit, rabbit_emit, cancelled_event. run.
  destruct (rabbit_emit_outcome _ _ _); cbn; same_state.
Qed.

(** Kafka refuses every event, and [publishOrderCreated] and
    [publishOrderStatusChanged] return normally all the same: the failure
    of their Kafka emit is not propagated to the caller. *)
Lemma kafka_failure_is_not_propagated :
  kafka_emit_outcome kafka_down "order.created" (created_event 0 sample_created)
  = Some "kafka unavailable"
  /\ kafka_emit_outcome kafka_down "order.status.changed"
       (status_changed_event 0 sample_row)
     = Some "kafka unavailable"
  /\ (exists st',
       publishOrderCreated kafka_down sample_created initial_state = (Ok tt, st')
       /\ KafkaEmit "order.created" (created_event 0 sample_created) ∈ trace st')
  /\ (exists st',
       publishOrderStatusChanged kafka_down sample_row initial_state = (Ok tt, st')
       /\ KafkaEmit "order.status.changed" (status_changed_event 0 sample_row)
          ∈ trace st').
Proof.
  split; [done|]. split; [done|]. split.
  - eexists. split; [by rewrite publishOrderCreated_run|].
    simpl. rewrite !elem_of_cons. auto.
  - eexists. split; [by rewrite publishOrderStatusChanged_run|].
    simpl. rewrite !elem_of_cons. auto.
Qed.

(** C6, amended. [publishOrderCancelled] returns normally whatever the
    brokers do. Of the emits of [publishOrderCreated] and
    [publishOrderStatusChanged] only the awaited one, to RabbitMQ, can make
    them throw: [publishOrderCreated] throws the failure of its RabbitMQ
    emit and returns normally otherwise; [publishOrderStatusChanged] makes
    that emit only for a shipped or delivered order, throws its failure and
    returns normally otherwise. Nothing depends on what becomes of the Kafka
    emit, which none of the three awaits. *)
Theorem publish_failure_asymmetry env created order st :
  (exists st', publishOrderCancelled env order st = (Ok tt, st'))
  /\ (forall m,
      rabbit_emit_outcome env "order_created" (created_event (now st) created) = Some m ->
      exists st', publishOrderCreated env created st = (Err (BrokerError m), st'))
  /\ (rabbit_emit_outcome env "order_created" (created_event (now st) created) = None ->
      exists st', publishOrderCreated env created st = (Ok tt, st'))
  /\ (forall m,
      Order.status order = SHIPPED \/ Order.status order = DELIVERED ->
      rabbit_emit_outcome env "order_notification" (status_notification order) = Some m ->
      exists st', publishOrderStatusChanged env order st = (Err (BrokerError m), st'))
  /\ (~ (Order.status order = SHIPPED \/ Order.status order = DELIVERED)
      \/ rabbit_emit_outcome env "order_notification" (status_notification order) = None ->
      exists st', publishOrderStatusChanged env order st = (Ok tt, st')).
Proof.
  split; [|split; [|split; [|split]]].
  - rewrite publishOrderCancelled_run. eauto.
  - intros m Hr. rewrite publishOrderCreated_run, Hr. eauto.
  - intros Hr. rewrite publishOrderCreated_run, Hr. eauto.
  - intros m Hs Hr. rewrite publishOrderStatusChanged_run.
    rewrite decide_True by done. rewrite Hr. eauto.
  - intros H. rewrite publishOrderStatusChanged_run.
    destruct (decide _) as [Hs|Hs]; [|eauto].
    destruct H as [H|H]; [done|]. rewrite H. eauto.
Qed.

Lemma publish_failure_asymmetry_witness :
  (exists st',
      publishOrderCancelled rabbit_down sample_row initial_state = (Ok tt, st'))
  /\ (exists st',
      publishOrderCreated rabbit_down sample_created initial_state
      = (Err (BrokerError "channel closed"), st'))
  /\ (exists st',
      publishOrderCreated kafka_down sample_created initial_state = (Ok tt, st')).
Proof.
  destruct (publish_failure_asymmetry rabbit_down sample_created sample_row
              initial_state)
    as (Hcancelled & Hrabbit & _).
  destruct (publish_failure_asymmetry kafka_down sample_created sample_row
              initial_state)
    as (_ & _ & Hkafka & _).
  split; [exact Hcancelled|]. split; [by apply Hrabbit|by apply Hkafka].
Defined.

(** ** [createOrder] *)

Lemma repository_insert_run env d st :
  repository_insert env d st =
  match insert_outcome env (inserted_entity st d) with
  | Some m =>
      (Err (StoreError m), log_calls [RepoSave (NewOrder.id (inserted_entity st d))] st)
  | None => (Ok (inserted_entity st d), after_insert env st (inserted_entity st d))
  end.
Proof.
  unfold repository_insert, after_insert, inserted_entity. run.
  destruct (insert_outcome _ _); cbn; same_state.
Qed.

Lemma createOrder_unfold env createOrderDto :
  createOrder env createOrderDto =
  (savedOrder <- repository_insert env (draft_of createOrderDto) ;;
   after_save env savedOrder).
Proof. reflexivity. Qed.

Lemma createOrder_save_fails env createOrderDto st m :
  insert_outcome env (new_order st createOrderDto) = Some m ->
  createOrder env createOrderDto st
  = (Err (StoreError m),
     log_calls [RepoSave (NewOrder.id (new_order st createOrderDto))] st).
Proof.
  intros H. rewrite createOrder_unfold. unfold bind.
  rewrite repository_insert_run. fold (new_order st createOrderDto). by rewrite H.
Qed.

Lemma createOrder_saved env createOrderDto st :
  insert_outcome env (new_order st createOrderDto) = None ->
  createOrder env createOrderDto st
  = after_save env (new_order st createOrderDto)
      (after_insert env st (new_order st createOrderDto)).
Proof.
  intros H. rewrite createOrder_unfold. unfold bind.
  rewrite repository_insert_run. fold (new_order st createOrderDto). by rewrite H.
Qed.

Lemma queue_add_run env name data st :
  queue_add env name data st =
  match queue_add_outcome env name data with
  | Some m => (Err (QueueError m), log_calls [QueueAdd name data] st)
  | None => (Ok tt, log_calls [QueueAdd name data] st)
  end.
Proof. unfold queue_add. run. by destruct (queue_add_outcome _ _ _). Qed.

Lemma cache_del_run env key st :
  cache_del env key st =
  match cache_del_outcome env key with
  | Some m => (Err (CacheError m), log_calls [CacheDel key] st)
  | None =>
      (Ok tt,
       set_cache_listings (delete key (cache_listings st))
         (set_cache_orders (delete key (cache_orders st))
            (log_calls [CacheDel key] st)))
  end.
Proof. unfold cache_del. run. by destruct (cache_del_outcome _ _). Qed.

(** Every delete is attempted and logged, one [CacheDel] per key, whether
    or not one of them rejects; the only error is that of the cache. *)
Lemma promise_all_cache_del_run env keys st :
  exists r st',
    promise_all (cache_del env) keys st = (r, st')
    /\ trace st' = trace st ++ map CacheDel keys
    /\ store st' = store st /\ now st' = now st
    /\ (r = Ok tt \/ exists m, r = Err (CacheError m))
    /\ ((forall k, k ∈ keys -> cache_del_outcome env k = None) -> r = Ok tt).
Proof.
  revert st. induction keys as [|k keys IH]; intros st; simpl.
  - exists (Ok tt), st. rewrite app_nil_r. unfold ret. auto 10.
  - rewrite cache_del_run. destruct (cache_del_outcome env k) as [m|] eqn:Hk.
    + match goal with |- context [promise_all (cache_del env) keys ?s] =>
        destruct (IH s) as (r & st' & Hrun & Ht & Hs & Hn & _) end.
      exists (Err (CacheError m)), st'. rewrite Hrun. simpl in *.
      rewrite Ht, <- app_assoc.
      split; [done|]. split; [done|]. split; [done|]. split; [done|].
      split; [eauto|]. intros Hall. rewrite Hall in Hk; [done|].
      rewrite elem_of_cons. auto.
    + match goal with |- context [promise_all (cache_del env) keys ?s] =>
        destruct (IH s) as (r & st' & Hrun & Ht & Hs & Hn & Hr & Hall) end.
      exists r, st'. simpl in *. rewrite Ht, <- app_assoc.
      split; [done|]. split; [done|]. split; [done|]. split; [done|].
      split; [done|]. intros Hok. apply Hall. intros k' Hk'. apply Hok.
      rewrite elem_of_cons. auto.
Qed.

Lemma invalidateUserOrdersCache_run env userId st :
  exists r st',
    invalidateUserOrdersCache env userId st = (r, st')
    /\ trace st' = trace st ++ invalidation_calls env st userId
    /\ store st' = store st /\ now st' = now st
    /\ (r = Ok tt \/ exists m, r = Err (CacheError m))
    /\ (invalidation_passes env st userId -> r = Ok tt).
Proof.
  unfold invalidateUserOrdersCache, invalidation_passes, invalidation_calls.
  destruct (keys_supported env).
  - unfold cache_keys. run.
    fold (matching_keys env st (listing_prefix userId)).
    destruct (matching_keys env st (listing_prefix userId)) as [|k keys] eqn:Hk.
    + exists (Ok tt). eexists. split; [done|]. simpl. auto 10.
    + match goal with |- context [promise_all (cache_del env) ?l ?s] =>
        destruct (promise_all_cache_del_run env l s)
          as (r & st' & -> & Ht & Hs & Hn & Hr & Hall) end.
      exists r, st'. simpl in *. rewrite Ht, <- app_assoc.
      split; [done|]. split; [done|]. split; [done|]. split; [done|].
      split; [done|]. intros Hok. apply Hall. intros k' Hk'. apply Hok.
      right. change (CacheDel k' ∈ map CacheDel (k :: keys)).
      apply list_elem_of_fmap. eauto.
  - run. exists (Ok tt), st. rewrite app_nil_r. auto 10.
Qed.

(** After the insert nothing touches the orders table any more. *)
Lemma after_save_store env o st : store (after_save env o st).2 = store st.
Proof.
  assert (H : keeps store (after_save env o)).
  { unfold after_save. auto 10 with keeps. }
  apply H.
Qed.

Lemma after_save_ok env o st r st' :
  after_save env o st = (Ok r, st') ->
  r = o
  /\ trace st'
     = trace st
       ++ [KafkaEmit "order.created" (created_event (now st) o);
           RabbitEmit "order_created" (created_event (now st) o);
           QueueAdd "process-order" (mkJob (NewOrder.id o) (NewOrder.userId o))]
       ++ invalidation_calls env st (NewOrder.userId o).
Proof.
  unfold after_save. intros H.
  apply bind_ok_inv in H as ([] & s1 & Hp & H).
  apply bind_ok_inv in H as ([] & s2 & Hq & H).
  apply bind_ok_inv in H as ([] & s3 & Hi & H).
  injection H as <- <-.
  rewrite publishOrderCreated_run in Hp.
  destruct (rabbit_emit_outcome _ _ _); [done|]. injection Hp as <-.
  rewrite queue_add_run in Hq.
  destruct (queue_add_outcome _ _ _); [done|]. injection Hq as <-.
  destruct (invalidateUserOrdersCache_run env (NewOrder.userId o)
              (log_calls [QueueAdd "process-order"
                            (mkJob (NewOrder.id o) (NewOrder.userId o))]
                 (log_calls [KafkaEmit "order.created" (created_event (now st) o);
                             RabbitEmit "order_created" (created_event (now st) o)] st)))
    as (r & st' & Hi' & Ht & _).
  rewrite Hi in Hi'. injection Hi' as _ <-.
  split; [done|]. rewrite Ht. simpl. by rewrite <- !app_assoc.
Qed.

Lemma after_save_err env o st e st' :
  after_save env o st = (Err e, st') ->
  exists m, e = BrokerError m \/ e = QueueError m \/ e = CacheError m.
Proof.
  unfold after_save. intros H.
  apply bind_err_inv in H as [H | ([] & s1 & _ & H)].
  { rewrite publishOrderCreated_run in H.
    destruct (rabbit_emit_outcome _ _ _); [injection H as <- _; eauto|done]. }
  apply bind_err_inv in H as [H | ([] & s2 & _ & H)].
  { rewrite queue_add_run in H.
    destruct (queue_add_outcome _ _ _); [injection H as <- _; eauto|done]. }
  apply bind_err_inv in H as [H | ([] & s3 & _ & H)]; [|done].
  destruct (invalidateUserOrdersCache_run env (NewOrder.userId o) s2)
    as (r & s & Hi & _ & _ & _ & [-> | [m ->]] & _); rewrite Hi in H; [done|].
  injection H as <- _. eauto.
Qed.

Lemma after_save_reliable env o st :
  rabbit_emit_outcome env "order_created" (created_event (now st) o) = None ->
  queue_add_outcome env "process-order" (mkJob (NewOrder.id o) (NewOrder.userId o)) = None ->
  invalidation_passes env st (NewOrder.userId o) ->
  exists st', after_save env o st = (Ok o, st').
Proof.
  intros Hr Hq Hd. unfold after_save.
  erewrite bind_ok; [|by rewrite publishOrderCreated_run, Hr].
  erewrite bind_ok; [|by rewrite queue_add_run, Hq].
  match goal with |- context [bind (invalidateUserOrdersCache env ?u) _ ?s] =>
    destruct (invalidateUserOrdersCache_run env u s)
      as (r & st' & Hi & _ & _ & _ & _ & Hok) end.
  rewrite (Hok Hd) in Hi. erewrite bind_ok; [|exact Hi]. by exists st'.
Qed.

Lemma invalidation_passes_after_insert env st o userId :
  invalidation_passes env st userId ->
  invalidation_passes env (after_insert env st o) userId.
Proof. done. Qed.

Lemma createOrder_succeeds env createOrderDto st :
  insert_outcome env (new_order st createOrderDto) = None ->
  rabbit_emit_outcome env "order_created"
    (created_event (now st) (new_order st createOrderDto)) = None ->
  queue_add_outcome env "process-order"
    (mkJob (NewOrder.id (new_order st createOrderDto))
       (NewOrder.userId (new_order st createOrderDto))) = None ->
  invalidation_passes env st (CreateOrderDto.userId createOrderDto) ->
  exists st', createOrder env createOrderDto st = (Ok (new_order st createOrderDto), st').
Proof.
  intros Hs Hr Hq Hd. rewrite (createOrder_saved _ _ _ Hs).
  by apply after_save_reliable.
Qed.

Lemma createOrder_ok env createOrderDto st o st' :
  createOrder env createOrderDto st = (Ok o, st') ->
  o = new_order st createOrderDto
  /\ insert_outcome env o = None
  /\ store st' = <[NewOrder.id o := row_of env o]> (store st)
  /\ trace st'
     = trace st
       ++ [RepoSave (NewOrder.id o);
           KafkaEmit "order.created" (created_event (now st) o);
           RabbitEmit "order_created" (created_event (now st) o);
           QueueAdd "process-order" (mkJob (NewOrder.id o) (NewOrder.userId o))]
       ++ invalidation_calls env st (NewOrder.userId o).
Proof.
  intros H.
  destruct (insert_outcome env (new_order st createOrderDto)) as [m|] eqn:Hs.
  { by rewrite (createOrder_save_fails _ _ _ _ Hs) in H. }
  rewrite (createOrder_saved _ _ _ Hs) in H.
  pose proof (after_save_store env (new_order st createOrderDto)
                (after_insert env st (new_order st createOrderDto))) as Hst.
  rewrite H in Hst. simpl in Hst.
  apply after_save_ok in H as [-> Ht].
  split; [done|]. split; [done|]. split; [done|].
  rewrite Ht. simpl. by rewrite <- !app_assoc.
Qed.

Lemma createOrder_err env createOrderDto st e st' :
  createOrder env createOrderDto st = (Err e, st') -> collaborator_error e.
Proof.
  intros H.
  destruct (insert_outcome env (new_order st createOrderDto)) as [m|] eqn:Hs.
  - rewrite (createOrder_save_fails _ _ _ _ Hs) in H. injection H as <- _.
    exists m. by left.
  - rewrite (createOrder_saved _ _ _ Hs) in H.
    apply after_save_err in H as [m [-> | [-> | ->]]]; exists m; auto.
Qed.

(** The creation request of C2 is not rejected: with every collaborator up,
    [createOrder] on an empty item list returns and the table holds the
    new, empty order. *)
Lemma createOrder_accepts_empty_items :
  CreateOrderDto.items empty_dto = []
  /\ ~ rejects (createOrder reliable empty_dto) initial_state
  /\ exists o,
      store (createOrder reliable empty_dto initial_state).2 !! "0" = Some o
      /\ Order.items o = [] /\ Order.totalAmount o = 0.
Proof.
  split; [done|]. split.
  - intros (e & st' & H). vm_compute in H. discriminate.
  - eexists. split; [by vm_compute|]. done.
Qed.

(** C2, amended. [createOrder] makes no check of its own on an empty item
    list: the order it builds has no items, total amount 0 and status
    [PENDING]; the call can only fail with the error of a collaborator;
    whenever the save goes through the order is in the table; and when the
    save, the awaited emit to RabbitMQ, the queue and the deletes of the
    invalidation go through, the call returns it. *)
Theorem createOrder_empty_items env createOrderDto st :
  CreateOrderDto.items createOrderDto = [] ->
  (NewOrder.items (new_order st createOrderDto) = []
   /\ NewOrder.totalAmount (new_order st createOrderDto) = 0%float
   /\ NewOrder.status (new_order st createOrderDto) = PENDING)
  /\ (forall e st',
      createOrder env createOrderDto st = (Err e, st') -> collaborator_error e)
  /\ (insert_outcome env (new_order st createOrderDto) = None ->
      store (createOrder env createOrderDto st).2
      = <[NewOrder.id (new_order st createOrderDto)
            := row_of env (new_order st createOrderDto)]>
          (store st))
  /\ (insert_outcome env (new_order st createOrderDto) = None ->
      rabbit_emit_outcome env "order_created"
        (created_event (now st) (new_order st createOrderDto)) = None ->
      queue_add_outcome env "process-order"
        (mkJob (NewOrder.id (new_order st createOrderDto))
           (NewOrder.userId (new_order st createOrderDto))) = None ->
      invalidation_passes env st (CreateOrderDto.userId createOrderDto) ->
      exists st',
        createOrder env createOrderDto st = (Ok (new_order st createOrderDto), st')).
Proof.
  intros Hempty. split; [|split; [|split]].
  - unfold new_order, inserted_entity, draft_of; simpl. by rewrite Hempty.
  - intros e st'. apply createOrder_err.
  - intros Hs. rewrite (createOrder_saved _ _ _ Hs). by rewrite after_save_store.
  - apply createOrder_succeeds.
Qed.

Lemma createOrder_empty_items_witness :
  exists st',
    createOrder reliable empty_dto initial_state
    = (Ok (new_order initial_state empty_dto), st').
Proof.
  apply (proj2 (proj2 (proj2
    (createOrder_empty_items reliable empty_dto initial_state eq_refl))));
    done.
Defined.

(** ** Order of the side effects of [createOrder] *)

Lemma invalidation_calls_kind env st userId c :
  c ∈ invalidation_calls env st userId -> is_invalidation c = true.
Proof.
  unfold invalidation_calls. destruct (keys_supported env); [|by intros ?%elem_of_nil].
  intros [->|Hc]%elem_of_cons; [done|].
  apply list_elem_of_fmap in Hc as (k & -> & _). done.
Qed.

Lemma createOrder_calls env createOrderDto st o st' :
  createOrder env createOrderDto st = (Ok o, st') ->
  calls_of (createOrder env createOrderDto) st
  = [RepoSave (NewOrder.id o);
     KafkaEmit "order.created" (created_event (now st) o);
     RabbitEmit "order_created" (created_event (now st) o);
     QueueAdd "process-order" (mkJob (NewOrder.id o) (NewOrder.userId o))]
    ++ invalidation_calls env st (NewOrder.userId o).
Proof.
  intros H. apply calls_of_log_calls. rewrite H. simpl.
  by apply createOrder_ok in H as (_ & _ & _ & ->).
Qed.

Lemma four_then_rest (x0 x1 x2 x3 : Call) (rest : list Call) (i : nat) (a : Call) :
  ([x0; x1; x2; x3] ++ rest) !! i = Some a ->
  (i = 0%nat /\ a = x0) \/ (i = 1%nat /\ a = x1) \/ (i = 2%nat /\ a = x2)
  \/ (i = 3%nat /\ a = x3) \/ ((4 <= i)%nat /\ a ∈ rest).
Proof.
  destruct i as [|[|[|[|i]]]]; simpl; intros H.
  - injection H as <-. auto.
  - injection H as <-. auto.
  - injection H as <-. auto.
  - injection H as <-. auto 6.
  - right; right; right; right. split; [lia|]. by eapply list_elem_of_lookup_2.
Qed.

(** In the sample run the listing is invalidated after the event was
    published and the job enqueued, not before as C3 has it. *)
Lemma createOrder_invalidates_last :
  (exists o st', createOrder reliable sample_dto st_listed = (Ok o, st'))
  /\ calls_of (createOrder reliable sample_dto) st_listed !! 1%nat
     = Some (KafkaEmit "order.created"
               (Envelope "ORDER_CREATED" 0
                  (OrderCreatedData "1" "user-123" 1050.99 PENDING 2)))
  /\ calls_of (createOrder reliable sample_dto) st_listed !! 5%nat
     = Some (CacheDel "user-orders:user-123:1:10")
  /\ ~ all_before is_invalidation is_publication
        (calls_of (createOrder reliable sample_dto) st_listed).
Proof.
  assert (H1 : calls_of (createOrder reliable sample_dto) st_listed !! 1%nat
               = Some (KafkaEmit "order.created"
                         (Envelope "ORDER_CREATED" 0
                            (OrderCreatedData "1" "user-123" 1050.99 PENDING 2))))
    by (by vm_compute).
  assert (H5 : calls_of (createOrder reliable sample_dto) st_listed !! 5%nat
               = Some (CacheDel "user-orders:user-123:1:10"))
    by (by vm_compute).
  split; [|split; [done|split; [done|]]].
  - destruct (createOrder reliable sample_dto st_listed) as [[o|e] st'] eqn:H;
      [eauto|by vm_compute in H].
  - intros Hall. specialize (Hall 5%nat 1%nat _ _ H5 H1 eq_refl eq_refl). lia.
Qed.

(** C3, amended. A successful [createOrder] calls its collaborators in this
    order: the save, the Kafka emit and the RabbitMQ emit of the created
    event, the enqueue of the process-order job [{orderId, userId}], and
    only then the invalidation of the user's cached listings (the key scan
    and one delete per key found). *)
Theorem createOrder_effect_order env createOrderDto st o st' :
  createOrder env createOrderDto st = (Ok o, st') ->
  calls_of (createOrder env createOrderDto) st
  = [RepoSave (NewOrder.id o);
     KafkaEmit "order.created" (created_event (now st) o);
     RabbitEmit "order_created" (created_event (now st) o);
     QueueAdd "process-order" (mkJob (NewOrder.id o) (NewOrder.userId o))]
    ++ invalidation_calls env st (NewOrder.userId o)
  /\ all_before is_publication is_enqueue
       (calls_of (createOrder env createOrderDto) st)
  /\ all_before is_enqueue is_invalidation
       (calls_of (createOrder env createOrderDto) st).
Proof.
  intros H. rewrite (createOrder_calls _ _ _ _ _ H).
  split; [done|].
  split; intros i j a b Hi Hj Ha Hb;
    apply four_then_rest in Hi as [[-> ->]|[[-> ->]|[[-> ->]|[[-> ->]|[Hi Hin]]]]];
    apply four_then_rest in Hj as [[-> ->]|[[-> ->]|[[-> ->]|[[-> ->]|[Hj Hjn]]]]];
    try discriminate; try lia;
    try (apply invalidation_calls_kind in Hin; destruct a; discriminate);
    try (apply invalidation_calls_kind in Hjn; destruct b; discriminate).
Qed.

Lemma createOrder_effect_order_witness :
  calls_of (createOrder reliable sample_dto) st_listed
  = [RepoSave "1";
     KafkaEmit "order.created"
       (Envelope "ORDER_CREATED" 0 (OrderCreatedData "1" "user-123" 1050.99 PENDING 2));
     RabbitEmit "order_created"
       (Envelope "ORDER_CREATED" 0 (OrderCreatedData "1" "user-123" 1050.99 PENDING 2));
     QueueAdd "process-order" (mkJob "1" "user-123");
     CacheKeys "user-orders:user-123:*";
     CacheDel "user-orders:user-123:1:10"].
Proof.
  destruct (createOrder reliable sample_dto st_listed) as [[o|e] st'] eqn:H;
    [|by vm_compute in H].
  destruct (createOrder_effect_order reliable sample_dto st_listed o st' H)
    as (Hcalls & _ & _).
  rewrite Hcalls. vm_compute in H. injection H as <- _. by vm_compute.
Defined.

(** ** Persistence as the gate of [createOrder] *)

Lemma after_save_rabbit_fails env o st m :
  rabbit_emit_outcome env "order_created" (created_event (now st) o) = Some m ->
  (after_save env o st).1 = Err (BrokerError m).
Proof.
  intros Hr. unfold after_save, bind at 1.
  by rewrite publishOrderCreated_run, Hr.
Qed.

Lemma after_save_queue_fails env o st m :
  rabbit_emit_outcome env "order_created" (created_event (now st) o) = None ->
  queue_add_outcome env "process-order" (mkJob (NewOrder.id o) (NewOrder.userId o)) = Some m ->
  (after_save env o st).1 = Err (QueueError m).
Proof.
  intros Hr Hq. unfold after_save, bind at 1.
  rewrite publishOrderCreated_run, Hr.
  unfold bind at 1. by rewrite queue_add_run, Hq.
Qed.

(** C4. If the save fails, [createOrder] fails with that error having made
    no other call: nothing is invalidated, published or enqueued, and table
    and cache are as before. If the save succeeds, the new row is in the
    table whatever happens next: a failing publication (the awaited emit to
    RabbitMQ rejects) or a failing enqueue makes the call fail with that
    error and the row stays. *)
Theorem createOrder_persistence_gate env createOrderDto st :
  (forall m,
      insert_outcome env (new_order st createOrderDto) = Some m ->
      exists st',
        createOrder env createOrderDto st = (Err (StoreError m), st')
        /\ calls_of (createOrder env createOrderDto) st
           = [RepoSave (NewOrder.id (new_order st createOrderDto))]
        /\ store st' = store st
        /\ cache_orders st' = cache_orders st
        /\ cache_listings st' = cache_listings st)
  /\ (insert_outcome env (new_order st createOrderDto) = None ->
      store (createOrder env createOrderDto st).2
      = <[NewOrder.id (new_order st createOrderDto)
            := row_of env (new_order st createOrderDto)]>
          (store st)
      /\ (forall m,
           rabbit_emit_outcome env "order_created"
             (created_event (now st) (new_order st createOrderDto)) = Some m ->
           (createOrder env createOrderDto st).1 = Err (BrokerError m))
      /\ (forall m,
           rabbit_emit_outcome env "order_created"
             (created_event (now st) (new_order st createOrderDto)) = None ->
           queue_add_outcome env "process-order"
             (mkJob (NewOrder.id (new_order st createOrderDto))
                (NewOrder.userId (new_order st createOrderDto))) = Some m ->
           (createOrder env createOrderDto st).1 = Err (QueueError m))).
Proof.
  split.
  - intros m Hs. eexists. split; [by apply createOrder_save_fails|].
    split; [|done].
    apply calls_of_log_calls. by rewrite (createOrder_save_fails _ _ _ _ Hs).
  - intros Hs. rewrite (createOrder_saved _ _ _ Hs).
    split; [by rewrite after_save_store|].
    split.
    + intros m Hr. by apply after_save_rabbit_fails.
    + intros m Hr Hq. by apply after_save_queue_fails.
Qed.

Lemma createOrder_persistence_gate_witness :
  (exists st',
      createOrder store_down sample_dto initial_state
      = (Err (StoreError "connection refused"), st')
      /\ calls_of (createOrder store_down sample_dto) initial_state = [RepoSave "0"]
      /\ store st' = store initial_state
      /\ cache_orders st' = cache_orders initial_state
      /\ cache_listings st' = cache_listings initial_state)
  /\ (createOrder rabbit_down sample_dto initial_state).1
     = Err (BrokerError "channel closed")
  /\ store (createOrder rabbit_down sample_dto initial_state).2
     = <["0" := row_of rabbit_down (new_order initial_state sample_dto)]>
         (store initial_state)
  /\ (createOrder queue_down sample_dto initial_state).1
     = Err (QueueError "redis unavailable")
  /\ store (createOrder queue_down sample_dto initial_state).2
     = <["0" := row_of queue_down (new_order initial_state sample_dto)]>
         (store initial_state).
Proof.
  split; [|split; [|split; [|split]]].
  - by apply (proj1 (createOrder_persistence_gate store_down sample_dto initial_state)).
  - by apply (proj2 (createOrder_persistence_gate rabbit_down sample_dto initial_state)).
  - by apply (proj2 (createOrder_persistence_gate rabbit_down sample_dto initial_state)).
  - by apply (proj2 (createOrder_persistence_gate queue_down sample_dto initial_state)).
  - by apply (proj2 (createOrder_persistence_gate queue_down sample_dto initial_state)).
Defined.

(** ** Amounts computed by [createOrder] *)

Lemma order_total_float_sum items acc :
  fold_left
    (fun sum item =>
       (sum + OrderItemDto.unitPrice item * OrderItemDto.quantity item)%float)
    items acc
  = float_sum_from acc (map NewOrderItem.totalPrice (map to_item items)).
Proof.
  unfold float_sum_from. revert acc.
  induction items as [|item items IH]; intros acc; simpl; [done|]. by rewrite IH.
Qed.

Lemma to_item_lines items :
  Forall2
    (fun line item =>
       NewOrderItem.productId item = OrderItemDto.productId line
       /\ NewOrderItem.productName item = OrderItemDto.productName line
       /\ NewOrderItem.quantity item = OrderItemDto.quantity line
       /\ NewOrderItem.unitPrice item = OrderItemDto.unitPrice line
       /\ NewOrderItem.totalPrice item
          = (OrderItemDto.unitPrice line * OrderItemDto.quantity line)%float)
    items (map to_item items).
Proof. induction items; constructor; auto. Qed.

Lemma to_item_totals items :
  Forall
    (fun item =>
       NewOrderItem.totalPrice item
       = (NewOrderItem.unitPrice item * NewOrderItem.quantity item)%float)
    (map to_item items).
Proof. induction items; constructor; auto. Qed.

(** Three units at 0.1 each: the [totalAmount] of the returned order is the
    double 0.30000000000000004, which is not the product of the unit price
    and the quantity of the request. And the same three lines give two
    different totals in two orders, which no sum over the items does. *)
Lemma createOrder_total_is_rounded :
  CreateOrderDto.items tenths_dto <> []
  /\ (exists o st',
       createOrder reliable tenths_dto initial_state = (Ok o, st')
       /\ stands_for (NewOrder.totalAmount o)
            (sum_of_lines (CreateOrderDto.items tenths_dto)) = false
       /\ Forall
            (fun item =>
               stands_for (NewOrderItem.totalPrice item)
                 (unitPrice ← value_of (NewOrderItem.unitPrice item) ;
                  quantity ← value_of (NewOrderItem.quantity item) ;
                  Some (dyadic_mul unitPrice quantity)) = false)
            (NewOrder.items o))
  /\ (exists o1 st1 o2 st2,
       createOrder reliable ascending_dto initial_state = (Ok o1, st1)
       /\ createOrder reliable descending_dto initial_state = (Ok o2, st2)
       /\ CreateOrderDto.items ascending_dto
          ≡ₚ CreateOrderDto.items descending_dto
       /\ NewOrder.totalAmount o1 <> NewOrder.totalAmount o2).
Proof.
  split; [done|]. split.
  - destruct (createOrder reliable tenths_dto initial_state) as [[o|e] st'] eqn:H;
      [|by vm_compute in H].
    exists o, st'. split; [done|].
    vm_compute in H. injection H as <- _.
    split; [by vm_compute|]. repeat constructor.
  - destruct (createOrder reliable ascending_dto initial_state)
      as [[o1|e] st1] eqn:H1; [|by vm_compute in H1].
    destruct (createOrder reliable descending_dto initial_state)
      as [[o2|e] st2] eqn:H2; [|by vm_compute in H2].
    exists o1, st1, o2, st2. split; [done|]. split; [done|]. split.
    + unfold ascending_dto, descending_dto; simpl.
      apply (Permutation_rev [_; _; _]).
    + vm_compute in H1. injection H1 as <- _.
      vm_compute in H2. injection H2 as <- _. simpl.
      intros Heq. apply (f_equal Prim2SF) in Heq. vm_compute in Heq.
      discriminate Heq.
Qed.

(** C5, amended. The order a successful [createOrder] returns has status
    [PENDING]; its items are the requested ones in order, each with
    [totalPrice] the double nearest to [unitPrice * quantity]; its
    [totalAmount] is what a double accumulator makes of these prices, added
    from 0 and from left to right. The row kept under its id holds each
    amount as the table wrote it. *)
Theorem createOrder_amounts env createOrderDto st o st' :
  createOrder env createOrderDto st = (Ok o, st') ->
  NewOrder.totalAmount o
  = float_sum_from 0%float (map NewOrderItem.totalPrice (NewOrder.items o))
  /\ Forall2
       (fun line item =>
          NewOrderItem.productId item = OrderItemDto.productId line
          /\ NewOrderItem.productName item = OrderItemDto.productName line
          /\ NewOrderItem.quantity item = OrderItemDto.quantity line
          /\ NewOrderItem.unitPrice item = OrderItemDto.unitPrice line
          /\ NewOrderItem.totalPrice item
             = (OrderItemDto.unitPrice line * OrderItemDto.quantity line)%float)
       (CreateOrderDto.items createOrderDto) (NewOrder.items o)
  /\ Forall
       (fun item =>
          NewOrderItem.totalPrice item
          = (NewOrderItem.unitPrice item * NewOrderItem.quantity item)%float)
       (NewOrder.items o)
  /\ NewOrder.status o = PENDING
  /\ (exists row,
       store st' !! NewOrder.id o = Some row
       /\ Order.status row = PENDING
       /\ Order.totalAmount row = to_decimal env (NewOrder.totalAmount o)
       /\ Forall2
            (fun item line =>
               OrderItem.quantity line = to_int env (NewOrderItem.quantity item)
               /\ OrderItem.unitPrice line = to_decimal env (NewOrderItem.unitPrice item)
               /\ OrderItem.totalPrice line
                  = to_decimal env (NewOrderItem.totalPrice item))
            (NewOrder.items o) (Order.items row)).
Proof.
  intros H. apply createOrder_ok in H as (-> & _ & Hst & _).
  unfold new_order, inserted_entity, draft_of in *; simpl in *.
  split; [apply order_total_float_sum|].
  split; [|split; [|split; [done|]]].
  - apply to_item_lines.
  - apply to_item_totals.
  - eexists. split; [by rewrite Hst, lookup_insert_eq|]. simpl.
    split; [done|]. split; [done|]. clear Hst.
    induction (map to_item _) as [|item items IH]; simpl; constructor; auto.
Qed.

Lemma createOrder_amounts_witness :
  exists o st',
    createOrder reliable sample_dto initial_state = (Ok o, st')
    /\ NewOrder.totalAmount o = 1050.99%float
    /\ NewOrder.status o = PENDING.
Proof.
  destruct (createOrder reliable sample_dto initial_state) as [[o|e] st'] eqn:Hok;
    [|by vm_compute in Hok].
  exists o, st'.
  destruct (createOrder_amounts reliable sample_dto initial_state _ _ Hok)
    as (Htotal & _ & _ & Hstatus & _).
  split; [done|]. split; [|exact Hstatus].
  rewrite Htotal. vm_compute in Hok. injection Hok as <- _. by vm_compute.
Defined.
(** ** [updateStatus] after validation *)

Lemma apply_update_id t updateDto order :
  Order.id (apply_update t updateDto order) = Order.id order.
Proof. unfold apply_update. by destruct (decide _). Qed.

Lemma apply_update_userId t updateDto order :
  Order.userId (apply_update t updateDto order) = Order.userId order.
Proof. unfold apply_update. by destruct (decide _). Qed.

Lemma repository_save_run env o st :
  repository_save env o st =
  match save_outcome env o with
  | Some m => (Err (StoreError m), log_calls [RepoSave (Order.id o)] st)
  | None =>
      (Ok (Order.set_updatedAt (now st) o),
       after_update st (Order.set_updatedAt (now st) o))
  end.
Proof.
  unfold repository_save, after_update. run.
  destruct (save_outcome env o); cbn; same_state.
Qed.

Lemma commit_update_save_fails env id updateDto order st m :
  save_outcome env (apply_update (now st) updateDto order) = Some m ->
  commit_update env id updateDto order st
  = (Err (StoreError m), log_calls [RepoSave (Order.id order)] st).
Proof.
  intros Hs. unfold commit_update, bind at 1, clock.
  unfold bind at 1. rewrite repository_save_run, Hs.
  by rewrite apply_update_id.
Qed.

Lemma commit_update_saved env id updateDto order st :
  save_outcome env (apply_update (now st) updateDto order) = None ->
  commit_update env id updateDto order st
  = after_update_save env id (updated_row (now st) updateDto order)
      (after_update st (updated_row (now st) updateDto order)).
Proof.
  intros Hs. unfold commit_update, bind at 1, clock.
  unfold bind at 1. rewrite repository_save_run, Hs.
  unfold after_update_save, updated_row. simpl.
  by rewrite apply_update_userId.
Qed.

Lemma after_update_save_store env id o st :
  store (after_update_save env id o st).2 = store st.
Proof.
  assert (H : keeps store (after_update_save env id o)).
  { unfold after_update_save. auto 10 with keeps. }
  apply H.
Qed.

Lemma after_update_save_ok env id o st r st' :
  after_update_save env id o st = (Ok r, st') -> r = o.
Proof.
  unfold after_update_save. intros H.
  apply bind_ok_inv in H as ([] & s1 & _ & H).
  apply bind_ok_inv in H as ([] & s2 & _ & H).
  apply bind_ok_inv in H as ([] & s3 & _ & H).
  by injection H as <- _.
Qed.

Lemma after_update_save_err env id o st e st' :
  after_update_save env id o st = (Err e, st') ->
  exists m, e = BrokerError m \/ e = CacheError m.
Proof.
  unfold after_update_save. intros H.
  apply bind_err_inv in H as [H | ([] & s1 & _ & H)].
  { rewrite publishOrderStatusChanged_run in H.
    destruct (decide _); [|done].
    destruct (rabbit_emit_outcome _ _ _); [injection H as <- _; eauto|done]. }
  apply bind_err_inv in H as [H | ([] & s2 & _ & H)].
  { rewrite cache_del_run in H.
    destruct (cache_del_outcome _ _); [injection H as <- _; eauto|done]. }
  apply bind_err_inv in H as [H | ([] & s3 & _ & H)]; [|done].
  destruct (invalidateUserOrdersCache_run env (Order.userId o) s2)
    as (r & s & Hi & _ & _ & _ & [-> | [m ->]] & _); rewrite Hi in H; [done|].
  injection H as <- _. eauto.
Qed.

Lemma findOne_now {env} id st : now (findOne env id st).2 = now st.
Proof.
  destruct (cached_order st id) as [c|] eqn:Hc.
  - by rewrite (findOne_hit _ _ _ Hc).
  - destruct (store st !! id) as [r|] eqn:Hs.
    + by rewrite (findOne_miss_found _ _ _ Hc Hs).
    + by destruct (findOne_miss_fails (env:=env) _ _ Hc Hs) as (e & -> & _).
Qed.

(** A successful [updateStatus] returns the row it wrote, and that row is
    in the table under the id of the loaded order. *)
Lemma updateStatus_ok env id updateDto st o st' :
  updateStatus env id updateDto st = (Ok o, st') ->
  exists current st1,
    findOne env id st = (Ok current, st1)
    /\ allowedNext (Order.status current) (UpdateOrderStatusDto.status updateDto)
    /\ o = updated_row (now st) updateDto current
    /\ store st' = <[Order.id o := o]> (store st).
Proof.
  intros H.
  destruct (findOne env id st) as [[current|e] st1] eqn:Hload;
    [|by rewrite (updateStatus_findOne_fails _ _ _ _ _ _ Hload) in H].
  assert (Hnow : now st1 = now st).
  { pose proof (findOne_now (env:=env) id st) as Hn. by rewrite Hload in Hn. }
  assert (Hstore : store st1 = store st).
  { pose proof (findOne_store (env:=env) id st) as Hs. by rewrite Hload in Hs. }
  destruct (decide (allowedNext (Order.status current)
                      (UpdateOrderStatusDto.status updateDto))) as [Hedge|Hoff];
    [|by rewrite (updateStatus_invalid _ _ _ _ _ _ Hload Hoff) in H].
  rewrite (updateStatus_valid _ _ _ _ _ _ Hload Hedge) in H.
  destruct (save_outcome env (apply_update (now st1) updateDto current))
    as [m|] eqn:Hsave.
  { by rewrite (commit_update_save_fails _ _ _ _ _ _ Hsave) in H. }
  rewrite (commit_update_saved _ _ _ _ _ Hsave) in H.
  pose proof (after_update_save_store env id (updated_row (now st1) updateDto current)
                (after_update st1 (updated_row (now st1) updateDto current))) as Hst.
  rewrite H in Hst. simpl in Hst.
  apply after_update_save_ok in H as ->.
  exists current, st1. rewrite Hnow in *. rewrite Hstore in Hst. done.
Qed.

(** [findOne] fails only on a miss for an id that no row has: with
    [NotFound], or with the error of the table when it refuses the id. *)
Lemma findOne_err {env} id st e st' :
  findOne env id st = (Err e, st') ->
  (e = NotFound id \/ exists m, e = StoreError m)
  /\ cached_order st id = None /\ store st !! id = None
  /\ store st' = store st.
Proof.
  intros H. pose proof (findOne_store (env:=env) id st) as Hs. rewrite H in Hs.
  destruct (cached_order st id) as [c|] eqn:Hc.
  - by rewrite (findOne_hit _ _ _ Hc) in H.
  - destruct (store st !! id) as [r|] eqn:Hr.
    + by rewrite (findOne_miss_found _ _ _ Hc Hr) in H.
    + destruct (findOne_miss_fails (env:=env) _ _ Hc Hr) as (e' & He & Hkind).
      rewrite He in H. by injection H as <- _.
Qed.

Lemma updateStatus_err env id updateDto st e st' :
  updateStatus env id updateDto st = (Err e, st') ->
  e = NotFound id
  \/ (exists c, e = InvalidTransition c (UpdateOrderStatusDto.status updateDto))
  \/ (exists m, e = StoreError m)
  \/ (exists m, e = BrokerError m)
  \/ (exists m, e = CacheError m).
Proof.
  intros H.
  destruct (findOne env id st) as [[current|e1] st1] eqn:Hload.
  2: { rewrite (updateStatus_findOne_fails _ _ _ _ _ _ Hload) in H.
       injection H as <- <-.
       apply findOne_err in Hload as ([-> | [m ->]] & _); eauto 6. }
  destruct (decide (allowedNext (Order.status current)
                      (UpdateOrderStatusDto.status updateDto))) as [Hedge|Hoff].
  2: { rewrite (updateStatus_invalid _ _ _ _ _ _ Hload Hoff) in H.
       injection H as <- _. right; left. eauto. }
  rewrite (updateStatus_valid _ _ _ _ _ _ Hload Hedge) in H.
  destruct (save_outcome env (apply_update (now st1) updateDto current))
    as [m|] eqn:Hsave.
  { rewrite (commit_update_save_fails _ _ _ _ _ _ Hsave) in H.
    injection H as <- _. right; right; left. eauto. }
  rewrite (commit_update_saved _ _ _ _ _ Hsave) in H.
  apply after_update_save_err in H as [m [-> | ->]]; eauto 8.
Qed.

(** ** The fulfilment worker *)

Lemma pipeline_run env id st :
  pipeline env id st =
  match validateOrder env id (log_calls [JobProgress 20] st) with
  | (Err e, s1) => (Err e, s1)
  | (Ok _, s1) =>
      if inventory_available env id then
        match reserve_outcome env id with
        | Some m =>
            (Err (JsError m),
             log_calls [JobProgress 40; InventoryCheck id; JobProgress 60;
                        InventoryReserve id] s1)
        | None =>
            match payment_outcome env id with
            | Some m =>
                (Err (JsError m),
                 log_calls [JobProgress 40; InventoryCheck id; JobProgress 60;
                            InventoryReserve id; JobProgress 80;
                            PaymentInitiate id] s1)
            | None =>
                match updateStatus env id confirm_dto
                        (log_calls [JobProgress 40; InventoryCheck id;
                                    JobProgress 60; InventoryReserve id;
                                    JobProgress 80; PaymentInitiate id;
                                    JobProgress 100] s1) with
                | (Ok _, s2) =>
                    (Ok (mkJobResult true id "Order processed successfully"), s2)
                | (Err e, s2) => (Err e, s2)
                end
            end
        end
      else
        (Err (JsError "Insufficient inventory"),
         log_calls [JobProgress 40; InventoryCheck id] s1)
  end.
Proof.
  unfold pipeline, progress, checkInventory, reserveInventory, initiatePayment.
  unfold bind at 1. unfold log at 1. unfold bind at 1.
  destruct (validateOrder env id (log_calls [JobProgress 20] st)) as [[[]|e] s1]; [|done].
  run.
  destruct (inventory_available env id); cbn; [|same_state].
  destruct (reserve_outcome env id); cbn; [same_state|].
  destruct (payment_outcome env id); cbn; [same_state|].
  match goal with |- context [updateStatus env id ?d ?s] =>
    replace s with (log_calls [JobProgress 40; InventoryCheck id;
                                    JobProgress 60; InventoryReserve id;
                                    JobProgress 80; PaymentInitiate id;
                                    JobProgress 100] s1) by same_state end.
  unfold confirm_dto.
  by destruct (updateStatus _ _ _ _) as [[?|?] ?].
Qed.

Lemma validateOrder_run env id st :
  validateOrder env id st =
  match findOne env id st with
  | (Err e, s1) => (Err e, s1)
  | (Ok order, s1) =>
      match Order.items order with
      | [] => (Err (JsError "Order has no items"), s1)
      | _ :: _ => (Ok tt, s1)
      end
  end.
Proof.
  unfold validateOrder, bind. destruct (findOne env id st) as [[o|e] s1]; [|done].
  by destruct (Order.items o).
Qed.

Lemma pipeline_err env id st e s1 :
  pipeline env id st = (Err e, s1) -> pipeline_error e.
Proof.
  rewrite pipeline_run, validateOrder_run. unfold pipeline_error.
  destruct (findOne env id _) as [[o|e1] s0] eqn:Hload.
  2: { intros [= <- <-]. apply findOne_err in Hload as ([-> | [m ->]] & _); eauto 10. }
  destruct (Order.items o); [intros [= <- <-]; right; left; eauto|].
  destruct (inventory_available env id); [|intros [= <- <-]; right; left; eauto].
  destruct (reserve_outcome env id); [intros [= <- <-]; right; left; eauto|].
  destruct (payment_outcome env id); [intros [= <- <-]; right; left; eauto|].
  destruct (updateStatus env id confirm_dto _) as [[r|e2] s2] eqn:Hup; [done|].
  intros [= <- <-].
  apply updateStatus_err in Hup as [-> | [[c ->] | [[m ->] | [[m ->] | [m ->]]]]];
    eauto 10.
Qed.

(** With the simulated steps of the source, a job whose order validates
    goes straight to the confirmation. *)
Lemma simulated_steps_pass env id st s1 :
  simulated_steps env ->
  validateOrder env id (log_calls [JobProgress 20] st) = (Ok tt, s1) ->
  pipeline env id st =
  match updateStatus env id confirm_dto
          (log_calls [JobProgress 40; InventoryCheck id; JobProgress 60;
                      InventoryReserve id; JobProgress 80; PaymentInitiate id;
                      JobProgress 100] s1) with
  | (Ok _, s2) => (Ok (mkJobResult true id "Order processed successfully"), s2)
  | (Err e, s2) => (Err e, s2)
  end.
Proof.
  intros (Hi & Hr & Hp) Hv. by rewrite pipeline_run, Hv, Hi, Hr, Hp.
Qed.

Lemma handleOrderProcessing_ok env job st r s1 :
  pipeline env (job_orderId job) st = (Ok r, s1) ->
  handleOrderProcessing env job st = (Ok r, s1).
Proof. intros H. unfold handleOrderProcessing, try_catch. by rewrite H. Qed.

Lemma handleOrderProcessing_err env job st e s1 :
  pipeline env (job_orderId job) st = (Err e, s1) ->
  handleOrderProcessing env job st = on_failure env (job_orderId job) e s1.
Proof. intros H. unfold handleOrderProcessing, try_catch. by rewrite H. Qed.

Lemma on_failure_run env id e st :
  on_failure env id e st =
  match updateStatus env id (cancel_dto e) st with
  | (Ok _, s2) => (Err e, s2)
  | (Err e', s2) => (Err e', s2)
  end.
Proof.
  unfold on_failure, bind, throw, cancel_dto.
  by destruct (updateStatus _ _ _ _) as [[?|?] ?].
Qed.

(** The message of a refused cancellation differs from that of a refused
    confirmation. *)
Lemma InvalidTransition_cancel_confirm c c' :
  InvalidTransition c CANCELLED <> InvalidTransition c' CONFIRMED.
Proof. destruct c, c'; intros H; vm_compute in H; discriminate. Qed.

(** The shipped sample order, whose cached copy still says [PROCESSING]:
    its job fails on the inventory, the cancellation goes through, and the
    handler throws the error of the failed step. *)
Lemma shipped_order_cancelled_through_stale_copy :
  reachable st_shipped_unannounced
  /\ (exists o,
      store st_shipped_unannounced !! "0" = Some o /\ Order.status o = SHIPPED)
  /\ ~ allowedNext SHIPPED CANCELLED
  /\ (pipeline out_of_stock "0" st_shipped_unannounced).1
     = Err (JsError "Insufficient inventory")
  /\ (handleOrderProcessing out_of_stock sample_job st_shipped_unannounced).1
     = Err (JsError "Insufficient inventory")
  /\ exists o,
      store (handleOrderProcessing out_of_stock sample_job st_shipped_unannounced).2
        !! "0" = Some o
      /\ Order.status o = CANCELLED.
Proof.
  split.
  { do 3 apply reachable_step.
    apply (reachable_step reliable (OpCreateOrder sample_dto)), reachable_initial. }
  split; [eexists; split; [by vm_compute|done]|].
  split; [inversion 1|].
  split; [by vm_compute|]. split; [by vm_compute|].
  eexists. split; [by vm_compute|]. done.
Qed.

(** C10, amended. When the [try] block of the process-order handler has
    failed with [e], and the order the cancellation then loads through
    [findOne] is in a status with no edge to [CANCELLED] (shipped, delivered
    or already cancelled), the handler fails with the [InvalidTransition] of
    the cancellation attempt: that error is not [e], and the orders table is
    as the [try] block left it. *)
Theorem cancellation_error_masks_pipeline_error env job st e s1 current s2 :
  pipeline env (job_orderId job) st = (Err e, s1) ->
  findOne env (job_orderId job) s1 = (Ok current, s2) ->
  ~ allowedNext (Order.status current) CANCELLED ->
  handleOrderProcessing env job st
  = (Err (InvalidTransition (Order.status current) CANCELLED), s2)
  /\ InvalidTransition (Order.status current) CANCELLED <> e
  /\ store s2 = store s1.
Proof.
  intros Hpipe Hload Hoff.
  rewrite (handleOrderProcessing_err _ _ _ _ _ Hpipe), on_failure_run.
  rewrite (updateStatus_invalid env _ (cancel_dto e) _ _ _ Hload Hoff). simpl.
  split; [done|]. split.
  - intros <-. apply pipeline_err in Hpipe.
    destruct Hpipe as [[m H]|[[m H]|[[c H]|[[m H]|[[m H]|[m H]]]]]];
      try discriminate H.
    by apply InvalidTransition_cancel_confirm in H.
  - pose proof (findOne_store (env:=env) (job_orderId job) s1) as Hs.
    by rewrite Hload in Hs.
Qed.

Lemma cancellation_error_masks_pipeline_error_witness :
  (handleOrderProcessing out_of_stock sample_job st_delivered).1
  = Err (InvalidTransition DELIVERED CANCELLED)
  /\ InvalidTransition DELIVERED CANCELLED <> JsError "Insufficient inventory".
Proof.
  destruct (pipeline out_of_stock (job_orderId sample_job) st_delivered)
    as [[r|e] s1] eqn:Hpipe; [by vm_compute in Hpipe|].
  destruct (findOne out_of_stock (job_orderId sample_job) s1)
    as [[current|e'] s2] eqn:Hload.
  2: { vm_compute in Hpipe. injection Hpipe as _ <-. by vm_compute in Hload. }
  assert (He : e = JsError "Insufficient inventory").
  { vm_compute in Hpipe. by injection Hpipe as <- _. }
  assert (Hst : Order.status current = DELIVERED).
  { vm_compute in Hpipe. injection Hpipe as _ <-.
    vm_compute in Hload. by injection Hload as <- _. }
  destruct (cancellation_error_masks_pipeline_error out_of_stock sample_job
              st_delivered e s1 current s2 Hpipe Hload) as (Hres & Hne & _).
  { rewrite Hst. inversion 1. }
  clear Hpipe Hload. rewrite Hst in Hres, Hne. rewrite He in Hne.
  split; [|exact Hne]. rewrite Hres. reflexivity.
Defined.

(** ** The queue's retry policy *)

Lemma run_attempts_policy opts envs remaining made job st :
  (attempts_made (run_attempts opts envs remaining made job st).1
   <= made + remaining)%nat
  /\ (forall r,
      last_result (run_attempts opts envs remaining made job st).1 = Ok r ->
      record_kept (run_attempts opts envs remaining made job st).1
      = negb (removeOnComplete opts))
  /\ (forall e,
      last_result (run_attempts opts envs remaining made job st).1 = Err e ->
      record_kept (run_attempts opts envs remaining made job st).1
      = negb (removeOnFail opts)
      /\ attempts_made (run_attempts opts envs remaining made job st).1
         = (made + remaining)%nat).
Proof.
  revert made st. induction remaining as [|n IH]; intros made st; simpl.
  - split; [lia|]. split; [done|]. intros e _. split; [done|lia].
  - destruct (handleOrderProcessing (envs made) job st) as [[r|e] st'].
    + simpl. split; [lia|]. split; [done|]. done.
    + destruct n as [|n'].
      * simpl. split; [lia|]. split; [done|]. intros ? _. split; [done|lia].
      * destruct (IH (S made) st') as (Hle & Hok & Herr).
        split; [lia|]. split; [done|].
        intros e' He'. destruct (Herr e' He') as [-> ->]. split; [done|lia].
Qed.

(** ** The catch path of the process-order handler *)

(** On its second run the sample job fails on the inventory again, but
    what the handler throws is the refusal to cancel a cancelled order; and
    for a delivered order the handler neither cancels it nor throws the
    error of the failed step. *)
Lemma failed_job_not_always_cancelled_and_rethrown :
  (pipeline out_of_stock "0" st_first_attempt).1
  = Err (JsError "Insufficient inventory")
  /\ (handleOrderProcessing out_of_stock sample_job st_first_attempt).1
     = Err (InvalidTransition CANCELLED CANCELLED)
  /\ (pipeline out_of_stock "0" st_delivered).1
     = Err (JsError "Insufficient inventory")
  /\ (handleOrderProcessing out_of_stock sample_job st_delivered).1
     = Err (InvalidTransition DELIVERED CANCELLED)
  /\ exists o,
      store (handleOrderProcessing out_of_stock sample_job st_delivered).2 !! "0"
      = Some o
      /\ Order.status o = DELIVERED /\ Order.cancelReason o = None.
Proof.
  split; [by vm_compute|]. split; [by vm_compute|].
  split; [by vm_compute|]. split; [by vm_compute|].
  eexists. split; [by vm_compute|]. done.
Qed.

Lemma updateStatus_cancel_ok env id e st o st' :
  updateStatus env id (cancel_dto e) st = (Ok o, st') ->
  Order.status o = CANCELLED
  /\ Order.cancelReason o = Some (message e)
  /\ Order.cancelledAt o = Some (now st)
  /\ store st' !! Order.id o = Some o.
Proof.
  intros H. apply updateStatus_ok in H as (current & st1 & _ & _ & -> & Hst).
  rewrite Hst, lookup_insert_eq. done.
Qed.

Lemma updateStatus_confirm_ok env id st o st' :
  updateStatus env id confirm_dto st = (Ok o, st') ->
  Order.status o = CONFIRMED /\ store st' !! Order.id o = Some o.
Proof.
  intros H. apply updateStatus_ok in H as (current & st1 & _ & _ & -> & Hst).
  rewrite Hst, lookup_insert_eq. done.
Qed.

(** ** States whose orders are all good *)

Section GoodStates.

Variable G : Order.t -> Prop.
Variable D : gset string.

Hypothesis G_apply_update :
  forall c updateDto t,
    G c -> allowedNext (Order.status c) (UpdateOrderStatusDto.status updateDto) ->
    G (apply_update t updateDto c).
Hypothesis G_set_updatedAt : forall o t, G o -> G (Order.set_updatedAt t o).
Hypothesis G_new :
  forall row,
    Order.id row ∉ D -> Order.cancelledAt row = None ->
    Order.cancelReason row = None -> Order.status row <> CANCELLED -> G row.

Lemma inv_ret {A} (a : A) (Q : A -> Prop) : Q a -> inv_triple G D (ret a) Q.
Proof. intros HQ st Hg. split; [done|]. split; [done|]. by intros ? [= <-]. Qed.

Lemma inv_throw {A} e (Q : A -> Prop) : inv_triple G D (throw e) Q.
Proof. intros st Hg. split; [done|]. split; done. Qed.

Lemma inv_bind {A B} (m : M A) (k : A -> M B) (R : A -> Prop) (Q : B -> Prop) :
  inv_triple G D m R -> (forall a, R a -> inv_triple G D (k a) Q) ->
  inv_triple G D (bind m k) Q.
Proof.
  intros Hm Hk st Hg. unfold bind.
  destruct (Hm st Hg) as (Hg1 & Hn1 & HR).
  destruct (m st) as [[a|e] st1]; simpl in *; [|done].
  destruct (Hk a (HR a eq_refl) st1 Hg1) as (Hg2 & Hn2 & HQ).
  split; [done|]. split; [congruence|done].
Qed.

Lemma inv_try_catch {A} (m : M A) h (Q : A -> Prop) :
  inv_triple G D m Q -> (forall e, inv_triple G D (h e) Q) ->
  inv_triple G D (try_catch m h) Q.
Proof.
  intros Hm Hh st Hg. unfold try_catch.
  destruct (Hm st Hg) as (Hg1 & Hn1 & HQ).
  destruct (m st) as [[a|e] st1]; simpl in *; [done|].
  destruct (Hh e st1 Hg1) as (Hg2 & Hn2 & HQ2).
  split; [done|]. split; [congruence|done].
Qed.

Lemma inv_log c : inv_triple G D (log c) (fun _ => True).
Proof. intros st Hg. done. Qed.

Lemma inv_clock : inv_triple G D clock (fun _ => True).
Proof. intros st Hg. done. Qed.

Lemma inv_promise_all {A} (f : A -> M unit) l :
  (forall a, inv_triple G D (f a) (fun _ => True)) ->
  inv_triple G D (promise_all f l) (fun _ => True).
Proof.
  intros Hf. induction l as [|a l IH]; simpl.
  - by apply inv_ret.
  - intros st Hg. destruct (Hf a st Hg) as (Hg1 & Hn1 & _).
    destruct (f a st) as [[[]|e] st1]; simpl in *;
      destruct (IH st1 Hg1) as (Hg2 & Hn2 & HQ);
      (split; [done|]); (split; [congruence|done]).
Qed.

Lemma inv_cache_get_order key :
  inv_triple G D (cache_get_order key) (fun r => forall o, r = Some o -> G o).
Proof.
  intros st Hg. unfold cache_get_order. run. split; [done|]. split; [done|].
  intros a [= <-] o Ho. destruct Hg as (_ & Hc & _).
  destruct (cache_orders st !! key) as [[c e]|] eqn:Hk; [|done].
  simpl in Ho. unfold live in Ho; simpl in Ho. case_decide; [|done].
  injection Ho as <-. eauto.
Qed.

Lemma inv_cache_set_order key o ttl :
  G o -> inv_triple G D (cache_set_order key o ttl) (fun _ => True).
Proof.
  intros Ho st (Hs & Hc & Hd). unfold cache_set_order. run.
  split; [|done]. split; [done|]. split; [|done].
  intros key' c e. simpl. rewrite lookup_insert.
  case_decide; [intros [= <- <-]; done|]. apply Hc.
Qed.

Lemma inv_cache_del env key : inv_triple G D (cache_del env key) (fun _ => True).
Proof.
  intros st (Hs & Hc & Hd). rewrite cache_del_run.
  destruct (cache_del_outcome env key); [done|].
  split; [|done]. split; [done|]. split; [|done].
  intros key' c e. simpl. rewrite lookup_delete.
  case_decide; [done|]. apply Hc.
Qed.

Lemma inv_cache_keys env prefix :
  inv_triple G D (cache_keys env prefix) (fun _ => True).
Proof. intros st Hg. unfold cache_keys. run. done. Qed.

Lemma inv_cache_get_listing key :
  inv_triple G D (cache_get_listing key) (fun _ => True).
Proof. intros st Hg. unfold cache_get_listing. run. done. Qed.

Lemma inv_cache_set_listing key r ttl :
  inv_triple G D (cache_set_listing key r ttl) (fun _ => True).
Proof. intros st Hg. unfold cache_set_listing. run. done. Qed.

Lemma inv_repository_findOne env id :
  inv_triple G D (repository_findOne env id) (fun r => forall o, r = Some o -> G o).
Proof.
  intros st Hg. unfold repository_findOne. run.
  destruct (store st !! id) as [r|] eqn:Hr; cbn.
  - split; [done|]. split; [done|].
    intros a [= <-] o [= <-]. destruct Hg as (Hs & _). by apply Hs in Hr as [_ ?].
  - destruct (id_rejected env id); cbn; (split; [done|]); (split; [done|]).
    + done.
    + by intros a [= <-] o.
Qed.

Lemma inv_repository_findAndCount userId skip take_ :
  inv_triple G D (repository_findAndCount userId skip take_) (fun _ => True).
Proof.
  intros st Hg. unfold repository_findAndCount. run.
  repeat (destruct (decide _); cbn; try done).
Qed.

Lemma inv_repository_insert env d :
  OrderDraft.status d <> CANCELLED ->
  inv_triple G D (repository_insert env d) (fun o => G (row_of env o)).
Proof.
  intros Hd st Hg. rewrite repository_insert_run.
  assert (Hfresh : NewOrder.id (inserted_entity st d) ∉ dom (store st)).
  { unfold inserted_entity; simpl. apply is_fresh. }
  assert (Hrow : G (row_of env (inserted_entity st d))).
  { destruct Hg as (_ & _ & HD). apply G_new; try done.
    intros Hin. apply Hfresh. by apply HD. }
  destruct (insert_outcome env _); [done|].
  destruct Hg as (Hs & Hc & HD). split; [|split; [done|]].
  - split; [|split].
    + intros key o. simpl. rewrite lookup_insert.
      case_decide; [intros [= <-]; done|]. apply Hs.
    + apply Hc.
    + simpl. rewrite dom_insert_L. etrans; [exact HD|]. apply union_subseteq_r.
  - by intros a [= <-].
Qed.

Lemma inv_repository_save env o :
  G o -> inv_triple G D (repository_save env o) G.
Proof.
  intros Ho st Hg. rewrite repository_save_run.
  destruct (save_outcome env _); [done|].
  destruct Hg as (Hs & Hc & HD). split; [|split; [done|]].
  - split; [|split].
    + intros key o'. simpl. rewrite lookup_insert.
      case_decide; [intros [= <-]; split; [done|by apply G_set_updatedAt]|].
      apply Hs.
    + apply Hc.
    + simpl. rewrite dom_insert_L. etrans; [exact HD|]. apply union_subseteq_r.
  - intros a [= <-]. by apply G_set_updatedAt.
Qed.

Lemma inv_kafka_emit topic msg :
  inv_triple G D (kafka_emit topic msg) (fun _ => True).
Proof. apply inv_log. Qed.

Lemma inv_rabbit_emit env pattern msg :
  inv_triple G D (rabbit_emit env pattern msg) (fun _ => True).
Proof.
  unfold rabbit_emit. eapply inv_bind; [apply inv_log|]. intros _ _.
  destruct (rabbit_emit_outcome _ _ _); [apply inv_throw|by apply inv_ret].
Qed.

Lemma inv_queue_add env name data :
  inv_triple G D (queue_add env name data) (fun _ => True).
Proof.
  unfold queue_add. eapply inv_bind; [apply inv_log|]. intros _ _.
  destruct (queue_add_outcome _ _ _); [apply inv_throw|by apply inv_ret].
Qed.

Lemma inv_publishOrderCreated env o :
  inv_triple G D (publishOrderCreated env o) (fun _ => True).
Proof.
  unfold publishOrderCreated. apply inv_try_catch; [|intros e; apply inv_throw].
  eapply inv_bind; [apply inv_clock|]. intros t _.
  eapply inv_bind; [apply inv_kafka_emit|]. intros _ _. apply inv_rabbit_emit.
Qed.

Lemma inv_publishOrderStatusChanged env o :
  inv_triple G D (publishOrderStatusChanged env o) (fun _ => True).
Proof.
  unfold publishOrderStatusChanged.
  apply inv_try_catch; [|intros e; apply inv_throw].
  eapply inv_bind; [apply inv_clock|]. intros t _.
  eapply inv_bind; [apply inv_kafka_emit|]. intros _ _.
  destruct (decide _); [apply inv_rabbit_emit|by apply inv_ret].
Qed.

Lemma inv_invalidateUserOrdersCache env userId :
  inv_triple G D (invalidateUserOrdersCache env userId) (fun _ => True).
Proof.
  unfold invalidateUserOrdersCache.
  eapply inv_bind with (R := fun _ => True).
  - destruct (keys_supported env); [apply inv_cache_keys|by apply inv_ret].
  - intros keys _. destruct keys; [by apply inv_ret|].
    apply inv_promise_all. intros k. apply inv_cache_del.
Qed.

Lemma inv_findOne env id : inv_triple G D (findOne env id) G.
Proof.
  unfold findOne. eapply inv_bind; [apply inv_cache_get_order|].
  intros [c|] Hc; [apply inv_ret; eauto|].
  eapply inv_bind; [apply inv_repository_findOne|].
  intros [o|] Ho; [|apply inv_throw].
  eapply inv_bind; [apply inv_cache_set_order; eauto|].
  intros _ _. apply inv_ret; eauto.
Qed.

Lemma inv_findByUser userId page limit :
  inv_triple G D (findByUser userId page limit) (fun _ => True).
Proof.
  unfold findByUser. eapply inv_bind; [apply inv_cache_get_listing|].
  intros [r|] _; [by apply inv_ret|].
  eapply inv_bind; [apply inv_repository_findAndCount|]. intros r _.
  eapply inv_bind; [apply inv_cache_set_listing|]. intros _ _. by apply inv_ret.
Qed.

Lemma inv_validateStatusTransition cur new :
  inv_triple G D (validateStatusTransition cur new) (fun _ => allowedNext cur new).
Proof.
  unfold validateStatusTransition. destruct (decide _) as [Hin|Hin].
  - apply inv_ret. by apply validTransitions_allowedNext.
  - apply inv_throw.
Qed.

Lemma inv_updateStatus env id updateDto :
  inv_triple G D (updateStatus env id updateDto) G.
Proof.
  unfold updateStatus. eapply inv_bind; [apply inv_findOne|]. intros order Ho.
  eapply inv_bind; [apply inv_validateStatusTransition|]. intros [] Hedge.
  eapply inv_bind; [apply inv_clock|]. intros t _.
  eapply inv_bind; [apply inv_repository_save; by apply G_apply_update|].
  intros updatedOrder Hu.
  eapply inv_bind; [apply inv_publishOrderStatusChanged|]. intros _ _.
  eapply inv_bind; [apply inv_cache_del|]. intros _ _.
  eapply inv_bind; [apply inv_invalidateUserOrdersCache|]. intros _ _.
  by apply inv_ret.
Qed.

Lemma inv_createOrder env createOrderDto :
  inv_triple G D (createOrder env createOrderDto) (fun o => G (row_of env o)).
Proof.
  unfold createOrder. eapply inv_bind; [by apply inv_repository_insert|].
  intros savedOrder Hs.
  eapply inv_bind; [apply inv_publishOrderCreated|]. intros _ _.
  eapply inv_bind; [apply inv_queue_add|]. intros _ _.
  eapply inv_bind; [apply inv_invalidateUserOrdersCache|]. intros _ _.
  by apply inv_ret.
Qed.

Lemma inv_pipeline env orderId :
  inv_triple G D (pipeline env orderId) (fun _ => True).
Proof.
  unfold pipeline, progress, validateOrder, checkInventory, reserveInventory,
    initiatePayment.
  eapply inv_bind; [apply inv_log|]. intros _ _.
  eapply inv_bind with (R := fun _ => True).
  { eapply inv_bind; [apply inv_findOne|]. intros o _.
    destruct (Order.items o); [apply inv_throw|by apply inv_ret]. }
  intros _ _. eapply inv_bind; [apply inv_log|]. intros _ _.
  eapply inv_bind with (R := fun _ => True).
  { eapply inv_bind; [apply inv_log|]. intros _ _. by apply inv_ret. }
  intros available _. destruct (negb available); [apply inv_throw|].
  eapply inv_bind; [apply inv_log|]. intros _ _.
  eapply inv_bind with (R := fun _ => True).
  { eapply inv_bind; [apply inv_log|]. intros _ _.
    destruct (reserve_outcome _ _); [apply inv_throw|by apply inv_ret]. }
  intros _ _. eapply inv_bind; [apply inv_log|]. intros _ _.
  eapply inv_bind with (R := fun _ => True).
  { eapply inv_bind; [apply inv_log|]. intros _ _.
    destruct (payment_outcome _ _); [apply inv_throw|by apply inv_ret]. }
  intros _ _. eapply inv_bind; [apply inv_log|]. intros _ _.
  eapply inv_bind; [apply inv_updateStatus|]. intros _ _. by apply inv_ret.
Qed.

Lemma inv_handleOrderProcessing env job :
  inv_triple G D (handleOrderProcessing env job) (fun _ => True).
Proof.
  unfold handleOrderProcessing. apply inv_try_catch; [apply inv_pipeline|].
  intros e. unfold on_failure.
  eapply inv_bind; [apply inv_updateStatus|]. intros _ _. apply inv_throw.
Qed.

(** Every operation keeps the state good. *)
Lemma good_state_run_op env op st :
  good_state G D st -> good_state G D (run_op env op st).
Proof.
  intros Hg. destruct op; simpl.
  - by apply (inv_createOrder env createOrderDto st).
  - by apply (inv_findOne env id st).
  - by apply (inv_findByUser userId page limit st).
  - by apply (inv_updateStatus env id updateDto st).
  - by apply (inv_updateStatus env id _ st).
  - by apply (inv_handleOrderProcessing env job st).
  - destruct Hg as (Hs & Hc & HD). split; [done|]. split; [|done].
    intros key c e Hk Hlive. simpl in *. apply (Hc key c e Hk). lia.
Qed.

End GoodStates.

(** ** The cancellation fields *)

Lemma allowedNext_not_from_cancelled cur new :
  allowedNext cur new -> cur <> CANCELLED.
Proof. by destruct 1. Qed.

Lemma cancel_fields_wf_apply_update c updateDto t :
  cancel_fields_wf c ->
  allowedNext (Order.status c) (UpdateOrderStatusDto.status updateDto) ->
  cancel_fields_wf (apply_update t updateDto c).
Proof.
  intros [Hat Hreason] Hedge. apply allowedNext_not_from_cancelled in Hedge.
  unfold apply_update, cancel_fields_wf.
  destruct (decide _) as [Hc|Hc]; simpl.
  - split; split; eauto.
  - split; (split; [intros Hsome|done]).
    + by apply Hat in Hsome.
    + by apply Hreason in Hsome.
Qed.

Lemma cancel_fields_wf_new row :
  Order.cancelledAt row = None -> Order.cancelReason row = None ->
  Order.status row <> CANCELLED -> cancel_fields_wf row.
Proof.
  intros Hat Hreason Hst. unfold cancel_fields_wf. rewrite Hat, Hreason.
  split; (split; [by intros [? ?]|done]).
Qed.

Lemma reachable_good st : reachable st -> good_state cancel_fields_wf ∅ st.
Proof.
  induction 1 as [|env op st _ IH].
  - split; [|split]; [intros ? ? H|intros ? ? ? H|set_solver]; by simpl in H.
  - apply good_state_run_op; [|done| |done].
    + intros c updateDto t. apply cancel_fields_wf_apply_update.
    + intros row _. apply cancel_fields_wf_new.
Qed.

Section OneOrder.

(** The order under [k] holds [o0] when the operation starts. *)
Variable k : string.
Variable o0 : Order.t.
Hypothesis o0_wf : cancel_fields_wf o0.

Lemma tracked_apply_update c updateDto t :
  tracked k o0 c ->
  allowedNext (Order.status c) (UpdateOrderStatusDto.status updateDto) ->
  tracked k o0 (apply_update t updateDto c).
Proof.
  intros [Hwf Hstep] Hedge. split; [by apply cancel_fields_wf_apply_update|].
  rewrite apply_update_id. intros Hk. specialize (Hstep Hk).
  pose proof (allowedNext_not_from_cancelled _ _ Hedge) as Hlive.
  destruct Hstep as [[Hat Hreason]|[_ Hcancelled]]; [|done].
  unfold apply_update. destruct (decide _) as [Hc|Hc]; simpl.
  - right. split; [|done]. intros H0.
    apply (proj1 o0_wf) in H0. rewrite <- Hat in H0.
    by apply (proj1 Hwf) in H0.
  - left. done.
Qed.

Lemma tracked_start st :
  good_state cancel_fields_wf ∅ st -> coherent st -> store st !! k = Some o0 ->
  good_state (tracked k o0) {[k]} st.
Proof.
  intros (Hs & Hc & _) Hcoh Hk. split; [|split].
  - intros key o Ho. destruct (Hs key o Ho) as [Hid Hwf].
    split; [done|]. split; [done|]. intros Hidk.
    assert (o = o0) as -> by congruence. by left.
  - intros key c e Hkey Hlive. split; [by eapply Hc|]. intros Hidk.
    pose proof (Hcoh key c e Hkey Hlive) as Hrow. rewrite Hidk in Hrow.
    assert (c = o0) as -> by congruence. by left.
  - apply singleton_subseteq_l, elem_of_dom. eauto.
Qed.

Lemma tracked_run_op env op st :
  good_state (tracked k o0) {[k]} st ->
  exists o', store (run_op env op st) !! k = Some o' /\ cancel_fields_step o0 o'.
Proof.
  intros Hg.
  assert (Hg' : good_state (tracked k o0) {[k]} (run_op env op st)).
  { apply good_state_run_op; [apply tracked_apply_update|by intros o t [? ?]| |done].
    intros row Hid Hat Hreason Hst. split; [by apply cancel_fields_wf_new|].
    intros Hk. by apply not_elem_of_singleton in Hid. }
  destruct Hg' as (Hs & _ & HD).
  apply singleton_subseteq_l, elem_of_dom in HD as [o' Ho'].
  exists o'. split; [done|]. destruct (Hs k o' Ho') as [Hid [_ Hstep]]. auto.
Qed.

End OneOrder.

(** The sample order is cancelled with reason ["first"] at instant 0
    while the cache refuses deletes: the row is saved and the event
    published, then the delete of the order's key rejects, [cancelOrder]
    throws, and the pending copy that [findOne] cached stays. Ten seconds
    later a second cancellation passes validation on that copy and writes
    both fields again. *)
Lemma cancel_fields_rewritten_after_failed_delete :
  reachable st_cancelled_twice
  /\ (cancelOrder cache_down "0" "first" st_created).1
     = Err (CacheError "connection lost")
  /\ (exists o,
      store st_cancel_uncleared !! "0" = Some o
      /\ Order.status o = CANCELLED
      /\ Order.cancelledAt o = Some 0
      /\ Order.cancelReason o = Some "first")
  /\ (exists c,
      cached_order st_cancel_uncleared "0" = Some c /\ Order.status c = PENDING)
  /\ (exists o st',
      cancelOrder reliable "0" "second" (run_op reliable (OpTick 10) st_cancel_uncleared)
      = (Ok o, st'))
  /\ (exists o,
      store st_cancelled_twice !! "0" = Some o
      /\ Order.status o = CANCELLED
      /\ Order.cancelledAt o = Some 10
      /\ Order.cancelReason o = Some "second").
Proof.
  split; [|split; [|split; [|split; [|split]]]].
  - do 3 apply reachable_step.
    apply (reachable_step reliable (OpCreateOrder sample_dto)).
    apply reachable_initial.
  - by vm_compute.
  - eexists. split; [by vm_compute|]. done.
  - eexists. split; [by vm_compute|]. done.
  - destruct (cancelOrder reliable "0" "second" _) as [[o|e] st'] eqn:H;
      [eauto|by vm_compute in H].
  - eexists. split; [by vm_compute|]. done.
Qed.

(** C9, amended. In every reachable state each stored order, and each
    live cached copy, has [cancelledAt] and [cancelReason] set if and only
    if its status is [CANCELLED]. From a reachable state in which every live cached copy
    equals its stored row, no operation removes an order, and an operation
    changes the two fields of a stored order only by moving it from a status
    other than [CANCELLED] into [CANCELLED]; so the fields of a cancelled
    order are not written again. *)
Theorem cancellation_fields_invariant :
  (forall st id o,
      reachable st -> store st !! id = Some o -> cancel_fields_wf o)
  /\ (forall st key c e,
      reachable st -> cache_orders st !! key = Some (c, e) -> now st < e ->
      cancel_fields_wf c)
  /\ (forall st env op id o,
      reachable st -> coherent st -> store st !! id = Some o ->
      exists o',
        store (run_op env op st) !! id = Some o'
        /\ cancel_fields_step o o'
        /\ (Order.status o = CANCELLED ->
            Order.cancelledAt o' = Order.cancelledAt o
            /\ Order.cancelReason o' = Order.cancelReason o)).
Proof.
  split; [|split].
  - intros st id o Hr Ho. apply reachable_good in Hr as (Hs & _).
    by apply Hs in Ho as [_ ?].
  - intros st key c e Hr Hkey Hlive. apply reachable_good in Hr as (_ & Hc & _).
    by eapply Hc.
  - intros st env op id o Hr Hcoh Ho.
    pose proof (reachable_good _ Hr) as Hg.
    assert (Hwf : cancel_fields_wf o).
    { destruct Hg as (Hs & _). by apply Hs in Ho as [_ ?]. }
    destruct (tracked_run_op id o Hwf env op st) as (o' & Ho' & Hstep).
    { by apply tracked_start. }
    exists o'. split; [done|]. split; [done|].
    intros Hc. by destruct Hstep as [?|[? _]].
Qed.

Lemma cancellation_fields_invariant_witness :
  exists o',
    store (run_op reliable (OpCancelOrder "0" "changed my mind") st_created) !! "0"
    = Some o'
    /\ cancel_fields_step (row_of reliable (new_order initial_state sample_dto)) o'
    /\ cancel_fields_wf o'.
Proof.
  assert (Hr : reachable st_created).
  { apply (reachable_step reliable (OpCreateOrder sample_dto)), reachable_initial. }
  assert (Hcoh : coherent st_created).
  { intros key c e H. by vm_compute in H. }
  assert (Ho : store st_created !! "0"
               = Some (row_of reliable (new_order initial_state sample_dto))).
  { by vm_compute. }
  destruct (proj2 (proj2 cancellation_fields_invariant) st_created reliable
              (OpCancelOrder "0" "changed my mind") "0" _ Hr Hcoh Ho)
    as (o' & Ho' & Hstep & _).
  exists o'. split; [done|]. split; [done|].
  apply (proj1 cancellation_fields_invariant
           (run_op reliable (OpCancelOrder "0" "changed my mind") st_created)
           "0" o'); [|done].
  by apply reachable_step.
Defined.

(** ** Coherence of the cache in steady histories *)

Lemma shrinks_ret {A} (a : A) : shrinks (ret a).
Proof. by intros st. Qed.

Lemma shrinks_throw {A} e : shrinks (@throw A e).
Proof. by intros st. Qed.

Lemma shrinks_log c : shrinks (log c).
Proof. by intros st. Qed.

Lemma shrinks_bind {A B} (m : M A) (k : A -> M B) :
  shrinks m -> (forall a, shrinks (k a)) -> shrinks (bind m k).
Proof.
  intros Hm Hk st. unfold bind. destruct (Hm st) as (Hs & Hn & Hc).
  destruct (m st) as [[a|e] st1]; simpl in *; [|done].
  destruct (Hk a st1) as (Hs' & Hn' & Hc').
  split; [congruence|]. split; [congruence|]. by etrans.
Qed.

Lemma shrinks_try_catch {A} (m : M A) h :
  shrinks m -> (forall e, shrinks (h e)) -> shrinks (try_catch m h).
Proof.
  intros Hm Hh st. unfold try_catch. destruct (Hm st) as (Hs & Hn & Hc).
  destruct (m st) as [[a|e] st1]; simpl in *; [done|].
  destruct (Hh e st1) as (Hs' & Hn' & Hc').
  split; [congruence|]. split; [congruence|]. by etrans.
Qed.

Lemma shrinks_promise_all {A} (f : A -> M unit) l :
  (forall a, shrinks (f a)) -> shrinks (promise_all f l).
Proof.
  intros Hf. induction l as [|a l IH]; simpl.
  - apply shrinks_ret.
  - intros st. destruct (Hf a st) as (Hs & Hn & Hc).
    destruct (f a st) as [[[]|e] st1]; simpl in *;
      destruct (IH st1) as (Hs' & Hn' & Hc');
      (split; [congruence|]); (split; [congruence|]); by etrans.
Qed.

Lemma shrinks_cache_del env key : shrinks (cache_del env key).
Proof.
  intros st. rewrite cache_del_run. destruct (cache_del_outcome env key); [done|].
  split; [done|]. split; [done|]. apply delete_subseteq.
Qed.

Lemma shrinks_cache_keys env prefix : shrinks (cache_keys env prefix).
Proof. intros st. unfold cache_keys. run. done. Qed.

Lemma shrinks_invalidateUserOrdersCache env userId :
  shrinks (invalidateUserOrdersCache env userId).
Proof.
  unfold invalidateUserOrdersCache. apply shrinks_bind.
  - destruct (keys_supported env); [apply shrinks_cache_keys|apply shrinks_ret].
  - intros [|k keys]; [apply shrinks_ret|].
    apply shrinks_promise_all, shrinks_cache_del.
Qed.

Lemma shrinks_kafka_emit topic msg : shrinks (kafka_emit topic msg).
Proof. apply shrinks_log. Qed.

Lemma shrinks_rabbit_emit env pattern msg : shrinks (rabbit_emit env pattern msg).
Proof.
  unfold rabbit_emit. apply shrinks_bind; [apply shrinks_log|]. intros _.
  destruct (rabbit_emit_outcome _ _ _); [apply shrinks_throw|apply shrinks_ret].
Qed.

Lemma shrinks_queue_add env name data : shrinks (queue_add env name data).
Proof.
  unfold queue_add. apply shrinks_bind; [apply shrinks_log|]. intros _.
  destruct (queue_add_outcome _ _ _); [apply shrinks_throw|apply shrinks_ret].
Qed.

Lemma shrinks_publishOrderCreated env o : shrinks (publishOrderCreated env o).
Proof.
  unfold publishOrderCreated.
  apply shrinks_try_catch; [|intros e; apply shrinks_throw].
  apply shrinks_bind; [by intros st|]. intros t.
  apply shrinks_bind; [apply shrinks_kafka_emit|]. intros _.
  apply shrinks_rabbit_emit.
Qed.

Lemma shrinks_after_save env o : shrinks (after_save env o).
Proof.
  unfold after_save.
  apply shrinks_bind; [apply shrinks_publishOrderCreated|]. intros _.
  apply shrinks_bind; [apply shrinks_queue_add|]. intros _.
  apply shrinks_bind; [apply shrinks_invalidateUserOrdersCache|]. intros _.
  apply shrinks_ret.
Qed.

Lemma order_key_inj id1 id2 : order_key id1 = order_key id2 -> id1 = id2.
Proof. unfold order_key. intros H. by simplify_eq/=. Qed.







Lemma shrinks_findByUser userId page limit : shrinks (findByUser userId page limit).
Proof.
  intros st. unfold findByUser, cache_get_listing, repository_findAndCount,
    cache_set_listing. run.
  destruct (cache_listings st !! _ ≫= live (now st)); cbn; [done|].
  repeat (destruct (decide _); cbn; try done).
Qed.

Lemma after_update_save_steady env id row st :
  steady env ->
  exists st',
    after_update_save env id row st = (Ok row, st')
    /\ store st' = store st /\ now st' = now st
    /\ cache_orders st' ⊆ delete (order_key id) (cache_orders st).
Proof.
  intros [Hr Hd]. unfold after_update_save.
  assert (Hpub : exists l,
             publishOrderStatusChanged env row st = (Ok tt, log_calls l st)).
  { rewrite publishOrderStatusChanged_run.
    destruct (decide _); [rewrite Hr|]; eauto. }
  destruct Hpub as [l Hpub]. erewrite bind_ok; [|exact Hpub].
  assert (Hdel : forall s,
             cache_del env (order_key id) s
             = (Ok tt,
                set_cache_listings (delete (order_key id) (cache_listings s))
                  (set_cache_orders (delete (order_key id) (cache_orders s))
                     (log_calls [CacheDel (order_key id)] s)))).
  { intros s. by rewrite cache_del_run, Hd. }
  assert (Hrest : forall s,
             exists st',
               (cache_del env (order_key id) ;;
                invalidateUserOrdersCache env (Order.userId row) ;; ret row) s
               = (Ok row, st')
               /\ store st' = store s /\ now st' = now s
               /\ cache_orders st' ⊆ delete (order_key id) (cache_orders s)).
  { intros s. erewrite bind_ok; [|apply Hdel].
    match goal with |- context [bind (invalidateUserOrdersCache env ?u) _ ?s0] =>
      destruct (invalidateUserOrdersCache_run env u s0)
        as (r & st' & Hi & _ & _ & _ & _ & Hok);
      destruct (shrinks_invalidateUserOrdersCache env u s0) as (Hs' & Hn' & Hc')
    end.
    rewrite Hok in Hi by (intros key _; apply Hd).
    rewrite Hi in Hs', Hn', Hc'. simpl in *.
    erewrite bind_ok; [|exact Hi]. exists st'. done. }
  destruct (Hrest (log_calls l st)) as (st' & Heq & Hs' & Hn' & Hc').
  exists st'. done.
Qed.














(** ** Invalidation after a successful [updateStatus] *)

Lemma promise_all_cache_del_caches env keys st :
  cache_orders (promise_all (cache_del env) keys st).2 ⊆ cache_orders st
  /\ cache_listings (promise_all (cache_del env) keys st).2 ⊆ cache_listings st
  /\ ((promise_all (cache_del env) keys st).1 = Ok tt ->
      forall k,
        k ∈ keys -> cache_listings (promise_all (cache_del env) keys st).2 !! k = None)
  /\ now (promise_all (cache_del env) keys st).2 = now st.
Proof.
  revert st. induction keys as [|k keys IH]; intros st; simpl.
  - split; [done|]. split; [done|]. split; [by intros _ k ?%elem_of_nil|done].
  - rewrite cache_del_run. destruct (cache_del_outcome env k) as [m|].
    + match goal with |- context [promise_all (cache_del env) keys ?s] =>
        destruct (IH s) as (Ho & Hl & _ & Hn) end.
      simpl in *. done.
    + match goal with |- context [promise_all (cache_del env) keys ?s] =>
        destruct (IH s) as (Ho & Hl & Hgone & Hn) end.
      simpl in *. split; [|split; [|split; [|done]]].
      * etrans; [exact Ho|]. apply delete_subseteq.
      * etrans; [exact Hl|]. apply delete_subseteq.
      * intros Hok k' [->|Hin]%elem_of_cons; [|by apply Hgone].
        eapply lookup_weaken_None; [|exact Hl]. apply lookup_delete_eq.
Qed.

Lemma matching_keys_complete env st prefix key r e :
  cache_listings st !! key = Some (r, e) -> now st < e ->
  key_matches env prefix key = true ->
  key ∈ matching_keys env st prefix.
Proof.
  intros Hkey Hlive Hp. unfold matching_keys.
  apply list_elem_of_filter. split; [done|].
  apply elem_of_app. right. unfold live_keys.
  apply list_elem_of_fmap. exists (key, (r, e)). split; [done|].
  apply list_elem_of_filter. split; [done|].
  by apply elem_of_map_to_list.
Qed.

Lemma invalidateUserOrdersCache_caches env userId st :
  cache_orders (invalidateUserOrdersCache env userId st).2 ⊆ cache_orders st
  /\ now (invalidateUserOrdersCache env userId st).2 = now st
  /\ (keys_supported env = true ->
      (invalidateUserOrdersCache env userId st).1 = Ok tt ->
      forall key,
        key_matches env (listing_prefix userId) key = true ->
        cache_listings (invalidateUserOrdersCache env userId st).2 !! key
          ≫= live (now st) = None).
Proof.
  unfold invalidateUserOrdersCache.
  destruct (keys_supported env).
  - unfold cache_keys. run.
    fold (matching_keys env st (listing_prefix userId)).
    destruct (matching_keys env st (listing_prefix userId)) as [|k keys] eqn:Hkeys.
    + simpl. split; [done|]. split; [done|]. intros _ _ key Hp.
      destruct (cache_listings st !! key) as [[r e]|] eqn:Hkey; [|done].
      simpl. unfold live. simpl. case_decide as Hlive; [|done].
      pose proof (matching_keys_complete env st _ key r e Hkey Hlive Hp) as Hin.
      rewrite Hkeys in Hin. by apply elem_of_nil in Hin.
    + match goal with |- context [promise_all (cache_del env) ?l ?s] =>
        destruct (promise_all_cache_del_caches env l s) as (Ho & Hl & Hgone & Hn) end.
      simpl in *. split; [done|]. split; [done|]. intros _ Hok key Hp.
      match goal with |- ?m !! key ≫= _ = None =>
        destruct (m !! key) as [[r e]|] eqn:Hkey; [|done] end.
      simpl. unfold live. simpl. case_decide as Hlive; [|done].
      eapply lookup_weaken in Hkey as Hkey0; [|exact Hl]. simpl in Hkey0.
      pose proof (matching_keys_complete env st _ key r e Hkey0 Hlive Hp) as Hin.
      rewrite Hkeys in Hin. apply (Hgone Hok) in Hin. congruence.
  - run. split; [done|]. split; [done|]. done.
Qed.

Lemma prefix_app (s t : string) : String.prefix s (s +:+ t) = true.
Proof.
  induction s as [|a s IH]; simpl; [by destruct t|].
  destruct (Ascii.ascii_dec a a); [exact IH|done].
Qed.

Lemma listing_key_prefix userId page limit :
  String.prefix (listing_prefix userId) (listing_key userId page limit) = true.
Proof.
  unfold listing_key. apply prefix_app.
Qed.

Lemma glob_free_app (s t : string) :
  glob_free (s +:+ t) = glob_free s && glob_free t.
Proof.
  induction s as [|a s IH]; simpl; [done|]. rewrite IH. by rewrite andb_assoc.
Qed.

(** For a user id with no glob character the pattern of
    [invalidateUserOrdersCache] selects every listing key of the user. *)
Lemma listing_key_matches env userId page limit :
  glob_free userId = true ->
  key_matches env (listing_prefix userId) (listing_key userId page limit) = true.
Proof.
  intros Hfree. unfold key_matches.
  assert (Hp : glob_free (listing_prefix userId) = true).
  { unfold listing_prefix. by rewrite !glob_free_app, Hfree. }
  rewrite Hp. apply listing_key_prefix.
Qed.

Lemma after_update_save_caches env id row st r st' :
  after_update_save env id row st = (Ok r, st') ->
  now st' = now st
  /\ cache_orders st' !! order_key id = None
  /\ (keys_supported env = true ->
      forall key,
        key_matches env (listing_prefix (Order.userId row)) key = true ->
        cache_listings st' !! key ≫= live (now st') = None).
Proof.
  unfold after_update_save. intros H.
  apply bind_ok_inv in H as ([] & s1 & Hpub & H).
  apply bind_ok_inv in H as ([] & s2 & Hdel & H).
  apply bind_ok_inv in H as ([] & s3 & Hinv & H).
  injection H as _ <-.
  assert (Hn1 : now s1 = now st).
  { rewrite publishOrderStatusChanged_run in Hpub.
    destruct (decide _); [destruct (rabbit_emit_outcome _ _ _); [done|]|];
      by injection Hpub as <-. }
  assert (Hd : now s2 = now s1
               /\ cache_orders s2 = delete (order_key id) (cache_orders s1)).
  { rewrite cache_del_run in Hdel.
    destruct (cache_del_outcome _ _); [done|]. by injection Hdel as <-. }
  destruct Hd as [Hn2 Hd].
  destruct (invalidateUserOrdersCache_caches env (Order.userId row) s2)
    as (Ho & Hn3 & Hgone).
  rewrite Hinv in Ho, Hn3, Hgone. simpl in *.
  split; [congruence|]. split.
  - eapply lookup_weaken_None; [|exact Ho]. rewrite Hd. apply lookup_delete_eq.
  - intros Hks key Hp. rewrite Hn3. by apply Hgone.
Qed.

(** After a successful [updateStatus] the cache answers neither the
    single-order key of the order nor, where the store lists its keys, any
    key that the pattern of the user's listings selects; for a user id with
    no glob character these are all the listing keys of the user. Then the
    next [findOne] and the next [findByUser] read the table. *)
Theorem updateStatus_invalidates_caches env id updateDto st o st' :
  updateStatus env id updateDto st = (Ok o, st') ->
  cached_order st' id = None
  /\ (keys_supported env = true ->
      forall key,
        key_matches env (listing_prefix (Order.userId o)) key = true ->
        cache_listings st' !! key ≫= live (now st') = None)
  /\ (keys_supported env = true -> glob_free (Order.userId o) = true ->
      forall page limit,
        cache_listings st' !! listing_key (Order.userId o) page limit
          ≫= live (now st') = None).
Proof.
  intros H.
  destruct (findOne env id st) as [[current|e] st1] eqn:Hload;
    [|by rewrite (updateStatus_findOne_fails _ _ _ _ _ _ Hload) in H].
  destruct (decide (allowedNext (Order.status current)
                      (UpdateOrderStatusDto.status updateDto))) as [Hedge|Hoff];
    [|by rewrite (updateStatus_invalid _ _ _ _ _ _ Hload Hoff) in H].
  rewrite (updateStatus_valid _ _ _ _ _ _ Hload Hedge) in H.
  destruct (save_outcome env (apply_update (now st1) updateDto current))
    as [m|] eqn:Hsave.
  { by rewrite (commit_update_save_fails _ _ _ _ _ _ Hsave) in H. }
  rewrite (commit_update_saved _ _ _ _ _ Hsave) in H.
  pose proof (after_update_save_ok _ _ _ _ _ _ H) as ->.
  apply after_update_save_caches in H as (_ & Hone & Hlist).
  split; [|split].
  - unfold cached_order. by rewrite Hone.
  - intros Hks key Hp. by apply Hlist.
  - intros Hks Hfree page limit. apply Hlist; [done|].
    by apply listing_key_matches.
Qed.

Lemma updateStatus_invalidates_caches_witness :
  cached_order (updateStatus reliable "0" confirm_dto st_listed).2 "0" = None
  /\ cache_listings (updateStatus reliable "0" confirm_dto st_listed).2
       !! listing_key "user-123" 1 10 ≫= live (now st_listed) = None.
Proof.
  destruct (updateStatus reliable "0" confirm_dto st_listed) as [[o|e] st'] eqn:H;
    [|by vm_compute in H].
  destruct (updateStatus_invalidates_caches _ _ _ _ _ _ H) as (Hone & _ & Hlist).
  split; [exact Hone|].
  assert (Hu : Order.userId o = "user-123") by (vm_compute in H; by injection H as <- _).
  assert (Hn : now st' = now st_listed) by (vm_compute in H; by injection H as _ <-).
  rewrite <- Hu, <- Hn. apply Hlist; [done|]. by rewrite Hu.
Defined.

(** ** Invariants of every reachable state *)

Lemma hoare_ret {A} I (a : A) (Q : A -> Prop) : Q a -> hoare I (ret a) Q.
Proof. intros HQ st HI. split; [done|]. by intros ? [= <-]. Qed.

Lemma hoare_throw {A} I e (Q : A -> Prop) : hoare I (throw e) Q.
Proof. intros st HI. split; done. Qed.

Lemma hoare_bind {A B} I (m : M A) (k : A -> M B) (R : A -> Prop) (Q : B -> Prop) :
  hoare I m R -> (forall a, R a -> hoare I (k a) Q) -> hoare I (bind m k) Q.
Proof.
  intros Hm Hk st HI. unfold bind. destruct (Hm st HI) as [HI1 HR].
  destruct (m st) as [[a|e] st1]; simpl in *; [|done].
  by apply Hk; [apply HR|].
Qed.

Lemma hoare_try_catch {A} I (m : M A) h (Q : A -> Prop) :
  hoare I m Q -> (forall e, hoare I (h e) Q) -> hoare I (try_catch m h) Q.
Proof.
  intros Hm Hh st HI. unfold try_catch. destruct (Hm st HI) as [HI1 HQ].
  destruct (m st) as [[a|e] st1]; simpl in *; [done|]. by apply Hh.
Qed.

Lemma hoare_weaken {A} I (m : M A) (Q Q' : A -> Prop) :
  hoare I m Q -> (forall a, Q a -> Q' a) -> hoare I m Q'.
Proof. intros Hm HQ st HI. destruct (Hm st HI). split; auto. Qed.

Lemma sound_shrunk st st' :
  sound st -> store st' = store st -> now st' = now st ->
  cache_orders st' ⊆ cache_orders st -> sound st'.
Proof.
  intros (Hs & Hk) Hst Hn Hsub. split.
  - rewrite Hst. apply Hs.
  - intros key c e H. rewrite Hst, Hn. eapply Hk, lookup_weaken; eauto.
Qed.

Lemma hoare_sound_shrinks {A} (m : M A) :
  shrinks m -> hoare sound m (fun _ => True).
Proof.
  intros Hm st HI. destruct (Hm st) as (Hs & Hn & Hc).
  split; [by eapply sound_shrunk|done].
Qed.

(** In a sound state a live copy cached for [id] is a copy of the order
    [id], and that order is in the table. *)
Lemma sound_cached_order st id c :
  sound st -> cached_order st id = Some c ->
  Order.id c = id /\ is_Some (store st !! id).
Proof.
  intros (Hs & Hk) Hc. unfold cached_order in Hc.
  destruct (cache_orders st !! order_key id) as [[c' e]|] eqn:Hkey; [|done].
  simpl in Hc. unfold live in Hc. case_decide; [|done].
  simpl in Hc. injection Hc as ->.
  apply Hk in Hkey as (Heq & Hin & _). apply order_key_inj in Heq.
  by subst id.
Qed.

Lemma sound_findOne env id :
  hoare sound (findOne env id) (fun c => Order.id c = id).
Proof.
  intros st HI. pose proof HI as (Hs & Hk).
  destruct (cached_order st id) as [c|] eqn:Hcache.
  - rewrite (findOne_hit _ _ _ Hcache). split; [done|].
    intros c' [= <-]. by apply (sound_cached_order st).
  - destruct (store st !! id) as [r|] eqn:Hrow.
    + rewrite (findOne_miss_found _ _ _ Hcache Hrow). simpl.
      pose proof (Hs _ _ Hrow) as Hid.
      split; [|by intros c [= <-]].
      split; [done|].
      intros key c e. simpl. rewrite lookup_insert.
      case_decide; [|apply Hk].
      intros [= <- <-]. subst key. rewrite Hid, Hrow. split; [done|].
      split; [done|lia].
    + by destruct (findOne_miss_fails (env:=env) _ _ Hcache Hrow) as (e & -> & _).
Qed.

Lemma shrinks_publishOrderStatusChanged env o :
  shrinks (publishOrderStatusChanged env o).
Proof.
  intros st. rewrite publishOrderStatusChanged_run.
  destruct (decide _); [|done].
  by destruct (rabbit_emit_outcome _ _ _).
Qed.

Lemma shrinks_after_update_save env id o : shrinks (after_update_save env id o).
Proof.
  unfold after_update_save.
  repeat first
    [ apply shrinks_publishOrderStatusChanged
    | apply shrinks_cache_del
    | apply shrinks_invalidateUserOrdersCache
    | apply shrinks_ret
    | apply shrinks_bind; [|intros ?] ].
Qed.

(** Saving a row under an id that is in the table keeps the state sound. *)
Lemma sound_after_update st row :
  sound st -> is_Some (store st !! Order.id row) -> sound (after_update st row).
Proof.
  intros (Hs & Hk) Hin. split.
  - intros key o. simpl. rewrite lookup_insert.
    case_decide; [by intros [= <-]|apply Hs].
  - intros key c e H. simpl in *. destruct (Hk _ _ _ H) as (Hkey & Hc & He).
    split; [done|]. split; [|done].
    rewrite lookup_insert. by case_decide.
Qed.

Lemma sound_updateStatus env id updateDto :
  hoare sound (updateStatus env id updateDto) (fun o => Order.id o = id).
Proof.
  intros st HI.
  destruct (sound_findOne env id st HI) as (HI1 & Hid).
  destruct (findOne env id st) as [[current|e] st1] eqn:Hload; simpl in *.
  2: { by rewrite (updateStatus_findOne_fails _ _ _ _ _ _ Hload). }
  specialize (Hid current eq_refl).
  destruct (decide (allowedNext (Order.status current)
                      (UpdateOrderStatusDto.status updateDto))) as [Hedge|Hoff].
  2: { by rewrite (updateStatus_invalid _ _ _ _ _ _ Hload Hoff). }
  rewrite (updateStatus_valid _ _ _ _ _ _ Hload Hedge).
  destruct (save_outcome env (apply_update (now st1) updateDto current))
    as [m|] eqn:Hsave.
  { by rewrite (commit_update_save_fails _ _ _ _ _ _ Hsave). }
  rewrite (commit_update_saved _ _ _ _ _ Hsave).
  assert (Hrow : Order.id (updated_row (now st1) updateDto current) = id).
  { unfold updated_row. simpl. by rewrite apply_update_id. }
  assert (Hin : is_Some (store st1 !! id)).
  { pose proof (findOne_store (env:=env) id st) as Hst.
    rewrite Hload in Hst. simpl in Hst.
    rewrite Hst. destruct (cached_order st id) as [c|] eqn:Hcache.
    - by apply (sound_cached_order st id c).
    - destruct (store st !! id) eqn:Hr; [done|].
      by destruct (findOne_miss_fails (env:=env) _ _ Hcache Hr) as (e & He & _);
        rewrite He in Hload. }
  split.
  - apply (hoare_sound_shrinks _ (shrinks_after_update_save env id _)).
    apply sound_after_update; [done|]. by rewrite Hrow.
  - intros a Ha.
    destruct (after_update_save env id (updated_row (now st1) updateDto current)
                (after_update st1 (updated_row (now st1) updateDto current)))
      as [[r|e] s] eqn:Hrun; [|done].
    simpl in Ha. injection Ha as <-.
    by rewrite (after_update_save_ok _ _ _ _ _ _ Hrun).
Qed.

Lemma sound_createOrder env createOrderDto :
  hoare sound (createOrder env createOrderDto) (fun _ => True).
Proof.
  intros st HI. split; [|done].
  destruct (insert_outcome env (new_order st createOrderDto)) as [m|] eqn:Hsave.
  { by rewrite (createOrder_save_fails _ _ _ _ Hsave). }
  rewrite (createOrder_saved _ _ _ Hsave).
  apply (hoare_sound_shrinks _ (shrinks_after_save env _)).
  destruct HI as (Hs & Hk). split.
  - intros key o. simpl. rewrite lookup_insert.
    case_decide; [by intros [= <-]|apply Hs].
  - intros key c e H. simpl in *. destruct (Hk _ _ _ H) as (Hkey & Hc & He).
    split; [done|]. split; [|done].
    rewrite lookup_insert. by case_decide.
Qed.

Lemma sound_handleOrderProcessing env job :
  hoare sound (handleOrderProcessing env job) (fun _ => True).
Proof.
  unfold handleOrderProcessing.
  apply hoare_try_catch.
  - unfold pipeline, progress, validateOrder, checkInventory, reserveInventory,
      initiatePayment.
    repeat first
      [ eapply hoare_weaken; [apply sound_findOne|done]
      | eapply hoare_weaken; [apply sound_updateStatus|done]
      | eapply hoare_bind with (R := fun _ => True); [|intros ? _]
      | apply hoare_sound_shrinks, shrinks_log
      | apply hoare_ret; done
      | apply hoare_throw
      | match goal with |- hoare _ (match ?x with _ => _ end) _ => destruct x end
      | match goal with |- hoare _ (if ?x then _ else _) _ => destruct x end ].
  - intros e. unfold on_failure.
    eapply hoare_bind with (R := fun _ => True).
    + eapply hoare_weaken; [apply sound_updateStatus|done].
    + intros _ _. apply hoare_throw.
Qed.

Lemma sound_run_op env op st : sound st -> sound (run_op env op st).
Proof.
  intros HI. destruct op; simpl.
  - by apply sound_createOrder.
  - by apply sound_findOne.
  - by apply (hoare_sound_shrinks _ (shrinks_findByUser userId page limit)).
  - by apply sound_updateStatus.
  - by apply sound_updateStatus.
  - by apply sound_handleOrderProcessing.
  - destruct HI as (Hs & Hk). split; [done|].
    intros key c e H. simpl in *. destruct (Hk _ _ _ H) as (? & ? & ?).
    split; [done|]. split; [done|]. lia.
Qed.

Lemma reachable_sound st : reachable st -> sound st.
Proof.
  induction 1 as [|env op st _ IH].
  - split; intros ? ? ?; by simpl.
  - by apply sound_run_op.
Qed.

(** ** Listings *)

#[local] Instance newer_first_total : Total newer_first.
Proof. intros a b. unfold newer_first. lia. Qed.

#[local] Instance newer_first_trans : Transitive newer_first.
Proof. intros a b c. unfold newer_first. lia. Qed.

Lemma orders_of_user_length userId s :
  length (orders_of_user userId s)
  = length (filter (fun o => Order.userId o = userId) (map_to_list s).*2).
Proof. unfold orders_of_user. by rewrite merge_sort_Permutation. Qed.

Lemma orders_of_user_elem userId s o :
  o ∈ orders_of_user userId s
  <-> Order.userId o = userId /\ exists key, s !! key = Some o.
Proof.
  unfold orders_of_user. rewrite merge_sort_Permutation.
  rewrite list_elem_of_filter, list_elem_of_fmap. split.
  - intros [Hu ([key o'] & -> & Hin)]. split; [done|].
    exists key. by apply elem_of_map_to_list in Hin.
  - intros [Hu [key Hin]]. split; [done|].
    exists (key, o). split; [done|]. by apply elem_of_map_to_list.
Qed.

Lemma findByUser_hit userId page limit st r :
  cache_listings st !! listing_key userId page limit ≫= live (now st) = Some r ->
  findByUser userId page limit st
  = (Ok r, log_calls [CacheGet (listing_key userId page limit)] st).
Proof.
  intros H. unfold findByUser, cache_get_listing. run. by rewrite H.
Qed.

(** The page the table answers: after skipping [skip] orders, the next
    [limit] of them, or all that are left when [limit] is 0. *)
Lemma findByUser_miss userId page limit st :
  cache_listings st !! listing_key userId page limit ≫= live (now st) = None ->
  0 <= (page - 1) * limit -> 0 <= limit ->
  let rest := drop (Z.to_nat ((page - 1) * limit)) (orders_of_user userId (store st)) in
  let r := mkListing (if decide (limit = 0) then rest else take (Z.to_nat limit) rest)
             (length (orders_of_user userId (store st))) in
  findByUser userId page limit st
  = (Ok r,
     set_cache_listings
       (<[listing_key userId page limit := (r, now st + 300)]> (cache_listings st))
       (log_calls [CacheGet (listing_key userId page limit);
                   RepoFindAndCount userId;
                   CacheSet (listing_key userId page limit) 300] st)).
Proof.
  intros H Hskip Hlimit. unfold findByUser, cache_get_listing,
    repository_findAndCount, cache_set_listing. run. rewrite H. cbn.
  rewrite decide_False by lia. rewrite decide_False by lia. cbn. same_state.
Qed.

(** A negative offset or a negative limit is refused by the table. *)
Lemma findByUser_miss_refused userId page limit st :
  cache_listings st !! listing_key userId page limit ≫= live (now st) = None ->
  (page - 1) * limit < 0 \/ limit < 0 ->
  exists m,
    findByUser userId page limit st
    = (Err (StoreError m),
       log_calls [CacheGet (listing_key userId page limit);
                  RepoFindAndCount userId] st).
Proof.
  intros H Hneg. unfold findByUser, cache_get_listing,
    repository_findAndCount, cache_set_listing. run. rewrite H. cbn.
  destruct (decide ((page - 1) * limit < 0)); cbn.
  - eexists. f_equal. same_state.
  - rewrite decide_True by lia. cbn. eexists. f_equal. same_state.
Qed.



(** [findByUser] is cache-aside: a live cached listing is returned as it
    is, with one cache lookup and no query of the table; otherwise the table
    is read. The read goes through when neither the offset
    [(page - 1) * limit] nor the limit is negative, and a second call right
    after the first then returns the same listing from the cache; a
    negative offset or limit is refused by the table, and the call fails
    with that error, having cached nothing. *)
Theorem findByUser_cache_aside userId page limit st :
  (forall r,
      cache_listings st !! listing_key userId page limit ≫= live (now st) = Some r ->
      findByUser userId page limit st
      = (Ok r, log_calls [CacheGet (listing_key userId page limit)] st))
  /\ (is_Some (cache_listings st !! listing_key userId page limit ≫= live (now st))
      \/ (0 <= (page - 1) * limit /\ 0 <= limit) ->
      exists r st1,
        findByUser userId page limit st = (Ok r, st1)
        /\ findByUser userId page limit st1
           = (Ok r, log_calls [CacheGet (listing_key userId page limit)] st1)
        /\ store st1 = store st)
  /\ (cache_listings st !! listing_key userId page limit ≫= live (now st) = None ->
      (page - 1) * limit < 0 \/ limit < 0 ->
      exists m st',
        findByUser userId page limit st = (Err (StoreError m), st')
        /\ RepoFindAndCount userId ∈ calls_of (findByUser userId page limit) st
        /\ cache_listings st' = cache_listings st
        /\ store st' = store st).
Proof.
  split; [apply findByUser_hit|]. split.
  - intros Hcase.
    destruct (cache_listings st !! listing_key userId page limit ≫= live (now st))
      as [r|] eqn:Hc.
    + rewrite (findByUser_hit _ _ _ _ _ Hc). eexists _, _. split; [done|].
      split; [|done]. by apply findByUser_hit.
    + destruct Hcase as [[? ?]|[Hskip Hlimit]]; [done|].
      rewrite (findByUser_miss _ _ _ _ Hc Hskip Hlimit). eexists _, _.
      split; [done|]. split; [|done]. apply findByUser_hit. simpl.
      rewrite lookup_insert_eq. simpl. unfold live. simpl.
      case_decide; [done|lia].
  - intros Hc Hneg.
    destruct (findByUser_miss_refused _ _ _ _ Hc Hneg) as [m Hrun].
    exists m. eexists. split; [exact Hrun|]. split; [|done].
    erewrite calls_of_log_calls; [|by rewrite Hrun].
    rewrite !elem_of_cons. auto.
Qed.

Lemma findByUser_cache_aside_witness :
  (exists r st1,
      findByUser "user-123" 1 10 st_created = (Ok r, st1)
      /\ findByUser "user-123" 1 10 st1
         = (Ok r, log_calls [CacheGet (listing_key "user-123" 1 10)] st1)
      /\ store st1 = store st_created)
  /\ (exists m st',
      findByUser "user-123" 0 10 st_created = (Err (StoreError m), st')
      /\ RepoFindAndCount "user-123"
         ∈ calls_of (findByUser "user-123" 0 10) st_created
      /\ cache_listings st' = cache_listings st_created
      /\ store st' = store st_created).
Proof.
  split.
  - apply (proj1 (proj2 (findByUser_cache_aside "user-123" 1 10 st_created))).
    right. lia.
  - apply (proj2 (proj2 (findByUser_cache_aside "user-123" 0 10 st_created)));
      [by vm_compute|lia].
Defined.

(** ** A created order can be read back *)

(** What a successful [createOrder] leaves in a reachable state: the row
    under a new id, and no cached copy of it. *)
Lemma createOrder_leaves env createOrderDto st o st' :
  reachable st ->
  createOrder env createOrderDto st = (Ok o, st') ->
  store st !! NewOrder.id o = None
  /\ store st' = <[NewOrder.id o := row_of env o]> (store st)
  /\ now st' = now st
  /\ cached_order st' (NewOrder.id o) = None.
Proof.
  intros Hreach Hrun. apply reachable_sound in Hreach as Hsound.
  pose proof (createOrder_ok _ _ _ _ _ Hrun) as (Ho & Hsave & Hstore & _).
  assert (Hfresh : store st !! NewOrder.id o = None).
  { subst o. apply not_elem_of_dom, is_fresh. }
  split; [done|]. split; [done|].
  rewrite (createOrder_saved env createOrderDto st) in Hrun by by subst o.
  pose proof (shrinks_after_save env (new_order st createOrderDto)
                (after_insert env st (new_order st createOrderDto)))
    as (_ & Hn & Hcache).
  rewrite Hrun in Hn, Hcache. simpl in *. split; [done|].
  unfold cached_order.
  destruct (cache_orders st' !! order_key (NewOrder.id o)) as [[c e]|] eqn:Hkey;
    [|done].
  eapply lookup_weaken in Hkey; [|exact Hcache].
  destruct Hsound as [_ Hk]. apply Hk in Hkey as (Heq & Hin & _).
  apply order_key_inj in Heq. rewrite <- Heq, Hfresh in Hin.
  by destruct Hin.
Qed.

(** In a reachable state a successful [createOrder] stores the order
    under an id that no row had, leaves every row of the table as it was,
    and a [findOne] of the new id right after, whatever the collaborators do
    then, returns the row the table keeps of the order. *)
Theorem createOrder_then_findOne env createOrderDto st o st' :
  reachable st ->
  createOrder env createOrderDto st = (Ok o, st') ->
  store st !! NewOrder.id o = None
  /\ (forall id r, store st !! id = Some r -> store st' !! id = Some r)
  /\ forall env', exists st'',
       findOne env' (NewOrder.id o) st' = (Ok (row_of env o), st'').
Proof.
  intros Hreach Hrun.
  destruct (createOrder_leaves _ _ _ _ _ Hreach Hrun)
    as (Hfresh & Hstore & _ & Hmiss).
  split; [done|]. split.
  - intros id r Hr. rewrite Hstore, lookup_insert_ne; [done|]. congruence.
  - intros env'. eexists. apply findOne_miss_found; [done|].
    by rewrite Hstore, lookup_insert_eq.
Qed.

Lemma createOrder_then_findOne_witness :
  exists o st' st'',
    createOrder reliable sample_dto st_created = (Ok o, st')
    /\ store st_created !! NewOrder.id o = None
    /\ findOne reliable (NewOrder.id o) st' = (Ok (row_of reliable o), st'').
Proof.
  assert (Hreach : reachable st_created).
  { apply (reachable_step reliable (OpCreateOrder sample_dto)), reachable_initial. }
  destruct (createOrder reliable sample_dto st_created) as [[o|e] st'] eqn:Hrun;
    [|by vm_compute in Hrun].
  destruct (createOrder_then_findOne _ _ _ _ _ Hreach Hrun)
    as (Hfresh & _ & Hfind).
  destruct (Hfind reliable) as [st'' Hfind'].
  by exists o, st', st''.
Defined.

(** ** Listings after a creation *)

Lemma after_save_listings env o st r st' :
  after_save env o st = (Ok r, st') ->
  (keys_supported env = true ->
   forall key,
     key_matches env (listing_prefix (NewOrder.userId o)) key = true ->
     cache_listings st' !! key ≫= live (now st') = None)
  /\ (keys_supported env = false -> cache_listings st' = cache_listings st).
Proof.
  unfold after_save. intros H.
  apply bind_ok_inv in H as ([] & s1 & Hpub & H).
  apply bind_ok_inv in H as ([] & s2 & Hq & H).
  apply bind_ok_inv in H as ([] & s3 & Hinv & H).
  injection H as _ <-.
  assert (H1 : now s1 = now st /\ cache_listings s1 = cache_listings st).
  { rewrite publishOrderCreated_run in Hpub.
    destruct (rabbit_emit_outcome _ _ _); [done|]. by injection Hpub as <-. }
  assert (H2 : now s2 = now s1 /\ cache_listings s2 = cache_listings s1).
  { rewrite queue_add_run in Hq.
    destruct (queue_add_outcome _ _ _); [done|]. by injection Hq as <-. }
  split.
  - intros Hks key Hp.
    destruct (invalidateUserOrdersCache_caches env (NewOrder.userId o) s2)
      as (_ & Hn3 & Hgone).
    rewrite Hinv in Hn3, Hgone. simpl in *. rewrite Hn3. by apply Hgone.
  - intros Hks. unfold invalidateUserOrdersCache in Hinv. rewrite Hks in Hinv.
    revert Hinv. run. intros [= <-]. destruct H1, H2. congruence.
Qed.

Lemma map_to_list_insert_values (s : gmap string Order.t) k o :
  s !! k = None -> (map_to_list (<[k := o]> s)).*2 ≡ₚ o :: (map_to_list s).*2.
Proof. intros H. by rewrite (map_to_list_insert s k o H). Qed.

(** After a successful [createOrder] for a user id with no glob
    character, where the cache store lists its keys, the next [findByUser]
    of that user (page number and page size at least 1) reads the table:
    [total] is one more than the number of orders the user had, and a first
    page large enough for all of them holds the row of the new order. Where
    the store lists no keys nothing is invalidated: every cached listing
    stays. *)
Theorem createOrder_refreshes_listings env createOrderDto st o st' :
  createOrder env createOrderDto st = (Ok o, st') ->
  (keys_supported env = true ->
   glob_free (CreateOrderDto.userId createOrderDto) = true ->
   forall page limit,
   1 <= page -> 1 <= limit ->
   exists r st'',
     findByUser (CreateOrderDto.userId createOrderDto) page limit st' = (Ok r, st'')
     /\ total r
        = S (length (filter
                       (fun o => Order.userId o = CreateOrderDto.userId createOrderDto)
                       (map_to_list (store st)).*2))
     /\ (page = 1 -> Z.of_nat (total r) <= limit -> row_of env o ∈ orders r))
  /\ (keys_supported env = false -> cache_listings st' = cache_listings st).
Proof.
  intros Hrun.
  pose proof (createOrder_ok _ _ _ _ _ Hrun) as (Ho & Hsave & Hstore & _).
  assert (Hfresh : store st !! NewOrder.id o = None).
  { subst o. apply not_elem_of_dom, is_fresh. }
  assert (Huser : NewOrder.userId o = CreateOrderDto.userId createOrderDto)
    by by subst o.
  rewrite (createOrder_saved env createOrderDto st) in Hrun by by subst o.
  rewrite <- Ho in Hrun.
  apply after_save_listings in Hrun as [Hon Hoff].
  split; [|intros Hks; by rewrite (Hoff Hks)].
  intros Hks Hfree page limit Hpage Hlimit.
  rewrite findByUser_miss;
    [|rewrite <- Huser; apply Hon; [done|];
      apply listing_key_matches; by rewrite Huser|nia|lia].
  rewrite decide_False by lia.
  eexists _, _. split; [reflexivity|]. simpl.
  assert (Hlen : length (orders_of_user (CreateOrderDto.userId createOrderDto)
                           (store st'))
                 = S (length (filter
                                (fun o => Order.userId o
                                          = CreateOrderDto.userId createOrderDto)
                                (map_to_list (store st)).*2))).
  { rewrite orders_of_user_length, Hstore.
    rewrite (map_to_list_insert_values _ _ _ Hfresh).
    rewrite filter_cons. by case_decide. }
  split; [done|].
  intros -> Hall. simpl. rewrite drop_0, take_ge by lia.
  apply orders_of_user_elem. split; [done|].
  exists (NewOrder.id o). by rewrite Hstore, lookup_insert_eq.
Qed.

Lemma createOrder_refreshes_listings_witness :
  exists r st'',
    findByUser "user-123" 1 10 (createOrder reliable sample_dto st_listed).2
    = (Ok r, st'')
    /\ total r = 2%nat.
Proof.
  destruct (createOrder reliable sample_dto st_listed) as [[o|e] st'] eqn:Hrun;
    [|by vm_compute in Hrun].
  destruct (createOrder_refreshes_listings _ _ _ _ _ Hrun) as [Hon _].
  destruct (Hon eq_refl eq_refl 1 10) as (r & st'' & Hfind & Htotal & _);
    [lia|lia|].
  exists r, st''. split; [exact Hfind|]. rewrite Htotal. by vm_compute.
Defined.

(** ** What [updateStatus] does *)

Lemma findOne_calls {env} id st o st1 :
  findOne env id st = (Ok o, st1) ->
  trace st1 = trace st ++ load_calls st id
  /\ now st1 = now st
  /\ cached_order st1 id = Some o.
Proof.
  intros H. unfold load_calls.
  destruct (cached_order st id) as [c|] eqn:Hc.
  - rewrite (findOne_hit _ _ _ Hc) in H. injection H as <- <-. done.
  - destruct (store st !! id) as [r|] eqn:Hr.
    + rewrite (findOne_miss_found _ _ _ Hc Hr) in H. injection H as <- <-.
      simpl. split; [done|]. split; [done|].
      unfold cached_order. simpl. rewrite lookup_insert_eq. simpl.
      unfold live. simpl. case_decide; [done|lia].
    + by destruct (findOne_miss_fails (env:=env) _ _ Hc Hr) as (e & He & _);
        rewrite He in H.
Qed.

Lemma publishOrderStatusChanged_ok env o st st1 :
  publishOrderStatusChanged env o st = (Ok tt, st1) ->
  st1 = log_calls
          (KafkaEmit "order.status.changed" (status_changed_event (now st) o)
             :: notification_calls o) st.
Proof.
  rewrite publishOrderStatusChanged_run. unfold notification_calls.
  destruct (decide _); [destruct (rabbit_emit_outcome _ _ _); [done|]|];
    by intros [= <-].
Qed.

Lemma after_update_save_calls env id o st r st' :
  after_update_save env id o st = (Ok r, st') ->
  exists s,
    trace st'
    = trace st
      ++ [KafkaEmit "order.status.changed" (status_changed_event (now st) o)]
      ++ notification_calls o
      ++ [CacheDel (order_key id)]
      ++ invalidation_calls env s (Order.userId o).
Proof.
  unfold after_update_save. intros H.
  apply bind_ok_inv in H as ([] & s1 & Hpub & H).
  apply bind_ok_inv in H as ([] & s2 & Hdel & H).
  apply bind_ok_inv in H as ([] & s3 & Hinv & H).
  injection H as _ <-.
  apply publishOrderStatusChanged_ok in Hpub. subst s1.
  assert (Hd : trace s2
               = trace st
                 ++ (KafkaEmit "order.status.changed"
                       (status_changed_event (now st) o) :: notification_calls o)
                 ++ [CacheDel (order_key id)]).
  { rewrite cache_del_run in Hdel.
    destruct (cache_del_outcome _ _); [done|]. injection Hdel as <-. simpl.
    by rewrite <- app_assoc. }
  destruct (invalidateUserOrdersCache_run env (Order.userId o) s2)
    as (r' & s3' & Hi & Ht & _).
  rewrite Hinv in Hi. injection Hi as _ <-.
  exists s2. rewrite Ht, Hd. by rewrite <- !app_assoc.
Qed.

(** A successful [updateStatus] calls its collaborators in this order:
    the cache (and on a miss the table) to load the order, the save, the
    Kafka emit of the status-changed event, the RabbitMQ notification if
    the new status is shipped or delivered, the delete of the single-order
    cache entry, and last the invalidation of the user's listings. *)
Theorem updateStatus_effect_order env id updateDto st o st' :
  updateStatus env id updateDto st = (Ok o, st') ->
  exists s,
    calls_of (updateStatus env id updateDto) st
    = load_calls st id
      ++ [RepoSave (Order.id o);
          KafkaEmit "order.status.changed" (status_changed_event (now st) o)]
      ++ notification_calls o
      ++ [CacheDel (order_key id)]
      ++ invalidation_calls env s (Order.userId o).
Proof.
  intros H.
  destruct (findOne env id st) as [[current|e] st1] eqn:Hload;
    [|by rewrite (updateStatus_findOne_fails _ _ _ _ _ _ Hload) in H].
  destruct (findOne_calls _ _ _ _ Hload) as (Ht1 & Hn1 & _).
  destruct (decide (allowedNext (Order.status current)
                      (UpdateOrderStatusDto.status updateDto))) as [Hedge|Hoff];
    [|by rewrite (updateStatus_invalid _ _ _ _ _ _ Hload Hoff) in H].
  pose proof H as Hrun.
  rewrite (updateStatus_valid _ _ _ _ _ _ Hload Hedge) in H.
  destruct (save_outcome env (apply_update (now st1) updateDto current))
    as [m|] eqn:Hsave.
  { by rewrite (commit_update_save_fails _ _ _ _ _ _ Hsave) in H. }
  rewrite (commit_update_saved _ _ _ _ _ Hsave) in H.
  pose proof (after_update_save_ok _ _ _ _ _ _ H) as ->.
  apply after_update_save_calls in H as [s Hs].
  exists s. apply calls_of_log_calls. rewrite Hrun. simpl.
  rewrite Hs. simpl. rewrite Ht1, Hn1. by rewrite <- !app_assoc.
Qed.

Lemma updateStatus_effect_order_witness :
  exists s,
    calls_of (updateStatus reliable "0" (UpdateOrderStatusDto.mk CONFIRMED None))
      st_listed
    = [CacheGet "order:0"; RepoFindOne "0"; CacheSet "order:0" 300; RepoSave "0";
       KafkaEmit "order.status.changed"
         (Envelope "ORDER_STATUS_CHANGED" 0
            (OrderStatusChangedData "0" "user-123" CONFIRMED 105099));
       CacheDel "order:0"]
      ++ invalidation_calls reliable s "user-123".
Proof.
  destruct (updateStatus reliable "0" (UpdateOrderStatusDto.mk CONFIRMED None)
              st_listed) as [[o|e] st'] eqn:Hrun; [|by vm_compute in Hrun].
  destruct (updateStatus_effect_order _ _ _ _ _ _ Hrun) as [s Hs].
  exists s. rewrite Hs.
  vm_compute in Hrun. injection Hrun as <- _. reflexivity.
Defined.

(** A successful [updateStatus] returns and stores the order it
    loaded with the requested status and a new [updatedAt]; id, user,
    amount, address, items and creation date are those of the loaded
    order. A move into [CANCELLED] stamps [cancelledAt] with the current
    time and [cancelReason] with the reason of the request, the empty
    string if it has none; any other move ignores the reason of the request
    and keeps both fields. *)
Theorem updateStatus_result env id updateDto st current st1 o st' :
  findOne env id st = (Ok current, st1) ->
  updateStatus env id updateDto st = (Ok o, st') ->
  Order.status o = UpdateOrderStatusDto.status updateDto
  /\ Order.updatedAt o = now st
  /\ Order.id o = Order.id current
  /\ Order.userId o = Order.userId current
  /\ Order.totalAmount o = Order.totalAmount current
  /\ Order.shippingAddress o = Order.shippingAddress current
  /\ Order.items o = Order.items current
  /\ Order.createdAt o = Order.createdAt current
  /\ (UpdateOrderStatusDto.status updateDto = CANCELLED ->
      Order.cancelledAt o = Some (now st)
      /\ Order.cancelReason o
         = Some (default "" (UpdateOrderStatusDto.cancelReason updateDto)))
  /\ (UpdateOrderStatusDto.status updateDto <> CANCELLED ->
      Order.cancelledAt o = Order.cancelledAt current
      /\ Order.cancelReason o = Order.cancelReason current)
  /\ store st' = <[Order.id current := o]> (store st).
Proof.
  intros Hload H.
  apply updateStatus_ok in H as (current' & st1' & Hload' & _ & -> & Hst).
  rewrite Hload in Hload'. injection Hload' as <- <-.
  unfold updated_row, apply_update in *.
  destruct (decide (UpdateOrderStatusDto.status updateDto = CANCELLED)) as [Hc|Hc];
    simpl in *; repeat split; try done.
Qed.

Lemma updateStatus_result_witness :
  exists o st',
    updateStatus reliable "0" (UpdateOrderStatusDto.mk CANCELLED None) st_created
    = (Ok o, st')
    /\ Order.status o = CANCELLED
    /\ Order.cancelReason o = Some ""
    /\ Order.items o = Order.items (row_of reliable (new_order initial_state sample_dto)).
Proof.
  destruct (findOne reliable "0" st_created) as [[current|e] st1] eqn:Hload;
    [|by vm_compute in Hload].
  destruct (updateStatus reliable "0" (UpdateOrderStatusDto.mk CANCELLED None)
              st_created) as [[o|e] st'] eqn:Hrun; [|by vm_compute in Hrun].
  destruct (updateStatus_result _ _ _ _ _ _ _ _ Hload Hrun)
    as (Hs & _ & _ & _ & _ & _ & Hi & _ & Hc & _).
  exists o, st'. split; [done|]. split; [exact Hs|].
  split; [by apply Hc|]. rewrite Hi.
  vm_compute in Hload. by injection Hload as <- _.
Defined.



(** ** Where messages and jobs go *)

Lemma emits_ret {A} P (a : A) : emits P (ret a).
Proof. intros st. exists []. by rewrite app_nil_r. Qed.

Lemma emits_throw {A} P e : emits P (@throw A e).
Proof. intros st. exists []. by rewrite app_nil_r. Qed.

Lemma emits_get_state P : emits P get_state.
Proof. intros st. exists []. by rewrite app_nil_r. Qed.

Lemma emits_clock P : emits P clock.
Proof. intros st. exists []. by rewrite app_nil_r. Qed.

Lemma emits_modify P f : (forall st, trace (f st) = trace st) -> emits P (modify f).
Proof.
  intros Hf st. exists []. rewrite app_nil_r. split; [apply Hf|done].
Qed.

Lemma emits_log (P : Call -> Prop) c : P c -> emits P (log c).
Proof. intros Hc st. exists [c]. split; [done|]. by constructor. Qed.

Lemma emits_bind {A B} P (m : M A) (k : A -> M B) :
  emits P m -> (forall a, emits P (k a)) -> emits P (bind m k).
Proof.
  intros Hm Hk st. unfold bind. destruct (Hm st) as (l1 & Ht1 & Hl1).
  destruct (m st) as [[a|e] st1]; simpl in *; [|eauto].
  destruct (Hk a st1) as (l2 & Ht2 & Hl2).
  exists (l1 ++ l2). rewrite Ht2, Ht1, <- app_assoc. split; [done|].
  by apply Forall_app.
Qed.

Lemma emits_try_catch {A} P (m : M A) h :
  emits P m -> (forall e, emits P (h e)) -> emits P (try_catch m h).
Proof.
  intros Hm Hh st. unfold try_catch. destruct (Hm st) as (l1 & Ht1 & Hl1).
  destruct (m st) as [[a|e] st1]; simpl in *; [eauto|].
  destruct (Hh e st1) as (l2 & Ht2 & Hl2).
  exists (l1 ++ l2). rewrite Ht2, Ht1, <- app_assoc. split; [done|].
  by apply Forall_app.
Qed.

Lemma emits_promise_all {A} P (f : A -> M unit) l :
  (forall a, emits P (f a)) -> emits P (promise_all f l).
Proof.
  intros Hf. induction l as [|a l IH]; simpl.
  - apply emits_ret.
  - intros st. destruct (Hf a st) as (l1 & Ht1 & Hl1).
    destruct (f a st) as [[[]|e] st1]; simpl in *;
      destruct (IH st1) as (l2 & Ht2 & Hl2);
      exists (l1 ++ l2); rewrite Ht2, Ht1, <- app_assoc;
      (split; [done|]); by apply Forall_app.
Qed.

Ltac emits_steps :=
  repeat first
    [ apply emits_ret
    | apply emits_throw
    | apply emits_get_state
    | apply emits_clock
    | apply emits_modify; done
    | apply emits_log; simpl; auto; done
    | apply emits_promise_all; intros ?
    | apply emits_bind; [|intros ?]
    | apply emits_try_catch; [|intros ?]
    | match goal with |- emits _ (match ?x with _ => _ end) => destruct x end
    | match goal with |- emits _ (if ?x then _ else _) => destruct x end ].

Lemma emits_weaken {A} (P Q : Call -> Prop) (m : M A) :
  (forall c, P c -> Q c) -> emits P m -> emits Q m.
Proof.
  intros HPQ Hm st. destruct (Hm st) as (l & Ht & Hl). exists l. split; [done|].
  eapply Forall_impl; eauto.
Qed.

Lemma service_call_known c : service_call c -> known_destination c.
Proof. by destruct c. Qed.

Lemma emits_findOne env id : emits service_call (findOne env id).
Proof.
  unfold findOne, cache_get_order, repository_findOne, cache_set_order.
  emits_steps.
Qed.

Lemma emits_findByUser userId page limit :
  emits service_call (findByUser userId page limit).
Proof.
  unfold findByUser, cache_get_listing, repository_findAndCount, cache_set_listing.
  emits_steps.
Qed.

Lemma emits_invalidateUserOrdersCache env userId :
  emits service_call (invalidateUserOrdersCache env userId).
Proof.
  unfold invalidateUserOrdersCache, cache_keys, cache_del. emits_steps.
Qed.

Lemma emits_createOrder env createOrderDto :
  emits service_call (createOrder env createOrderDto).
Proof.
  unfold createOrder, repository_insert, publishOrderCreated, kafka_emit,
    rabbit_emit, queue_add.
  emits_steps; apply emits_invalidateUserOrdersCache.
Qed.

Lemma emits_updateStatus env id updateDto :
  emits service_call (updateStatus env id updateDto).
Proof.
  unfold updateStatus.
  apply emits_bind; [apply emits_findOne|intros order].
  unfold validateStatusTransition, repository_save, publishOrderStatusChanged,
    kafka_emit, rabbit_emit, cache_del.
  emits_steps; apply emits_invalidateUserOrdersCache.
Qed.

Lemma emits_handleOrderProcessing env job :
  emits known_destination (handleOrderProcessing env job).
Proof.
  unfold handleOrderProcessing, pipeline, on_failure, progress, validateOrder,
    checkInventory, reserveInventory, initiatePayment.
  repeat first
    [ apply (emits_weaken _ _ _ service_call_known), emits_findOne
    | apply (emits_weaken _ _ _ service_call_known), emits_updateStatus
    | apply emits_ret
    | apply emits_throw
    | apply emits_log; simpl; auto; done
    | apply emits_bind; [|intros ?]
    | apply emits_try_catch; [|intros ?]
    | match goal with |- emits _ (match ?x with _ => _ end) => destruct x end
    | match goal with |- emits _ (if ?x then _ else _) => destruct x end ].
Qed.

(** Whatever the operation and whatever fails in it, the service and
    the worker only append to the log of calls, publish to Kafka only on
    [order.created] and [order.status.changed], to RabbitMQ only on
    [order_created] and [order_notification], and enqueue only
    [process-order] jobs. So no operation publishes an [ORDER_CANCELLED]
    event - a cancellation is announced as a status change - and none
    enqueues a [send-notification] or [generate-invoice] job. *)
Theorem operations_use_known_destinations env op st :
  exists l,
    trace (run_op env op st) = trace st ++ l
    /\ Forall known_destination l
    /\ (forall msg, KafkaEmit "order.cancelled" msg ∉ l)
    /\ (forall msg, RabbitEmit "order_cancelled" msg ∉ l)
    /\ (forall data, QueueAdd "send-notification" data ∉ l)
    /\ (forall data, QueueAdd "generate-invoice" data ∉ l).
Proof.
  assert (H : exists l,
             trace (run_op env op st) = trace st ++ l /\ Forall known_destination l).
  { destruct op; simpl.
    - apply (emits_weaken _ _ _ service_call_known), emits_createOrder.
    - apply (emits_weaken _ _ _ service_call_known), emits_findOne.
    - apply (emits_weaken _ _ _ service_call_known), emits_findByUser.
    - apply (emits_weaken _ _ _ service_call_known), emits_updateStatus.
    - apply (emits_weaken _ _ _ service_call_known), emits_updateStatus.
    - apply emits_handleOrderProcessing.
    - exists []. by rewrite app_nil_r. }
  destruct H as (l & Ht & Hl). exists l. split; [done|]. split; [done|].
  rewrite Forall_forall in Hl.
  repeat split; intros x Hin; apply Hl in Hin; simpl in Hin;
    first [destruct Hin as [Hin|Hin]; discriminate Hin | discriminate Hin].
Qed.

(** ** Terminal orders *)

Section Settled.

Variable k : string.
Variable o0 : Order.t.
Hypothesis o0_terminal : Order.status o0 = DELIVERED \/ Order.status o0 = CANCELLED.

Lemma settled_shrunk st st' :
  settled k o0 st -> store st' = store st -> now st' = now st ->
  cache_orders st' ⊆ cache_orders st -> settled k o0 st'.
Proof.
  intros (Hs & Hrow & Hc) Hst Hn Hsub. split; [by eapply sound_shrunk|].
  split; [by rewrite Hst|].
  intros c e H Hlive. eapply Hc; [by eapply lookup_weaken|]. by rewrite <- Hn.
Qed.

Lemma settled_shrinks {A} (m : M A) :
  shrinks m -> hoare (settled k o0) m (fun _ => True).
Proof.
  intros Hm st HI. destruct (Hm st) as (Hs & Hn & Hc).
  split; [by eapply settled_shrunk|done].
Qed.

Lemma settled_findOne env id :
  hoare (settled k o0) (findOne env id)
    (fun c => Order.id c = id /\ (id = k -> c = o0)).
Proof.
  intros st HI. pose proof HI as (Hs & Hrow & Hc).
  destruct (sound_findOne env id st Hs) as [Hs1 Hid].
  destruct (cached_order st id) as [c|] eqn:Hcache.
  - rewrite (findOne_hit _ _ _ Hcache) in *. simpl in *.
    split; [done|]. intros c' [= <-]. split; [by apply Hid|].
    intros ->. unfold cached_order in Hcache.
    destruct (cache_orders st !! order_key k) as [[c' e]|] eqn:Hkey; [|done].
    simpl in Hcache. unfold live in Hcache. case_decide; [|done].
    simpl in Hcache. injection Hcache as ->. by eapply Hc.
  - destruct (store st !! id) as [r|] eqn:Hr.
    + rewrite (findOne_miss_found _ _ _ Hcache Hr) in *. simpl in *.
      split.
      * split; [done|]. split; [done|].
        intros c e. simpl. rewrite lookup_insert.
        case_decide as Hkey; [|apply Hc].
        intros [= <- <-] _. apply order_key_inj in Hkey. subst id. congruence.
      * intros c [= <-]. split; [by apply Hid|]. intros ->. congruence.
    + destruct (findOne_miss_fails (env:=env) _ _ Hcache Hr) as (e & He & _).
      rewrite He in *. done.
Qed.

Lemma settled_updateStatus env id updateDto :
  hoare (settled k o0) (updateStatus env id updateDto) (fun _ => True).
Proof.
  intros st HI. split; [|done].
  destruct (settled_findOne env id st HI) as (HI1 & Hc).
  destruct (findOne env id st) as [[current|e] st1] eqn:Hload; simpl in *.
  2: { by rewrite (updateStatus_findOne_fails _ _ _ _ _ _ Hload). }
  destruct (Hc current eq_refl) as [Hid Hk].
  destruct (decide (allowedNext (Order.status current)
                      (UpdateOrderStatusDto.status updateDto))) as [Hedge|Hoff].
  2: { by rewrite (updateStatus_invalid _ _ _ _ _ _ Hload Hoff). }
  rewrite (updateStatus_valid _ _ _ _ _ _ Hload Hedge).
  destruct (save_outcome env (apply_update (now st1) updateDto current))
    as [m|] eqn:Hsave.
  { by rewrite (commit_update_save_fails _ _ _ _ _ _ Hsave). }
  rewrite (commit_update_saved _ _ _ _ _ Hsave).
  assert (Hne : id <> k).
  { intros Heq. rewrite (Hk Heq) in Hedge.
    by apply (terminal_statuses _ _ o0_terminal) in Hedge. }
  assert (Hrow : Order.id (updated_row (now st1) updateDto current) = id).
  { unfold updated_row. simpl. by rewrite apply_update_id. }
  apply (settled_shrinks _ (shrinks_after_update_save env id _)).
  destruct HI1 as (Hs1 & Hrow1 & Hc1). split; [|split].
  - apply sound_after_update; [done|]. rewrite Hrow.
    pose proof (findOne_store (env:=env) id st) as Hst.
    rewrite Hload in Hst. simpl in Hst.
    rewrite Hst. destruct HI as (Hs & _).
    destruct (cached_order st id) as [c|] eqn:Hcache.
    + by apply (sound_cached_order st id c).
    + destruct (store st !! id) eqn:Hr; [done|].
      by destruct (findOne_miss_fails (env:=env) _ _ Hcache Hr) as (e & He & _);
        rewrite He in Hload.
  - change (<[Order.id (updated_row (now st1) updateDto current) :=
               updated_row (now st1) updateDto current]> (store st1) !! k = Some o0).
    rewrite Hrow, lookup_insert_ne; done.
  - done.
Qed.

Lemma settled_createOrder env createOrderDto :
  hoare (settled k o0) (createOrder env createOrderDto) (fun _ => True).
Proof.
  intros st HI. split; [|done].
  destruct (sound_createOrder env createOrderDto st (proj1 HI)) as [Hs' _].
  destruct (insert_outcome env (new_order st createOrderDto)) as [m|] eqn:Hsave.
  { rewrite (createOrder_save_fails _ _ _ _ Hsave) in *.
    destruct HI as (_ & ? & ?). by split. }
  rewrite (createOrder_saved _ _ _ Hsave) in *.
  destruct (shrinks_after_save env (new_order st createOrderDto)
              (after_insert env st (new_order st createOrderDto)))
    as (Hst & Hn & Hc).
  destruct HI as (_ & Hrow & Hcache). split; [done|]. split.
  - rewrite Hst. simpl. rewrite lookup_insert_ne; [done|].
    intros Heq. pose proof (is_fresh (dom (store st))) as Hf.
    rewrite Heq in Hf. apply Hf. by apply elem_of_dom.
  - intros c e H Hlive. eapply Hcache; [by eapply lookup_weaken|].
    by rewrite Hn in Hlive.
Qed.

Lemma settled_handleOrderProcessing env job :
  hoare (settled k o0) (handleOrderProcessing env job) (fun _ => True).
Proof.
  unfold handleOrderProcessing.
  apply hoare_try_catch.
  - unfold pipeline, progress, validateOrder, checkInventory, reserveInventory,
      initiatePayment.
    repeat first
      [ eapply hoare_weaken; [apply settled_findOne|done]
      | apply settled_updateStatus
      | eapply hoare_bind with (R := fun _ => True); [|intros ? _]
      | apply settled_shrinks, shrinks_log
      | apply hoare_ret; done
      | apply hoare_throw
      | match goal with |- hoare _ (match ?x with _ => _ end) _ => destruct x end
      | match goal with |- hoare _ (if ?x then _ else _) _ => destruct x end ].
  - intros e. unfold on_failure.
    eapply hoare_bind with (R := fun _ => True).
    + apply settled_updateStatus.
    + intros _ _. apply hoare_throw.
Qed.

Lemma settled_run_op env op st : settled k o0 st -> settled k o0 (run_op env op st).
Proof.
  intros HI. destruct op; simpl.
  - by apply settled_createOrder.
  - by apply settled_findOne.
  - by apply (settled_shrinks _ (shrinks_findByUser userId page limit)).
  - by apply settled_updateStatus.
  - by apply settled_updateStatus.
  - by apply settled_handleOrderProcessing.
  - destruct HI as (Hs & Hrow & Hc).
    split; [by apply (sound_run_op env (OpTick seconds))|]. split; [done|].
    intros c e H Hlive. simpl in *. apply (Hc c e H). lia.
Qed.

Lemma settled_run_ops steps st : settled k o0 st -> settled k o0 (run_ops steps st).
Proof.
  revert st. induction steps as [|[env op] steps IH]; intros st HI; simpl; [done|].
  by apply IH, settled_run_op.
Qed.

End Settled.

(** A delivered or cancelled order is final. From a reachable state
    whose cache holds no live copy of the order or a copy equal to its row,
    no sequence of operations changes the row, whatever the operations are
    and whatever fails in them. *)
Theorem terminal_order_is_final st id o steps :
  reachable st -> cache_agrees st id -> store st !! id = Some o ->
  Order.status o = DELIVERED \/ Order.status o = CANCELLED ->
  store (run_ops steps st) !! id = Some o.
Proof.
  intros Hreach Hagree Hrow Hterm.
  apply (settled_run_ops id o Hterm steps st).
  split; [by apply reachable_sound|]. split; [done|].
  intros c e Hkey Hlive.
  assert (Hc : cached_order st id = Some c).
  { unfold cached_order. rewrite Hkey. simpl. unfold live. simpl.
    by case_decide. }
  destruct Hagree as [Hnone | Hsame]; [congruence|].
  rewrite Hc, Hrow in Hsame. by injection Hsame.
Qed.

Lemma terminal_order_is_final_witness :
  exists o,
    store st_first_attempt !! "0" = Some o
    /\ Order.status o = CANCELLED
    /\ store
         (run_ops
            [(reliable, OpUpdateStatus "0" (UpdateOrderStatusDto.mk CONFIRMED None));
             (cache_down, OpCancelOrder "0" "again");
             (reliable, OpTick 600);
             (reliable, OpProcessOrder sample_job)] st_first_attempt) !! "0"
       = Some o.
Proof.
  assert (Hreach : reachable st_first_attempt).
  { apply (reachable_step out_of_stock (OpProcessOrder sample_job)).
    apply (reachable_step reliable (OpCreateOrder sample_dto)), reachable_initial. }
  destruct (store st_first_attempt !! "0") as [o|] eqn:Hrow;
    [|by vm_compute in Hrow].
  assert (Hst : Order.status o = CANCELLED).
  { vm_compute in Hrow. by injection Hrow as <-. }
  exists o. split; [done|]. split; [done|].
  apply terminal_order_is_final; [done| |done|by right].
  left. by vm_compute.
Defined.

(** ** The transition table *)

Lemma validTransitions_steps_left a b :
  b ∈ validTransitions a -> (steps_left b < steps_left a)%nat.
Proof.
  destruct a; simpl; rewrite ?elem_of_cons, ?elem_of_nil;
    intros H; destruct_or?; subst; simpl; try done; lia.
Qed.

Lemma lifecycle_steps_left a l :
  lifecycle (a :: l) ->
  (length l <= steps_left a)%nat
  /\ Forall (fun b => (steps_left b < steps_left a)%nat) l.
Proof.
  revert a. induction l as [|b l IH]; intros a H; [simpl; split; [lia|done]|].
  destruct H as [Hab Hrest]. apply validTransitions_steps_left in Hab.
  destruct (IH b Hrest) as [Hlen Hall]. simpl. split; [lia|].
  constructor; [done|]. eapply Forall_impl; [exact Hall|]. simpl. lia.
Qed.

(** The transition table has no cycle. A chain of allowed transitions
    visits no status twice and has at most five statuses, so an order
    changes status at most four times along the table; a status from which
    the chain goes on is neither delivered nor cancelled. *)
Theorem lifecycle_is_bounded l :
  lifecycle l ->
  (length l <= 5)%nat
  /\ NoDup l
  /\ (forall i a b,
       l !! i = Some a -> l !! S i = Some b -> a <> DELIVERED /\ a <> CANCELLED).
Proof.
  intros H. split; [|split].
  - destruct l as [|a l]; [simpl; lia|].
    apply lifecycle_steps_left in H as [Hlen _]. simpl.
    destruct a; simpl in *; lia.
  - induction l as [|a l IH]; [constructor|].
    constructor.
    + intros Hin. apply lifecycle_steps_left in H as [_ Hall].
      rewrite Forall_forall in Hall. apply Hall in Hin. lia.
    + apply IH. destruct l; [done|]. by destruct H.
  - revert H. induction l as [|a l IH]; intros H i x y Hx Hy; [done|].
    destruct i as [|i]; simpl in *.
    + injection Hx as ->. destruct l as [|b l]; [done|]. simpl in Hy.
      injection Hy as ->. destruct H as [Hab _].
      split; intros ->; by apply elem_of_nil in Hab.
    + apply (IH ltac:(destruct l; [done|]; by destruct H) i x y Hx Hy).
Qed.

Lemma lifecycle_is_bounded_witness :
  (length [PENDING; CONFIRMED; PROCESSING; SHIPPED; DELIVERED] <= 5)%nat
  /\ NoDup [PENDING; CONFIRMED; PROCESSING; SHIPPED; DELIVERED].
Proof.
  destruct (lifecycle_is_bounded [PENDING; CONFIRMED; PROCESSING; SHIPPED; DELIVERED])
    as (Hlen & Hnd & _); [|done].
  simpl. rewrite !elem_of_cons. tauto.
Defined.

(** ** Runs of the process-order job *)

(** In a steady environment that accepts the save, [updateStatus] along an
    edge of the table succeeds: the row is stored and no cached copy of the
    order is left. *)
Lemma updateStatus_succeeds env id updateDto st current st1 :
  findOne env id st = (Ok current, st1) ->
  allowedNext (Order.status current) (UpdateOrderStatusDto.status updateDto) ->
  (forall row, save_outcome env row = None) -> steady env ->
  exists st',
    updateStatus env id updateDto st
    = (Ok (updated_row (now st) updateDto current), st')
    /\ store st'
       = <[Order.id current := updated_row (now st) updateDto current]> (store st)
    /\ now st' = now st
    /\ cache_orders st' !! order_key id = None.
Proof.
  intros Hload Hedge Hsave Hup.
  destruct (findOne_calls _ _ _ _ Hload) as (_ & Hn1 & _).
  assert (Hst1 : store st1 = store st).
  { pose proof (findOne_store (env:=env) id st) as Hs. by rewrite Hload in Hs. }
  rewrite (updateStatus_valid _ _ _ _ _ _ Hload Hedge).
  rewrite (commit_update_saved _ _ _ _ _ (Hsave _)).
  destruct (after_update_save_steady env id
              (updated_row (now st1) updateDto current)
              (after_update st1 (updated_row (now st1) updateDto current)) Hup)
    as (st' & Hrun & Hs' & Hn' & Hc').
  exists st'. rewrite Hrun, Hs', Hn', <- Hn1. simpl.
  split; [done|]. split; [|split; [done|]].
  - unfold updated_row. simpl. by rewrite apply_update_id, Hst1.
  - eapply lookup_weaken_None; [|exact Hc']. apply lookup_delete_eq.
Qed.

(** A job for an order that is not in the table fails: the validation
    step does not find the order, and neither does the cancellation in the
    [catch] block, whose error is the one thrown. That error is
    [NotFoundException] when the table answers that there is no such row,
    and the error of the table when it refuses the id, which is not the
    text of a uuid. Nothing is saved or published, and only the first
    progress mark is reported. *)
Theorem job_for_unknown_order env job st :
  reachable st -> store st !! job_orderId job = None ->
  exists e st',
    handleOrderProcessing env job st = (Err e, st')
    /\ (id_rejected env (job_orderId job) = None -> e = NotFound (job_orderId job))
    /\ (forall m, id_rejected env (job_orderId job) = Some m -> e = StoreError m)
    /\ store st' = store st
    /\ calls_of (handleOrderProcessing env job) st
       = [JobProgress 20;
          CacheGet (order_key (job_orderId job)); RepoFindOne (job_orderId job);
          CacheGet (order_key (job_orderId job)); RepoFindOne (job_orderId job)].
Proof.
  intros Hreach Hrow. apply reachable_sound in Hreach.
  assert (Hmiss : cached_order st (job_orderId job) = None).
  { destruct (cached_order st (job_orderId job)) as [c|] eqn:Hc; [|done].
    apply (sound_cached_order st _ c Hreach) in Hc as [_ Hin].
    rewrite Hrow in Hin. by destruct Hin. }
  assert (Hfail : exists e,
             (forall s,
                 cached_order s (job_orderId job) = None ->
                 store s !! job_orderId job = None ->
                 findOne env (job_orderId job) s
                 = (Err e,
                    log_calls [CacheGet (order_key (job_orderId job));
                               RepoFindOne (job_orderId job)] s))
             /\ (id_rejected env (job_orderId job) = None
                 -> e = NotFound (job_orderId job))
             /\ (forall m, id_rejected env (job_orderId job) = Some m
                           -> e = StoreError m)).
  { destruct (id_rejected env (job_orderId job)) as [m|] eqn:Hm.
    - exists (StoreError m). split; [|split; [done|by intros ? [= ->]]].
      intros s H1 H2. by apply findOne_miss_rejected.
    - exists (NotFound (job_orderId job)). split; [|done].
      intros s H1 H2. by apply findOne_miss_absent. }
  destruct Hfail as (e & Hfind & Hnone & Hsome).
  assert (Hpipe : pipeline env (job_orderId job) st
                  = (Err e,
                     log_calls [CacheGet (order_key (job_orderId job));
                                RepoFindOne (job_orderId job)]
                       (log_calls [JobProgress 20] st))).
  { rewrite pipeline_run, validateOrder_run. by rewrite Hfind. }
  exists e. eexists.
  rewrite (handleOrderProcessing_err _ _ _ _ _ Hpipe), on_failure_run.
  erewrite updateStatus_findOne_fails; [|by apply Hfind].
  split; [reflexivity|]. split; [done|]. split; [done|]. split; [done|].
  apply calls_of_log_calls.
  rewrite (handleOrderProcessing_err _ _ _ _ _ Hpipe), on_failure_run.
  erewrite updateStatus_findOne_fails; [|by apply Hfind].
  simpl. by rewrite <- !app_assoc.
Qed.

Lemma job_for_unknown_order_witness :
  (handleOrderProcessing reliable (mkJob unknown_id "user-123") st_created).1
  = Err (NotFound unknown_id)
  /\ store (handleOrderProcessing reliable (mkJob unknown_id "user-123") st_created).2
     = store st_created.
Proof.
  destruct (job_for_unknown_order reliable (mkJob unknown_id "user-123") st_created)
    as (e & st' & Hrun & Hnone & _ & Hst & _).
  - apply (reachable_step reliable (OpCreateOrder sample_dto)), reachable_initial.
  - by vm_compute.
  - rewrite Hrun. simpl. split; [|done]. f_equal. apply Hnone. by vm_compute.
Defined.

(** The first [findOne] of a job after the creation of its order loads the
    row of the order from the table and caches it. *)
Lemma findOne_after_createOrder env env' createOrderDto st o st1 l :
  reachable st ->
  createOrder env createOrderDto st = (Ok o, st1) ->
  exists s,
    findOne env' (NewOrder.id o) (log_calls l st1) = (Ok (row_of env o), s)
    /\ store s = store st1 /\ now s = now st1
    /\ cached_order s (NewOrder.id o) = Some (row_of env o)
    /\ store st1 !! NewOrder.id o = Some (row_of env o).
Proof.
  intros Hreach Hrun.
  destruct (createOrder_leaves _ _ _ _ _ Hreach Hrun)
    as (Hfresh & Hstore & Hn & Hmiss).
  assert (Hrow : store st1 !! NewOrder.id o = Some (row_of env o))
    by by rewrite Hstore, lookup_insert_eq.
  assert (Hload : exists s,
             findOne env' (NewOrder.id o) (log_calls l st1) = (Ok (row_of env o), s)).
  { eexists. by apply findOne_miss_found. }
  destruct Hload as [s Hload]. exists s. split; [done|].
  destruct (findOne_calls _ _ _ _ Hload) as (_ & Hn1 & Hc1).
  pose proof (findOne_store (env:=env') (NewOrder.id o) (log_calls l st1)) as Hs.
  rewrite Hload in Hs. done.
Qed.

(** An order created without items is cancelled by its job. When
    the job that [createOrder] enqueued runs next, in a steady environment
    that accepts the save, its validation step throws [Order has no items],
    the order is stored as cancelled with that reason, and that error is the
    one thrown to the queue. *)
Theorem itemless_order_is_cancelled_by_its_job env createOrderDto st o st1 env' :
  reachable st ->
  createOrder env createOrderDto st = (Ok o, st1) ->
  CreateOrderDto.items createOrderDto = [] ->
  (forall row, save_outcome env' row = None) -> steady env' ->
  QueueAdd "process-order" (mkJob (NewOrder.id o) (NewOrder.userId o))
    ∈ calls_of (createOrder env createOrderDto) st
  /\ exists st2 o',
      handleOrderProcessing env' (mkJob (NewOrder.id o) (NewOrder.userId o)) st1
      = (Err (JsError "Order has no items"), st2)
      /\ store st2 !! NewOrder.id o = Some o'
      /\ Order.status o' = CANCELLED
      /\ Order.cancelReason o' = Some "Order has no items"
      /\ Order.cancelledAt o' = Some (now st1).
Proof.
  intros Hreach Hrun Hitems Hsave Hup. split.
  { rewrite (createOrder_calls _ _ _ _ _ Hrun).
    rewrite elem_of_app, !elem_of_cons. left. do 3 right. by left. }
  destruct (findOne_after_createOrder _ env' _ _ _ _ [JobProgress 20] Hreach Hrun)
    as (s & Hload & Hs & Hn & Hc & Hrow).
  pose proof (createOrder_ok _ _ _ _ _ Hrun) as (Ho & _).
  assert (Hempty : Order.items (row_of env o) = [])
    by (subst o; simpl; by rewrite Hitems).
  assert (Hpending : Order.status (row_of env o) = PENDING) by by subst o.
  assert (Hid : Order.id (row_of env o) = NewOrder.id o) by done.
  assert (Hpipe : pipeline env' (NewOrder.id o) st1
                  = (Err (JsError "Order has no items"), s)).
  { rewrite pipeline_run, validateOrder_run, Hload. by rewrite Hempty. }
  change (NewOrder.id o)
    with (job_orderId (mkJob (NewOrder.id o) (NewOrder.userId o))) in Hpipe at 1.
  rewrite (handleOrderProcessing_err _ _ _ _ _ Hpipe), on_failure_run. simpl.
  destruct (updateStatus_succeeds env' (NewOrder.id o)
              (cancel_dto (JsError "Order has no items")) s (row_of env o)
              (log_calls [CacheGet (order_key (NewOrder.id o))] s))
    as (st2 & Hupd & Hst2 & Hn2 & _); [by apply findOne_hit| |done|done|].
  { rewrite Hpending. constructor. }
  rewrite Hupd. eexists _, _. split; [reflexivity|].
  split; [by rewrite Hst2, Hid, lookup_insert_eq|].
  unfold updated_row, apply_update. simpl. by rewrite Hn.
Qed.

Lemma itemless_order_is_cancelled_by_its_job_witness :
  exists st2 o',
    handleOrderProcessing reliable (mkJob "0" "user-123")
      (createOrder reliable empty_dto initial_state).2
    = (Err (JsError "Order has no items"), st2)
    /\ store st2 !! "0" = Some o'
    /\ Order.status o' = CANCELLED
    /\ Order.cancelReason o' = Some "Order has no items".
Proof.
  destruct (createOrder reliable empty_dto initial_state) as [[o|e] st1] eqn:Hrun;
    [|by vm_compute in Hrun].
  destruct (itemless_order_is_cancelled_by_its_job reliable empty_dto
              initial_state o st1 reliable)
    as (_ & st2 & o' & Hjob & Hrow & Hst & Hreason & _);
    [apply reachable_initial|done|done|done|done|].
  assert (Ho : o = new_order initial_state empty_dto).
  { vm_compute in Hrun. injection Hrun as <- _. by vm_compute. }
  rewrite Ho in Hjob, Hrow. exists st2, o'. done.
Defined.

(** An order created with items is confirmed by its job. When the
    job that [createOrder] enqueued runs next, with the simulated steps of
    the source, in a steady environment that accepts the save, it returns
    its success result, the order is stored as confirmed, and no cached copy
    of it is left, so that the next [findOne] reads the confirmed row. *)
Theorem new_order_is_confirmed_by_its_job env createOrderDto st o st1 env' :
  reachable st ->
  createOrder env createOrderDto st = (Ok o, st1) ->
  CreateOrderDto.items createOrderDto <> [] ->
  simulated_steps env' ->
  (forall row, save_outcome env' row = None) -> steady env' ->
  exists st2 o',
    handleOrderProcessing env' (mkJob (NewOrder.id o) (NewOrder.userId o)) st1
    = (Ok (mkJobResult true (NewOrder.id o) "Order processed successfully"), st2)
    /\ store st2 !! NewOrder.id o = Some o'
    /\ Order.status o' = CONFIRMED
    /\ Order.items o' = Order.items (row_of env o)
    /\ forall env'',
        findOne env'' (NewOrder.id o) st2
        = (Ok o',
           set_cache_orders
             (<[order_key (NewOrder.id o) := (o', now st2 + 300)]> (cache_orders st2))
             (log_calls [CacheGet (order_key (NewOrder.id o));
                         RepoFindOne (NewOrder.id o);
                         CacheSet (order_key (NewOrder.id o)) 300] st2)).
Proof.
  intros Hreach Hrun Hitems Hsim Hsave Hup.
  destruct (findOne_after_createOrder _ env' _ _ _ _ [JobProgress 20] Hreach Hrun)
    as (s & Hload & Hs & Hn & Hc & Hrow).
  pose proof (createOrder_ok _ _ _ _ _ Hrun) as (Ho & _).
  assert (Hfull : Order.items (row_of env o) <> []).
  { subst o. simpl. by destruct (CreateOrderDto.items createOrderDto). }
  assert (Hpending : Order.status (row_of env o) = PENDING) by by subst o.
  assert (Hid : Order.id (row_of env o) = NewOrder.id o) by done.
  assert (Hval : validateOrder env' (NewOrder.id o) (log_calls [JobProgress 20] st1)
                 = (Ok tt, s)).
  { rewrite validateOrder_run, Hload. by destruct (Order.items (row_of env o)). }
  set (l := [JobProgress 40; InventoryCheck (NewOrder.id o); JobProgress 60;
             InventoryReserve (NewOrder.id o); JobProgress 80;
             PaymentInitiate (NewOrder.id o); JobProgress 100]).
  destruct (updateStatus_succeeds env' (NewOrder.id o) confirm_dto (log_calls l s)
              (row_of env o)
              (log_calls [CacheGet (order_key (NewOrder.id o))] (log_calls l s)))
    as (st2 & Hupd & Hst2 & Hn2 & Hgone); [by apply findOne_hit| |done|done|].
  { rewrite Hpending. constructor. }
  assert (Hpipe : pipeline env' (NewOrder.id o) st1
                  = (Ok (mkJobResult true (NewOrder.id o)
                           "Order processed successfully"),
                     st2)).
  { rewrite (simulated_steps_pass _ _ _ _ Hsim Hval). fold l. by rewrite Hupd. }
  change (NewOrder.id o)
    with (job_orderId (mkJob (NewOrder.id o) (NewOrder.userId o))) in Hpipe at 1.
  rewrite (handleOrderProcessing_ok _ _ _ _ _ Hpipe). simpl.
  eexists _, _. split; [reflexivity|].
  assert (Hstored : store st2 !! NewOrder.id o
                    = Some (updated_row (now (log_calls l s)) confirm_dto
                              (row_of env o)))
    by by rewrite Hst2, Hid, lookup_insert_eq.
  split; [exact Hstored|]. split; [done|]. split; [done|].
  intros env''. apply findOne_miss_found; [|exact Hstored].
  unfold cached_order. by rewrite Hgone.
Qed.

Lemma new_order_is_confirmed_by_its_job_witness :
  exists st2 o',
    handleOrderProcessing reliable (mkJob "0" "user-123") st_created
    = (Ok (mkJobResult true "0" "Order processed successfully"), st2)
    /\ store st2 !! "0" = Some o'
    /\ Order.status o' = CONFIRMED.
Proof.
  destruct (createOrder reliable sample_dto initial_state) as [[o|e] st1] eqn:Hrun;
    [|by vm_compute in Hrun].
  destruct (new_order_is_confirmed_by_its_job reliable sample_dto initial_state
              o st1 reliable)
    as (st2 & o' & Hjob & Hrow & Hst & _);
    [apply reachable_initial|done|done|done|done|done|].
  assert (Ho : o = new_order initial_state sample_dto).
  { vm_compute in Hrun. injection Hrun as <- _. by vm_compute. }
  assert (Hst1 : st1 = st_created).
  { unfold st_created. by rewrite Hrun. }
  rewrite Ho, Hst1 in Hjob. rewrite Ho in Hrow. exists st2, o'. done.
Defined.

(** ** The process-order handler, step by step *)

Lemma sound_log_calls l st : sound st -> sound (log_calls l st).
Proof. intros H. by apply (sound_shrunk st). Qed.

Lemma sound_validateOrder env id :
  hoare sound (validateOrder env id) (fun _ => True).
Proof.
  unfold validateOrder. eapply hoare_bind with (R := fun _ => True).
  - eapply hoare_weaken; [apply sound_findOne|done].
  - intros o _. destruct (Order.items o); [apply hoare_throw|by apply hoare_ret].
Qed.

(** In a sound state the [try] block of the handler leaves a sound state,
    and when it returns it has stored the order of the job as confirmed. *)
Lemma sound_pipeline env id st :
  sound st ->
  sound (pipeline env id st).2
  /\ forall r s2,
      pipeline env id st = (Ok r, s2) ->
      exists o, store s2 !! id = Some o /\ Order.status o = CONFIRMED.
Proof.
  intros Hs. rewrite pipeline_run.
  destruct (sound_validateOrder env id (log_calls [JobProgress 20] st))
    as [Hs0 _]; [by apply sound_log_calls|].
  destruct (validateOrder env id _) as [[[]|e] s0]; simpl in Hs0; [|done].
  destruct (inventory_available env id); [|split; [by apply sound_log_calls|done]].
  destruct (reserve_outcome env id); [split; [by apply sound_log_calls|done]|].
  destruct (payment_outcome env id); [split; [by apply sound_log_calls|done]|].
  match goal with |- context [updateStatus env id confirm_dto ?s] =>
    destruct (sound_updateStatus env id confirm_dto s) as [Hs2 Hid];
      [by apply sound_log_calls|];
    destruct (updateStatus env id confirm_dto s) as [[o|e] s2] eqn:Hup
  end; simpl in *; [|done].
  split; [done|]. intros r s2' [= <- <-]. exists o.
  apply updateStatus_confirm_ok in Hup as [Hst Hrow].
  by rewrite (Hid o eq_refl) in Hrow.
Qed.

(** C7, amended. In the process-order handler a failing step ends the [try]
    block at once, with no later step run; when every step passes, the
    block asks [updateStatus] to move the order of the job to [CONFIRMED].
    After a failed block the handler attempts
    [updateStatus(orderId, CANCELLED, error.message)]; when that update
    succeeds, the order of the job is stored as [CANCELLED] with
    [cancelReason] equal to the error's message and the error of the step is
    thrown to the queue. A handler that returns has stored the order of the
    job as [CONFIRMED]. The queue is registered with 3 attempts, exponential
    backoff from 2 seconds, [removeOnComplete] and no [removeOnFail]: a job
    is run at most 3 times, its record is dropped once a run returns and
    kept after three failed runs. *)
Theorem process_order_job env job st :
  (forall e s1,
      validateOrder env (job_orderId job) (log_calls [JobProgress 20] st) = (Err e, s1) ->
      pipeline env (job_orderId job) st = (Err e, s1))
  /\ (forall s1,
      validateOrder env (job_orderId job) (log_calls [JobProgress 20] st) = (Ok tt, s1) ->
      (inventory_available env (job_orderId job) = false ->
       pipeline env (job_orderId job) st
       = (Err (JsError "Insufficient inventory"),
          log_calls [JobProgress 40; InventoryCheck (job_orderId job)] s1))
      /\ (forall m,
           inventory_available env (job_orderId job) = true ->
           reserve_outcome env (job_orderId job) = Some m ->
           pipeline env (job_orderId job) st
           = (Err (JsError m),
              log_calls [JobProgress 40; InventoryCheck (job_orderId job);
                         JobProgress 60; InventoryReserve (job_orderId job)] s1))
      /\ (forall m,
           inventory_available env (job_orderId job) = true ->
           reserve_outcome env (job_orderId job) = None ->
           payment_outcome env (job_orderId job) = Some m ->
           pipeline env (job_orderId job) st
           = (Err (JsError m),
              log_calls [JobProgress 40; InventoryCheck (job_orderId job);
                         JobProgress 60; InventoryReserve (job_orderId job);
                         JobProgress 80; PaymentInitiate (job_orderId job)] s1))
      /\ (inventory_available env (job_orderId job) = true ->
          reserve_outcome env (job_orderId job) = None ->
          payment_outcome env (job_orderId job) = None ->
          pipeline env (job_orderId job) st
          = match updateStatus env (job_orderId job)
                    (UpdateOrderStatusDto.mk CONFIRMED None)
                    (log_calls [JobProgress 40; InventoryCheck (job_orderId job);
                                JobProgress 60; InventoryReserve (job_orderId job);
                                JobProgress 80; PaymentInitiate (job_orderId job);
                                JobProgress 100] s1) with
            | (Ok _, s2) =>
                (Ok (mkJobResult true (job_orderId job)
                       "Order processed successfully"), s2)
            | (Err e, s2) => (Err e, s2)
            end))
  /\ (forall e s1,
      pipeline env (job_orderId job) st = (Err e, s1) ->
      handleOrderProcessing env job st
      = match updateStatus env (job_orderId job)
                (UpdateOrderStatusDto.mk CANCELLED (Some (message e))) s1 with
        | (Ok _, s2) => (Err e, s2)
        | (Err e', s2) => (Err e', s2)
        end
      /\ forall o s2,
          updateStatus env (job_orderId job)
            (UpdateOrderStatusDto.mk CANCELLED (Some (message e))) s1 = (Ok o, s2) ->
          handleOrderProcessing env job st = (Err e, s2)
          /\ Order.status o = CANCELLED
          /\ Order.cancelReason o = Some (message e)
          /\ store s2 !! Order.id o = Some o
          /\ (reachable st -> store s2 !! job_orderId job = Some o))
  /\ (forall r s2,
      handleOrderProcessing env job st = (Ok r, s2) ->
      r = mkJobResult true (job_orderId job) "Order processed successfully"
      /\ (exists o, Order.status o = CONFIRMED /\ store s2 !! Order.id o = Some o)
      /\ (reachable st ->
          exists o,
            store s2 !! job_orderId job = Some o /\ Order.status o = CONFIRMED))
  /\ (attempts defaultJobOptions = 3%nat
      /\ backoff_type (backoff defaultJobOptions) = Exponential
      /\ backoff_delay (backoff defaultJobOptions) = 2 * 1000
      /\ removeOnComplete defaultJobOptions = true
      /\ removeOnFail defaultJobOptions = false)
  /\ (forall envs,
      (attempts_made (run_job defaultJobOptions envs job st).1 <= 3)%nat
      /\ (forall r,
          last_result (run_job defaultJobOptions envs job st).1 = Ok r ->
          record_kept (run_job defaultJobOptions envs job st).1 = false)
      /\ (forall e,
          last_result (run_job defaultJobOptions envs job st).1 = Err e ->
          record_kept (run_job defaultJobOptions envs job st).1 = true
          /\ attempts_made (run_job defaultJobOptions envs job st).1 = 3%nat)).
Proof.
  split; [|split; [|split; [|split; [|split; [done|]]]]].
  - intros e s1 Hv. by rewrite pipeline_run, Hv.
  - intros s1 Hv. split; [|split; [|split]].
    + intros Hi. by rewrite pipeline_run, Hv, Hi.
    + intros m Hi Hr. by rewrite pipeline_run, Hv, Hi, Hr.
    + intros m Hi Hr Hp. by rewrite pipeline_run, Hv, Hi, Hr, Hp.
    + intros Hi Hr Hp. by rewrite pipeline_run, Hv, Hi, Hr, Hp.
  - intros e s1 Hpipe.
    split; [by rewrite (handleOrderProcessing_err _ _ _ _ _ Hpipe), on_failure_run|].
    intros o s2 Hup. fold (cancel_dto e) in Hup.
    rewrite (handleOrderProcessing_err _ _ _ _ _ Hpipe), on_failure_run, Hup.
    pose proof (updateStatus_cancel_ok _ _ _ _ _ _ Hup) as (? & ? & _ & Hrow).
    do 4 (split; [done|]).
    intros Hreach. apply reachable_sound in Hreach.
    destruct (sound_pipeline env (job_orderId job) st Hreach) as [Hs1 _].
    rewrite Hpipe in Hs1.
    destruct (sound_updateStatus env (job_orderId job) (cancel_dto e) s1 Hs1)
      as [_ Hid].
    rewrite Hup in Hid. by rewrite (Hid o eq_refl) in Hrow.
  - intros r s2 H.
    destruct (pipeline env (job_orderId job) st) as [[r'|e] s1] eqn:Hpipe.
    + rewrite (handleOrderProcessing_ok _ _ _ _ _ Hpipe) in H.
      injection H as <- <-. split; [|split].
      * rewrite pipeline_run in Hpipe.
        destruct (validateOrder env _ _) as [[[]|?] s0]; [|done].
        destruct (inventory_available env _); [|done].
        destruct (reserve_outcome env _); [done|].
        destruct (payment_outcome env _); [done|].
        destruct (updateStatus env _ confirm_dto _) as [[o|?] s3]; [|done].
        by injection Hpipe as <- _.
      * rewrite pipeline_run in Hpipe.
        destruct (validateOrder env _ _) as [[[]|?] s0]; [|done].
        destruct (inventory_available env _); [|done].
        destruct (reserve_outcome env _); [done|].
        destruct (payment_outcome env _); [done|].
        destruct (updateStatus env _ confirm_dto _) as [[o|?] s3] eqn:Hup; [|done].
        injection Hpipe as _ <-.
        exists o. by apply updateStatus_confirm_ok in Hup.
      * intros Hreach. apply reachable_sound in Hreach.
        by apply (proj2 (sound_pipeline env (job_orderId job) st Hreach) r' s1).
    + rewrite (handleOrderProcessing_err _ _ _ _ _ Hpipe), on_failure_run in H.
      by destruct (updateStatus _ _ _ _) as [[?|?] ?].
  - intros envs. unfold run_job.
    destruct (run_attempts_policy defaultJobOptions envs
                (attempts defaultJobOptions) 0 job st) as (Hle & Hok & Herr).
    split; [exact Hle|]. split; [exact Hok|]. exact Herr.
Qed.

Lemma process_order_job_witness :
  handleOrderProcessing out_of_stock sample_job st_created
  = (Err (JsError "Insufficient inventory"), st_first_attempt)
  /\ exists o,
      store st_first_attempt !! job_orderId sample_job = Some o
      /\ Order.status o = CANCELLED
      /\ Order.cancelReason o = Some "Insufficient inventory".
Proof.
  destruct (pipeline out_of_stock (job_orderId sample_job) st_created)
    as [[r|e] s1] eqn:Hpipe; [by vm_compute in Hpipe|].
  assert (He : e = JsError "Insufficient inventory").
  { vm_compute in Hpipe. by injection Hpipe as <- _. }
  destruct (updateStatus out_of_stock (job_orderId sample_job)
              (UpdateOrderStatusDto.mk CANCELLED (Some (message e))) s1)
    as [[o|e'] s2] eqn:Hup.
  2: { subst e. vm_compute in Hpipe. injection Hpipe as <-. by vm_compute in Hup. }
  destruct (process_order_job out_of_stock sample_job st_created)
    as (_ & _ & Hcatch & _).
  destruct (Hcatch e s1 Hpipe) as [_ Hcancel].
  destruct (Hcancel o s2 Hup) as (Hres & Hst & Hreason & _ & Hstored).
  assert (Hs2 : s2 = st_first_attempt).
  { unfold st_first_attempt. by rewrite Hres. }
  assert (Hreach : reachable st_created).
  { apply (reachable_step reliable (OpCreateOrder sample_dto)), reachable_initial. }
  specialize (Hstored Hreach). clear Hpipe Hup Hcatch Hcancel.
  rewrite Hs2, He in *. split; [done|]. by exists o.
Defined.

(** ** Reads in reachable states *)




(** A cached copy of an order is served for at most 300 seconds. In
    every reachable state, once 300 seconds or more have passed without any
    operation, [findOne] of a stored order reads the table and returns the
    stored row. *)
Theorem cached_copy_expires env st id o seconds :
  reachable st -> store st !! id = Some o -> 300 <= Z.of_N seconds ->
  cached_order (run_op env (OpTick seconds) st) id = None
  /\ exists st',
      findOne env id (run_op env (OpTick seconds) st) = (Ok o, st')
      /\ RepoFindOne id ∈ calls_of (findOne env id) (run_op env (OpTick seconds) st).
Proof.
  intros Hreach Hrow Hlong. apply reachable_sound in Hreach as [_ Hk].
  assert (Hmiss : cached_order (run_op env (OpTick seconds) st) id = None).
  { unfold cached_order. simpl.
    destruct (cache_orders st !! order_key id) as [[c e]|] eqn:Hkey; [|done].
    simpl. unfold live. simpl. case_decide; [|done].
    apply Hk in Hkey as (_ & _ & He). lia. }
  split; [done|].
  assert (Hload := findOne_miss_found (env:=env) id
                     (run_op env (OpTick seconds) st) o Hmiss Hrow).
  eexists. split; [exact Hload|].
  erewrite calls_of_log_calls; [|by rewrite Hload].
  rewrite !elem_of_cons. auto.
Qed.

Lemma cached_copy_expires_witness :
  exists o st',
    store st_shipped_unannounced !! "0" = Some o
    /\ Order.status o = SHIPPED
    /\ findOne reliable "0" (run_op reliable (OpTick 300) st_shipped_unannounced)
       = (Ok o, st').
Proof.
  destruct (store st_shipped_unannounced !! "0") as [o|] eqn:Hrow;
    [|by vm_compute in Hrow].
  destruct (cached_copy_expires reliable st_shipped_unannounced "0" o 300)
    as (_ & st' & Hload & _); [|done|done|].
  { do 3 apply reachable_step.
    apply (reachable_step reliable (OpCreateOrder sample_dto)), reachable_initial. }
  exists o, st'. split; [done|]. split; [|done].
  vm_compute in Hrow. by injection Hrow as <-.
Defined.

(** ** The invoice job *)



(** ** The gRPC controller *)

(** In a reachable state a successful [UpdateOrderStatus] call
    replies with the id and the status of the request, and the order is
    stored with that status. The request carries no reason: an order
    cancelled through gRPC is stored with the empty string as
    [cancelReason]. *)
Theorem grpc_updateOrderStatus env id status st reply st' :
  reachable st ->
  OrderGrpcController.updateOrderStatus env id status st = (Ok reply, st') ->
  reply = mkUpdateOrderStatusReply true id status
  /\ exists o,
      store st' !! id = Some o
      /\ Order.status o = status
      /\ (status = CANCELLED ->
          Order.cancelReason o = Some "" /\ Order.cancelledAt o = Some (now st)).
Proof.
  intros Hreach H. unfold OrderGrpcController.updateOrderStatus in H.
  apply bind_ok_inv in H as (o & s & Hupd & H). injection H as <- <-.
  apply reachable_sound in Hreach.
  destruct (sound_updateStatus env id (UpdateOrderStatusDto.mk status None) st Hreach)
    as [_ Hid].
  rewrite Hupd in Hid. specialize (Hid o eq_refl).
  apply updateStatus_ok in Hupd as (current & st1 & Hload & _ & Ho & Hst).
  assert (Hs : Order.status o = status).
  { subst o. unfold updated_row, apply_update. simpl. by destruct (decide _). }
  split; [by rewrite Hid, Hs|].
  exists o. split; [by rewrite Hst, Hid, lookup_insert_eq|]. split; [done|].
  intros ->. subst o. unfold updated_row, apply_update. by simpl.
Qed.

Lemma grpc_updateOrderStatus_witness :
  exists st' o,
    OrderGrpcController.updateOrderStatus reliable "0" CANCELLED st_created
    = (Ok (mkUpdateOrderStatusReply true "0" CANCELLED), st')
    /\ store st' !! "0" = Some o
    /\ Order.cancelReason o = Some "".
Proof.
  destruct (OrderGrpcController.updateOrderStatus reliable "0" CANCELLED st_created)
    as [[reply|e] st'] eqn:Hrun; [|by vm_compute in Hrun].
  destruct (grpc_updateOrderStatus _ _ _ _ _ _
              (reachable_step reliable (OpCreateOrder sample_dto) _ reachable_initial)
              Hrun)
    as (-> & o & Hrow & _ & Hc).
  exists st', o. split; [done|]. split; [done|]. by apply Hc.
Defined.

(** ** Pages of the REST controller *)

Lemma ceil_div_spec (total : nat) (limit : Z) :
  1 <= limit ->
  exists n,
    ceil_div total limit = JsFinite n
    /\ 0 <= n
    /\ (n - 1) * limit < Z.of_nat total <= n * limit.
Proof.
  intros Hlimit. unfold ceil_div. case_decide; [lia|].
  eexists. split; [done|].
  pose proof (Z.div_mod (- Z.of_nat total) limit ltac:(lia)) as Hdm.
  pose proof (Z.mod_pos_bound (- Z.of_nat total) limit ltac:(lia)) as Hb.
  nia.
Qed.

(** [getUserOrders] answers a request without [page] and [limit] as
    page 1 with 10 orders a page. For a page number and a page size of at
    least 1, when the listing is read from the table, [totalPages] is the
    number of orders of the user divided by the page size and rounded up;
    the page returned is empty exactly when its number is beyond
    [totalPages], and every page before the last is full. *)
Theorem getUserOrders_pagination userId page limit st :
  1 <= page -> 1 <= limit ->
  cache_listings st !! listing_key userId page limit ≫= live (now st) = None ->
  OrderController.getUserOrders userId None None
  = OrderController.getUserOrders userId (Some 1) (Some 10)
  /\ exists response st' n,
      OrderController.getUserOrders userId (Some page) (Some limit) st
      = (Ok response, st')
      /\ response_success response = true
      /\ pagination_page (response_pagination response) = page
      /\ pagination_limit (response_pagination response) = limit
      /\ pagination_total (response_pagination response)
         = length (filter (fun o => Order.userId o = userId)
                     (map_to_list (store st)).*2)
      /\ pagination_totalPages (response_pagination response) = JsFinite n
      /\ (n - 1) * limit
         < Z.of_nat (pagination_total (response_pagination response))
         <= n * limit
      /\ (response_data response = [] <-> n < page)
      /\ (page < n -> Z.of_nat (length (response_data response)) = limit).
Proof.
  intros Hpage Hlimit Hmiss. split; [done|].
  unfold OrderController.getUserOrders. simpl.
  unfold bind. rewrite (findByUser_miss _ _ _ _ Hmiss) by nia.
  rewrite decide_False by lia. simpl.
  set (all := orders_of_user userId (store st)).
  destruct (ceil_div_spec (length all) limit Hlimit) as (n & Hn & Hn0 & Hceil).
  eexists _, _, n. split; [reflexivity|]. simpl.
  split; [done|]. split; [done|]. split; [done|].
  split; [apply orders_of_user_length|]. split; [done|]. split; [done|].
  assert (Hlen : Z.of_nat (length (take (Z.to_nat limit)
                                     (drop (Z.to_nat ((page - 1) * limit)) all)))
                 = Z.max 0 (Z.min limit (Z.of_nat (length all) - (page - 1) * limit))).
  { rewrite length_take, length_drop. nia. }
  split; [|intros Hlt; rewrite Hlen; nia].
  split.
  - intros Hnil. rewrite Hnil in Hlen. simpl in Hlen. nia.
  - intros Hlt. apply nil_length_inv. nia.
Qed.

Lemma getUserOrders_pagination_witness :
  exists response st',
    OrderController.getUserOrders "user-123" (Some 2) (Some 1)
      (createOrder reliable sample_dto st_created).2
    = (Ok response, st')
    /\ pagination_totalPages (response_pagination response) = JsFinite 2
    /\ response_data response <> [].
Proof.
  destruct (getUserOrders_pagination "user-123" 2 1
              (createOrder reliable sample_dto st_created).2)
    as (_ & response & st' & n & Hrun & _ & _ & _ & Htotal & Hpages & Hceil
        & Hempty & _); [lia|lia|by vm_compute|].
  assert (Ht : pagination_total (response_pagination response) = 2%nat).
  { rewrite Htotal. by vm_compute. }
  rewrite Ht in Hceil. assert (n = 2) as -> by lia.
  exists response, st'. split; [done|]. split; [done|].
  intros Hnil. apply Hempty in Hnil. lia.
Defined.

(** ** Statistics *)

Lemma status_in_all_statuses s : s ∈ all_statuses.
Proof. unfold all_statuses. destruct s; rewrite !elem_of_cons; tauto. Qed.

Lemma all_statuses_NoDup : NoDup all_statuses.
Proof.
  unfold all_statuses.
  repeat (constructor; [rewrite ?elem_of_cons, ?elem_of_nil; intros H;
                        destruct_or?; done|]).
  constructor.
Qed.

Lemma orders_in_split s L rows :
  s ∉ L ->
  length (filter (fun o => Order.status o ∈ s :: L) rows)
  = (length (orders_in s rows)
     + length (filter (fun o => Order.status o ∈ L) rows))%nat
  /\ sum_totalAmount (filter (fun o => Order.status o ∈ s :: L) rows)
     = sum_totalAmount (orders_in s rows)
       + sum_totalAmount (filter (fun o => Order.status o ∈ L) rows).
Proof.
  intros Hs. unfold orders_in. induction rows as [|o rows [IH1 IH2]]; [done|].
  rewrite !filter_cons.
  destruct (decide (Order.status o = s)) as [Heq|Hne].
  - rewrite decide_True by (rewrite elem_of_cons; by left).
    rewrite decide_False by (by rewrite Heq).
    simpl. rewrite IH1, IH2. split; lia.
  - destruct (decide (Order.status o ∈ L)) as [Hin|Hout].
    + rewrite decide_True by (rewrite elem_of_cons; by right).
      simpl. rewrite IH1, IH2. split; lia.
    + rewrite decide_False by (rewrite elem_of_cons; tauto).
      done.
Qed.

Lemma status_row_spec rows s :
  status_row rows s
  = match orders_in s rows with
    | [] => None
    | _ :: _ =>
        Some (mkStatsRow s (length (orders_in s rows))
                (sum_totalAmount (orders_in s rows)))
    end.
Proof.
  unfold status_row, orders_in.
  by destruct (filter (fun o => Order.status o = s) rows).
Qed.

Lemma group_rows_totals L rows :
  NoDup L ->
  sum_list (stats_count <$> omap (status_row rows) L)
  = length (filter (fun o => Order.status o ∈ L) rows)
  /\ foldr Z.add 0 (stats_totalAmount <$> omap (status_row rows) L)
     = sum_totalAmount (filter (fun o => Order.status o ∈ L) rows)
  /\ NoDup (stats_status <$> omap (status_row rows) L)
  /\ forall s, s ∈ (stats_status <$> omap (status_row rows) L) -> s ∈ L.
Proof.
  induction 1 as [|s L Hs Hnd (IH1 & IH2 & IH3 & IH4)].
  - assert (Hnil : filter (fun o => Order.status o ∈ []) rows = []).
    { induction rows as [|o rows IH]; [done|].
      rewrite filter_cons, decide_False; [done|]. apply not_elem_of_nil. }
    rewrite Hnil. simpl. split; [done|]. split; [done|]. split; [constructor|].
    intros s H. by apply elem_of_nil in H.
  - destruct (orders_in_split s L rows Hs) as [-> ->].
    cbn [omap list_omap]. rewrite status_row_spec.
    destruct (orders_in s rows) as [|o g] eqn:Hg.
    + simpl. rewrite IH1, IH2. split; [done|]. split; [lia|]. split; [done|].
      intros s' Hin. apply elem_of_cons. right. by apply IH4.
    + cbn [fmap list_fmap sum_list sum_list_with foldr stats_count
             stats_totalAmount stats_status].
      rewrite IH1, IH2. split; [done|]. split; [done|]. split.
      * constructor; [|done]. intros Hin. by apply IH4 in Hin.
      * intros s' [->|Hin]%elem_of_cons; apply elem_of_cons; [by left|].
        right. by apply IH4.
Qed.

Lemma filter_all_statuses (rows : list Order.t) :
  filter (fun o => Order.status o ∈ all_statuses) rows = rows.
Proof.
  induction rows as [|o rows IH]; [done|].
  rewrite filter_cons, decide_True by apply status_in_all_statuses.
  by rewrite IH.
Qed.

Lemma getOrderStats_run userId st :
  getOrderStats userId st = (Ok (group_by_status (stats_scope userId (store st))), st).
Proof.
  unfold getOrderStats, stats_scope, truthy. run.
  destruct userId as [[|a u]|]; [done| |done].
  do 3 f_equal. apply list_filter_iff. intros o. split; congruence.
Qed.

(** [getOrderStats] reads the table and nothing else: it uses no
    cache and changes no state. It answers one row for each status that
    some order in scope has, with the number of those orders and the sum of
    their amounts; so the counts add up to the number of orders in scope
    and the sums to their total amount. The scope is the orders of the user
    given, and all orders when no user id, or an empty one, is given. *)
Theorem getOrderStats_totals userId st :
  exists stats,
    getOrderStats userId st = (Ok stats, st)
    /\ (forall row,
         row ∈ stats <->
         exists s,
           orders_in s (stats_scope userId (store st)) <> []
           /\ row = mkStatsRow s
                      (length (orders_in s (stats_scope userId (store st))))
                      (sum_totalAmount (orders_in s (stats_scope userId (store st)))))
    /\ NoDup (stats_status <$> stats)
    /\ sum_list (stats_count <$> stats) = length (stats_scope userId (store st))
    /\ foldr Z.add 0 (stats_totalAmount <$> stats)
       = sum_totalAmount (stats_scope userId (store st))
    /\ getOrderStats (Some "") st = getOrderStats None st.
Proof.
  rewrite getOrderStats_run. eexists. split; [reflexivity|].
  set (rows := stats_scope userId (store st)).
  split; [|split; [|split; [|split]]].
  - intros row. unfold group_by_status. rewrite list_elem_of_omap. split.
    + intros (s & _ & Hrow). exists s. rewrite status_row_spec in Hrow.
      destruct (orders_in s rows) as [|o g]; [done|].
      injection Hrow as <-. done.
    + intros (s & Hne & ->). exists s. split; [apply status_in_all_statuses|].
      rewrite status_row_spec. by destruct (orders_in s rows).
  - apply (group_rows_totals all_statuses rows all_statuses_NoDup).
  - unfold group_by_status.
    rewrite (proj1 (group_rows_totals all_statuses rows all_statuses_NoDup)).
    by rewrite filter_all_statuses.
  - unfold group_by_status.
    rewrite (proj1 (proj2 (group_rows_totals all_statuses rows all_statuses_NoDup))).
    by rewrite filter_all_statuses.
  - by rewrite !getOrderStats_run.
Qed.

Lemma getOrderStats_totals_witness :
  exists stats,
    getOrderStats (Some "user-123") st_first_attempt = (Ok stats, st_first_attempt)
    /\ stats = [mkStatsRow CANCELLED 1 105099].
Proof.
  destruct (getOrderStats_totals (Some "user-123") st_first_attempt)
    as (stats & Hrun & _).
  exists stats. split; [done|].
  vm_compute in Hrun. by injection Hrun as <-.
Defined.

(** ** Progress of a job *)

Lemma progress_marks_app l1 l2 :
  progress_marks (l1 ++ l2) = progress_marks l1 ++ progress_marks l2.
Proof. unfold progress_marks. apply omap_app. Qed.

Lemma progress_marks_service l : Forall service_call l -> progress_marks l = [].
Proof.
  induction 1 as [|c l Hc _ IH]; [done|].
  change (progress_marks (c :: l)) with (progress_marks ([c] ++ l)).
  rewrite progress_marks_app, IH. by destruct c.
Qed.

Lemma emits_validateOrder env id : emits service_call (validateOrder env id).
Proof.
  unfold validateOrder.
  apply emits_bind; [apply emits_findOne|intros order].
  destruct (Order.items order); [apply emits_throw|apply emits_ret].
Qed.

Lemma pipeline_marks env id st :
  exists l n,
    trace (pipeline env id st).2 = trace st ++ l
    /\ (1 <= n <= 5)%nat
    /\ progress_marks l = take n [20; 40; 60; 80; 100]
    /\ (forall r, (pipeline env id st).1 = Ok r -> n = 5%nat).
Proof.
  rewrite pipeline_run.
  destruct (emits_validateOrder env id (log_calls [JobProgress 20] st))
    as (l1 & Ht1 & Hl1%progress_marks_service).
  destruct (validateOrder env id (log_calls [JobProgress 20] st)) as [[[]|e] s1];
    unfold log_calls in *; simpl in Ht1.
  2: { exists ([JobProgress 20] ++ l1), 1%nat.
       split; [simpl; by rewrite Ht1, <- ?app_assoc|]. split; [lia|].
       split; [by rewrite !progress_marks_app, Hl1|done]. }
  destruct (inventory_available env id).
  2: { exists ([JobProgress 20] ++ l1 ++ [JobProgress 40; InventoryCheck id]), 2%nat.
       split; [simpl; by rewrite Ht1, <- ?app_assoc|]. split; [lia|].
       split; [by rewrite !progress_marks_app, Hl1|done]. }
  destruct (reserve_outcome env id).
  { exists ([JobProgress 20] ++ l1
            ++ [JobProgress 40; InventoryCheck id; JobProgress 60;
                InventoryReserve id]), 3%nat.
    split; [simpl; by rewrite Ht1, <- ?app_assoc|]. split; [lia|].
    split; [by rewrite !progress_marks_app, Hl1|done]. }
  destruct (payment_outcome env id).
  { exists ([JobProgress 20] ++ l1
            ++ [JobProgress 40; InventoryCheck id; JobProgress 60;
                InventoryReserve id; JobProgress 80; PaymentInitiate id]), 4%nat.
    split; [simpl; by rewrite Ht1, <- ?app_assoc|]. split; [lia|].
    split; [by rewrite !progress_marks_app, Hl1|done]. }
  match goal with |- context [updateStatus env id confirm_dto ?s] =>
    destruct (emits_updateStatus env id confirm_dto s)
      as (l2 & Ht2 & Hl2%progress_marks_service);
    destruct (updateStatus env id confirm_dto s) as [[o|e] s2]
  end;
    simpl in Ht2;
    (exists ([JobProgress 20] ++ l1
             ++ [JobProgress 40; InventoryCheck id; JobProgress 60;
                 InventoryReserve id; JobProgress 80; PaymentInitiate id;
                 JobProgress 100] ++ l2), 5%nat);
    (split; [simpl; by rewrite Ht2, Ht1, <- ?app_assoc|]); (split; [lia|]);
    (split; [by rewrite !progress_marks_app, Hl1, Hl2|done]).
Qed.

(** The progress a job reports is always an initial part of 20, 40,
    60, 80, 100, with 20 in it; the [catch] block reports none. A run that
    returns has reported all five marks. *)
Theorem job_progress_marks env job st :
  exists n,
    (1 <= n <= 5)%nat
    /\ progress_marks (calls_of (handleOrderProcessing env job) st)
       = take n [20; 40; 60; 80; 100]
    /\ (forall r st', handleOrderProcessing env job st = (Ok r, st') -> n = 5%nat).
Proof.
  destruct (pipeline_marks env (job_orderId job) st) as (l & n & Ht & Hn & Hl & Hok).
  exists n. split; [done|].
  destruct (pipeline env (job_orderId job) st) as [[r|e] s1] eqn:Hpipe; simpl in *.
  - rewrite (handleOrderProcessing_ok _ _ _ _ _ Hpipe).
    rewrite (calls_of_log_calls _ _ l)
      by by rewrite (handleOrderProcessing_ok _ _ _ _ _ Hpipe).
    split; [done|]. intros r' st' _. by eapply Hok.
  - rewrite (handleOrderProcessing_err _ _ _ _ _ Hpipe), on_failure_run.
    destruct (emits_updateStatus env (job_orderId job) (cancel_dto e) s1)
      as (l2 & Ht2 & Hl2%progress_marks_service).
    assert (Htrace : trace (handleOrderProcessing env job st).2
                     = trace st ++ l ++ l2).
    { rewrite (handleOrderProcessing_err _ _ _ _ _ Hpipe), on_failure_run.
      destruct (updateStatus env (job_orderId job) (cancel_dto e) s1) as [[o|e'] s2];
        simpl in *; by rewrite Ht2, Ht, <- app_assoc. }
    rewrite (calls_of_log_calls _ _ _ Htrace), progress_marks_app, Hl2, app_nil_r.
    split; [done|].
    by destruct (updateStatus env (job_orderId job) (cancel_dto e) s1) as [[o|e'] s2].
Qed.

(** ** One operation, one transition *)






(** ** What is published *)

Lemma filter_none {A} (P : A -> Prop) `{forall x, Decision (P x)} (l : list A) :
  Forall (fun x => ~ P x) l -> filter P l = [].
Proof.
  induction 1 as [|x l Hx _ IH]; [done|].
  by rewrite filter_cons, decide_False, IH.
Qed.

Lemma invalidation_calls_unpublished env s userId :
  filter (fun c => is_publication c = true) (invalidation_calls env s userId) = [].
Proof.
  apply filter_none, Forall_forall. intros c Hin.
  apply invalidation_calls_kind in Hin. by destruct c.
Qed.

Lemma load_calls_unpublished st id :
  filter (fun c => is_publication c = true) (load_calls st id) = [].
Proof. unfold load_calls. by destruct (cached_order st id). Qed.

Lemma order_total_lines items :
  order_total items
  = float_sum_from 0%float
      (map (fun item =>
              (OrderItemDto.unitPrice item * OrderItemDto.quantity item)%float)
         items).
Proof.
  unfold order_total. rewrite order_total_float_sum. f_equal.
  rewrite map_map. by apply map_ext.
Qed.

(** A successful [createOrder] publishes two messages and no more:
    the same [ORDER_CREATED] envelope on the Kafka topic [order.created]
    and then on the RabbitMQ pattern [order_created]. It carries the new id,
    the user of the request, the status [PENDING], the number of items, and
    as total amount the double that JavaScript computed: the products
    [unitPrice * quantity] of the lines, added from 0 and from left to right
    in double arithmetic, not the amount the table keeps. *)
Theorem createOrder_announcement env createOrderDto st o st' :
  createOrder env createOrderDto st = (Ok o, st') ->
  filter (fun c => is_publication c = true)
    (calls_of (createOrder env createOrderDto) st)
  = [KafkaEmit "order.created"
       (Envelope "ORDER_CREATED" (now st)
          (OrderCreatedData (NewOrder.id o) (CreateOrderDto.userId createOrderDto)
             (float_sum_from 0%float
                (map (fun item =>
                        (OrderItemDto.unitPrice item
                         * OrderItemDto.quantity item)%float)
                   (CreateOrderDto.items createOrderDto)))
             PENDING (length (CreateOrderDto.items createOrderDto))));
     RabbitEmit "order_created"
       (Envelope "ORDER_CREATED" (now st)
          (OrderCreatedData (NewOrder.id o) (CreateOrderDto.userId createOrderDto)
             (float_sum_from 0%float
                (map (fun item =>
                        (OrderItemDto.unitPrice item
                         * OrderItemDto.quantity item)%float)
                   (CreateOrderDto.items createOrderDto)))
             PENDING (length (CreateOrderDto.items createOrderDto))))].
Proof.
  intros Hrun. rewrite (createOrder_calls _ _ _ _ _ Hrun).
  rewrite filter_app, invalidation_calls_unpublished, app_nil_r.
  apply createOrder_ok in Hrun as (-> & _).
  unfold created_event, new_order, inserted_entity, draft_of. simpl.
  rewrite !filter_cons. simpl.
  by rewrite order_total_lines, length_map.
Qed.

Lemma createOrder_announcement_witness :
  filter (fun c => is_publication c = true)
    (calls_of (createOrder reliable tenths_dto) initial_state)
  = [KafkaEmit "order.created"
       (Envelope "ORDER_CREATED" 0
          (OrderCreatedData "0" "user-123" (0.1 * 3)%float PENDING 1));
     RabbitEmit "order_created"
       (Envelope "ORDER_CREATED" 0
          (OrderCreatedData "0" "user-123" (0.1 * 3)%float PENDING 1))]
  /\ (0.1 * 3)%float <> 0.3%float.
Proof.
  destruct (createOrder reliable tenths_dto initial_state) as [[o|e] st'] eqn:Hrun;
    [|by vm_compute in Hrun].
  rewrite (createOrder_announcement _ _ _ _ _ Hrun).
  vm_compute in Hrun. injection Hrun as <- _. split; [by vm_compute|].
  intros Heq. apply (f_equal Prim2SF) in Heq. vm_compute in Heq. discriminate Heq.
Defined.

(** A successful [cancelOrder] publishes one message and no more: the
    [ORDER_STATUS_CHANGED] envelope on the Kafka topic
    [order.status.changed], with the new status [CANCELLED]. The reason is
    stored with the order and is not part of the message, and nothing is
    sent to RabbitMQ. *)
Theorem cancelOrder_announcement env id reason st o st' :
  cancelOrder env id reason st = (Ok o, st') ->
  filter (fun c => is_publication c = true) (calls_of (cancelOrder env id reason) st)
  = [KafkaEmit "order.status.changed"
       (Envelope "ORDER_STATUS_CHANGED" (now st)
          (OrderStatusChangedData (Order.id o) (Order.userId o) CANCELLED
             (Order.totalAmount o)))]
  /\ Order.status o = CANCELLED
  /\ Order.cancelReason o = Some reason.
Proof.
  unfold cancelOrder. intros H.
  set (updateDto := UpdateOrderStatusDto.mk CANCELLED (Some reason)) in *.
  destruct (findOne env id st) as [[current|e] st1] eqn:Hload;
    [|by rewrite (updateStatus_findOne_fails _ _ _ _ _ _ Hload) in H].
  destruct (findOne_calls _ _ _ _ Hload) as (Ht1 & Hn1 & _).
  destruct (decide (allowedNext (Order.status current)
                      (UpdateOrderStatusDto.status updateDto))) as [Hedge|Hoff];
    [|by rewrite (updateStatus_invalid _ _ _ _ _ _ Hload Hoff) in H].
  pose proof H as Hrun.
  rewrite (updateStatus_valid _ _ _ _ _ _ Hload Hedge) in H.
  destruct (save_outcome env (apply_update (now st1) updateDto current))
    as [m|] eqn:Hsave.
  { by rewrite (commit_update_save_fails _ _ _ _ _ _ Hsave) in H. }
  rewrite (commit_update_saved _ _ _ _ _ Hsave) in H.
  pose proof (after_update_save_ok _ _ _ _ _ _ H) as ->.
  apply after_update_save_calls in H as [s Hs].
  split; [|done].
  set (row := updated_row (now st1) updateDto current) in *.
  rewrite (calls_of_log_calls _ _
             (load_calls st id
                ++ [RepoSave (Order.id row);
                    KafkaEmit "order.status.changed"
                      (status_changed_event (now st) row)]
                ++ notification_calls row
                ++ [CacheDel (order_key id)]
                ++ invalidation_calls env s (Order.userId row))).
  2: { rewrite Hrun. simpl. rewrite Hs. simpl. rewrite Ht1, Hn1.
       by rewrite <- !app_assoc. }
  rewrite !filter_app, load_calls_unpublished, invalidation_calls_unpublished.
  unfold notification_calls. by simpl.
Qed.

Lemma cancelOrder_announcement_witness :
  filter (fun c => is_publication c = true)
    (calls_of (cancelOrder reliable "0" "changed my mind") st_created)
  = [KafkaEmit "order.status.changed"
       (Envelope "ORDER_STATUS_CHANGED" 0
          (OrderStatusChangedData "0" "user-123" CANCELLED 105099))].
Proof.
  destruct (cancelOrder reliable "0" "changed my mind" st_created)
    as [[o|e] st'] eqn:Hrun; [|by vm_compute in Hrun].
  rewrite (proj1 (cancelOrder_announcement _ _ _ _ _ _ Hrun)).
  vm_compute in Hrun. by injection Hrun as <- _.
Defined.

(** ** When [updateStatus] goes through *)



(** ** A job run on an order that has moved on *)


